(** * Beeper extension: contact matching and service normalisation

    A shallow embedding of
      - [utils/contact-matching.ts]: [levenshteinDistance],
        [calculateSimilarity], [rankChatMatches], [getSuggestionMessage];
      - [utils/types.ts]: [parseService];
      - [utils/service-icons.ts]: the display names;
      - [services/sendMessage.ts], [services/openChat.ts];
      - parts of the tools and of the chat lists.

    Modelling conventions.
      - A JavaScript string is a list of code units.  The code units are the
        8-bit ones (type [ascii], read as Latin-1), on which [toLowerCase],
        [trim] and the regular expression class [\s] are written out in full.
      - A JavaScript number is a double.  A finite double is the rational it
        denotes ([Q]), and an arithmetic operation of the source is the exact
        operation followed by the rounding [Double.fl] to the nearest number
        of 53 significant bits, ties to even.  A number a caller passes in
        an options object may also be [NaN] or infinite ([jsnumber]).
        Numbers holding a length, an index, a distance or a count of unread
        messages are naturals: they stay below 2^53, where doubles are exact.
      - [undefined] is [None].
      - The object literal [serviceMap] is the association list of its own
        keys, in insertion order (the order [Object.entries] walks them);
        a property read on it also finds the members every object inherits
        from [Object.prototype].
      - A function that may throw returns a sum, the thrown value on the
        left. *)

From Stdlib Require Import Ascii String.
From Stdlib Require Import QArith Qminmax Lqa Qround Qabs Qpower Qreduction.
From Stdlib Require Import SpecFloat.
From Stdlib Require Import List Arith ZArith Lia Bool.
From Stdlib Require Import Permutation Sorted.
Import ListNotations.

Close Scope Q_scope.
Open Scope nat_scope.

Set Implicit Arguments.

(** ** JavaScript strings *)

Module JsString.

Definition t := list ascii.

(** A string literal of the source. *)
Definition lit (s : string) : t := list_ascii_of_string s.

Definition code (c : ascii) : nat := nat_of_ascii c.

Definition eqb (a b : t) : bool :=
  if list_eq_dec ascii_dec a b then true else false.

(** [String.prototype.toLowerCase] on one code unit: [A-Z], and the
    Latin-1 capitals U+00C0..U+00DE except the multiplication sign U+00D7,
    move up by 32. *)
Definition lower_unit (c : ascii) : ascii :=
  let n := code c in
  if ((65 <=? n) && (n <=? 90))
     || ((192 <=? n) && (n <=? 222) && negb (n =? 215))
  then ascii_of_nat (n + 32)
  else c.

Definition toLowerCase (s : t) : t := map lower_unit s.

(** White space and line terminators of ECMAScript among the 8-bit code
    units: TAB, LF, VT, FF, CR, SP and NBSP.  [trim] strips them and the
    class [\s] matches them. *)
Definition is_space (c : ascii) : bool :=
  let n := code c in
  ((9 <=? n) && (n <=? 13)) || (n =? 32) || (n =? 160).

Fixpoint trimStart (s : t) : t :=
  match s with
  | [] => []
  | c :: s' => if is_space c then trimStart s' else s
  end.

Definition trimEnd (s : t) : t := rev (trimStart (rev s)).

Definition trim (s : t) : t := trimEnd (trimStart s).

(** [t.startsWith(q)] *)
Fixpoint startsWith (s q : t) : bool :=
  match q, s with
  | [], _ => true
  | _ :: _, [] => false
  | cq :: q', cs :: s' => if ascii_dec cs cq then startsWith s' q' else false
  end.

(** [t.includes(q)]: [q] occurs at some position of [s]. *)
Fixpoint includes (s q : t) : bool :=
  startsWith s q ||
  match s with
  | [] => false
  | _ :: s' => includes s' q
  end.

(** [s.split(/\s+/)].  [cur] is the token being read, last unit first;
    [in_sep] tells that the scan is inside a run of white space, whose
    first unit has already closed the previous token. *)
Fixpoint split_ws_from (in_sep : bool) (cur : t) (s : t) : list t :=
  match s with
  | [] => [rev cur]
  | c :: s' =>
      if is_space c
      then if in_sep
           then split_ws_from true [] s'
           else rev cur :: split_ws_from true [] s'
      else split_ws_from false (c :: cur) s'
  end.

Definition split_ws (s : t) : list t := split_ws_from false [] s.

(** [s[0]]: [undefined] on the empty string. *)
Definition at0 (s : t) : option ascii := hd_error s.

Definition unit_opt_eqb (a b : option ascii) : bool :=
  match a, b with
  | None, None => true
  | Some x, Some y => if ascii_dec x y then true else false
  | _, _ => false
  end.

End JsString.

Definition jsstring : Type := JsString.t.
Definition js (s : string) : jsstring := JsString.lit s.

(** ** JavaScript numbers *)

Module Double.

Definition pow2 (e : Z) : Q := (2 ^ e)%Q.

(** The integer nearest to [x], the even one of the two when [x] lies half
    way between them. *)
Definition nearest_even (x : Q) : Z :=
  let f := Qfloor x in
  match (x - inject_Z f ?= 1 # 2)%Q with
  | Lt => f
  | Gt => (f + 1)%Z
  | Eq => if Z.even f then f else (f + 1)%Z
  end.

(** The binary exponent of [x], for [x] other than zero: the [e] with
    [2^e <= |x| < 2^(e+1)].  The difference of the two logarithms is [e] or
    [e + 1], and the test tells which. *)
Definition exponent (x : Q) : Z :=
  let k := (Z.log2 (Z.abs (Qnum x)) - Z.log2 (Zpos (Qden x)))%Z in
  if Qle_bool (pow2 k) (Qabs x) then k else (k - 1)%Z.

(** [x] written with 53 significant bits: an integer of 53 bits times a
    power of two. *)
Definition round_nonzero (x : Q) : Q :=
  let e := (exponent x - 52)%Z in
  (inject_Z (nearest_even (x * pow2 (- e))) * pow2 e)%Q.

(** The double nearest to [x], as a fraction in lowest terms.  The exponent
    is not bounded: the doubles below 2^-1022 in magnitude, which have
    fewer bits, and the overflow to infinity beyond 2^1024 are not
    modelled.  The numbers rounded in this file are quotients of two
    lengths, their complements to 1, the products of those with 1.1 and
    differences of two such scores; with lengths below 2^53 each of them
    is zero or has a magnitude between 2^-105 and 2. *)
Definition fl (x : Q) : Q :=
  let x := Qred x in
  if Qeq_bool x 0 then 0%Q else Qred (round_nonzero x).

(** A decimal literal of the source. *)
Definition literal (x : Q) : Q := fl x.

(** [x / y], [x - y] and [x * y] on doubles. *)
Definition div (x y : Q) : Q := fl (x / y).
Definition sub (x y : Q) : Q := fl (x - y).
Definition mul (x y : Q) : Q := fl (x * y).

End Double.

(** A number as a caller may pass it. *)
Inductive jsnumber : Type :=
  | NaN
  | PosInfinity
  | NegInfinity
  | Finite (q : Q).

(** [x >= y] for a finite [x]: false whenever [y] is [NaN]. *)
Definition number_ge (x : Q) (y : jsnumber) : bool :=
  match y with
  | NaN => false
  | PosInfinity => false
  | NegInfinity => true
  | Finite q => Qle_bool q x
  end.

(** The integer part of a finite number, towards zero. *)
Definition truncate (q : Q) : Z := Z.quot (Qnum q) (Zpos (Qden q)).

(** [arr.slice(0, end)].  [end] is made an integer ([NaN] gives 0, a
    fraction loses its fractional part); a negative one counts from the
    end of the array; the result stops at the end of the array. *)
Definition slice_from_0 {A : Type} (arr : list A) (end_ : jsnumber) : list A :=
  let len := Z.of_nat (length arr) in
  let final :=
    match end_ with
    | NaN => 0%Z
    | NegInfinity => 0%Z
    | PosInfinity => len
    | Finite q =>
        let relativeEnd := truncate q in
        if (relativeEnd <? 0)%Z then Z.max (len + relativeEnd) 0
        else Z.min relativeEnd len
    end in
  firstn (Z.to_nat final) arr.

(** ** JavaScript arrays

    [arr[i] = v] on an array: replaces the element when [i] is inside,
    appends it when [i] is the length, and beyond that leaves holes, which
    are filled here with [hole]. *)

Fixpoint array_set {A : Type} (hole : A) (arr : list A) (i : nat) (v : A)
  : list A :=
  match i, arr with
  | O, [] => [v]
  | O, _ :: rest => v :: rest
  | S i', [] => hole :: array_set hole [] i' v
  | S i', x :: rest => x :: array_set hole rest i' v
  end.

(** [for (let k = lo; k < lo + n; k++) body], threading the state. *)
Definition for_loop {St : Type} (lo n : nat) (body : St -> nat -> St)
  (s : St) : St :=
  fold_left body (seq lo n) s.

(** ** contact-matching.ts: levenshteinDistance *)

(** [number[][]] *)
Definition matrix_t : Type := list (list nat).

(** [matrix[i][j]] *)
Definition cell (matrix : matrix_t) (i j : nat) : nat :=
  nth j (nth i matrix []) 0.

(** [matrix[i][j] = v] *)
Definition set_cell (matrix : matrix_t) (i j v : nat) : matrix_t :=
  array_set [] matrix i (array_set 0 (nth i matrix []) j v).

(** [s.charAt(i)]: the one-unit string at [i], empty out of range. *)
Definition charAt (s : jsstring) (i : nat) : jsstring :=
  match nth_error s i with
  | Some c => [c]
  | None => []
  end.

Definition min3 (x y z : nat) : nat := Nat.min x (Nat.min y z).

Definition lev_init_rows (b : jsstring) (matrix : matrix_t) : matrix_t :=
  for_loop 0 (S (length b)) (fun m i => array_set [] m i [i]) matrix.

Definition lev_init_cols (a : jsstring) (matrix : matrix_t) : matrix_t :=
  for_loop 0 (S (length a)) (fun m j => set_cell m 0 j j) matrix.

Definition lev_cell_step (a b : jsstring) (i : nat) (m : matrix_t) (j : nat)
  : matrix_t :=
  if JsString.eqb (charAt b (i - 1)) (charAt a (j - 1))
  then set_cell m i j (cell m (i - 1) (j - 1))
  else set_cell m i j
         (min3 (cell m (i - 1) (j - 1) + 1)   (* substitution *)
               (cell m i (j - 1) + 1)         (* insertion *)
               (cell m (i - 1) j + 1)).       (* deletion *)

Definition lev_fill (a b : jsstring) (matrix : matrix_t) : matrix_t :=
  for_loop 1 (length b)
    (fun m i => for_loop 1 (length a) (lev_cell_step a b i) m) matrix.

Definition levenshteinDistance (a b : jsstring) : nat :=
  let matrix := lev_fill a b (lev_init_cols a (lev_init_rows b [])) in
  cell matrix (length b) (length a).

(** ** contact-matching.ts: calculateSimilarity *)

Inductive MatchType : Type := Exact | StartsWith | Contains | Word | Fuzzy.

(** The object [{ score, matchType }]. *)
Record Similarity : Type := mkSimilarity {
  sim_score : Q;
  sim_matchType : MatchType
}.

(** [s.toLowerCase().trim()] *)
Definition normalize (s : jsstring) : jsstring :=
  JsString.trim (JsString.toLowerCase s).

(** [for (const word of targetWords)]: the first token that is the query
    or starts with it ends the function; [None] when the loop runs out. *)
Fixpoint word_loop (q : jsstring) (targetWords : list jsstring)
  : option Similarity :=
  match targetWords with
  | [] => None
  | w :: rest =>
      if JsString.eqb w q then Some (mkSimilarity (Double.literal 0.9) Word)
      else if JsString.startsWith w q
      then Some (mkSimilarity (Double.literal 0.8) Word)
      else word_loop q rest
  end.

(** A length or a distance as a double. *)
Definition num (n : nat) : Q := inject_Z (Z.of_nat n).

(** The Levenshtein fall-back, from [const maxLen] on. *)
Definition fuzzy_fallback (q t : jsstring) : Similarity :=
  let maxLen := Nat.max (length q) (length t) in
  if maxLen =? 0 then mkSimilarity (Double.literal 1.0) Exact
  else
    let dist := levenshteinDistance q t in
    let normalizedScore := Double.sub 1 (Double.div (num dist) (num maxLen)) in
    let normalizedScore :=
      if JsString.unit_opt_eqb (JsString.at0 q) (JsString.at0 t)
      then Qmin 1 (Double.mul normalizedScore (Double.literal 1.1))
      else normalizedScore in
    mkSimilarity normalizedScore Fuzzy.

Definition calculateSimilarity (query target : jsstring) : Similarity :=
  let q := normalize query in
  let t := normalize target in
  if JsString.eqb q t then mkSimilarity (Double.literal 1.0) Exact
  else if JsString.startsWith t q
  then mkSimilarity (Double.literal 0.95) StartsWith
  else if JsString.includes t q
  then mkSimilarity (Double.literal 0.85) Contains
  else
    match word_loop q (JsString.split_ws t) with
    | Some r => r
    | None => fuzzy_fallback q t
    end.

(** The same function with the division made partial: a zero denominator
    is an error instead of a number. *)
Definition checked_div (x y : Q) : option Q :=
  if Qeq_bool y 0 then None else Some (Double.div x y).

Definition fuzzy_fallback_checked (q t : jsstring) : option Similarity :=
  let maxLen := Nat.max (length q) (length t) in
  if maxLen =? 0 then Some (mkSimilarity (Double.literal 1.0) Exact)
  else
    let dist := levenshteinDistance q t in
    match checked_div (num dist) (num maxLen) with
    | None => None
    | Some ratio =>
        let normalizedScore := Double.sub 1 ratio in
        let normalizedScore :=
          if JsString.unit_opt_eqb (JsString.at0 q) (JsString.at0 t)
          then Qmin 1 (Double.mul normalizedScore (Double.literal 1.1))
          else normalizedScore in
        Some (mkSimilarity normalizedScore Fuzzy)
    end.

Definition calculateSimilarity_checked (query target : jsstring)
  : option Similarity :=
  let q := normalize query in
  let t := normalize target in
  if JsString.eqb q t then Some (mkSimilarity (Double.literal 1.0) Exact)
  else if JsString.startsWith t q
  then Some (mkSimilarity (Double.literal 0.95) StartsWith)
  else if JsString.includes t q
  then Some (mkSimilarity (Double.literal 0.85) Contains)
  else
    match word_loop q (JsString.split_ws t) with
    | Some r => Some r
    | None => fuzzy_fallback_checked q t
    end.

(** ** types.ts: parseService *)

Inductive BeeperService : Type :=
  | whatsapp | telegram | signal | instagram | messenger | discord | slack
  | linkedin | twitter | googlechat | googlemessages | googlevoice | sms
  | imessage | matrix | unknown.

(** The string a [BeeperService] is. *)
Definition service_name (s : BeeperService) : jsstring :=
  match s with
  | whatsapp => js "whatsapp"
  | telegram => js "telegram"
  | signal => js "signal"
  | instagram => js "instagram"
  | messenger => js "messenger"
  | discord => js "discord"
  | slack => js "slack"
  | linkedin => js "linkedin"
  | twitter => js "twitter"
  | googlechat => js "googlechat"
  | googlemessages => js "googlemessages"
  | googlevoice => js "googlevoice"
  | sms => js "sms"
  | imessage => js "imessage"
  | matrix => js "matrix"
  | unknown => js "unknown"
  end.

Definition serviceMap : list (jsstring * BeeperService) :=
  [ (js "whatsapp", whatsapp);
    (js "telegram", telegram);
    (js "signal", signal);
    (js "instagram", instagram);
    (js "messenger", messenger);
    (js "facebook", messenger);
    (js "discord", discord);
    (js "slack", slack);
    (js "linkedin", linkedin);
    (js "twitter", twitter);
    (js "x", twitter);
    (js "googlechat", googlechat);
    (js "google-chat", googlechat);
    (js "googlemessages", googlemessages);
    (js "google-messages", googlemessages);
    (js "gmessages", googlemessages);
    (js "g-messages", googlemessages);
    (js "androidsms", googlemessages);
    (js "android", googlemessages);
    (js "rcs", googlemessages);
    (js "messages", googlemessages);
    (js "google messages", googlemessages);
    (js "texts", googlemessages);
    (js "googlevoice", googlevoice);
    (js "google-voice", googlevoice);
    (js "sms", sms);
    (js "imessage", imessage);
    (js "matrix", matrix);
    (js "beeper (matrix)", matrix);
    (js "beeper", matrix) ].

(** The own property [key] of an object literal: the value of the entry
    with that key. *)
Fixpoint map_get {V : Type} (m : list (jsstring * V)) (key : jsstring)
  : option V :=
  match m with
  | [] => None
  | (k, v) :: rest => if JsString.eqb k key then Some v else map_get rest key
  end.

(** The names of the members an object literal inherits from
    [Object.prototype]: the function [Object] under [constructor], the
    prototype itself under [__proto__], and ten methods. *)
Definition object_prototype_names : list jsstring :=
  [ js "constructor"; js "__proto__";
    js "hasOwnProperty"; js "isPrototypeOf"; js "propertyIsEnumerable";
    js "toLocaleString"; js "toString"; js "valueOf";
    js "__defineGetter__"; js "__defineSetter__";
    js "__lookupGetter__"; js "__lookupSetter__" ].

(** What [serviceMap[key]] can be: a tag written in the literal, or the
    inherited member of that name, an object or a function and no
    string. *)
Inductive ServiceValue : Type :=
  | Tag (s : BeeperService)
  | Inherited (name : jsstring).

(** [serviceMap[key]]: the own property, failing that the inherited
    member, failing that [undefined]. *)
Definition property_get (m : list (jsstring * BeeperService))
  (key : jsstring) : option ServiceValue :=
  match map_get m key with
  | Some v => Some (Tag v)
  | None =>
      if existsb (JsString.eqb key) object_prototype_names
      then Some (Inherited key)
      else None
  end.

(** [for (const [key, value] of Object.entries(serviceMap))]: the value of
    the first entry whose key has three units or more and starts
    [normalized]. *)
Fixpoint prefix_loop (normalized : jsstring)
  (entries : list (jsstring * BeeperService)) : option BeeperService :=
  match entries with
  | [] => None
  | (key, value) :: rest =>
      if (3 <=? length key) && JsString.startsWith normalized key
      then Some value
      else prefix_loop normalized rest
  end.

(** Every value [serviceMap[normalized]] can be is truthy: a tag is a
    string that is not empty, an inherited member an object. *)
Definition parseService (serviceString : option jsstring) : ServiceValue :=
  match serviceString with
  | None => Tag unknown
  | Some [] => Tag unknown
  | Some s =>
      let normalized := JsString.toLowerCase s in
      match property_get serviceMap normalized with
      | Some v => v
      | None =>
          match prefix_loop normalized serviceMap with
          | Some v => Tag v
          | None => Tag unknown
          end
      end
  end.

(** ** Values thrown

    A value thrown is an [Error] with its message, or something else. *)

Inductive Thrown : Type :=
  | ThrownError (message : jsstring)
  | ThrownOther.

(** The [TypeError] of [chatService.toLowerCase()] on a value that has no
    such method, with the message Node gives it. *)
Definition not_a_function : Thrown :=
  ThrownError (js "chatService.toLowerCase is not a function").

(** [arr.filter(callbackFn)] with a callback that may throw: the first
    throw ends the call. *)
Fixpoint array_filter {A : Type} (callbackFn : A -> Thrown + bool)
  (arr : list A) : Thrown + list A :=
  match arr with
  | [] => inr []
  | x :: rest =>
      match callbackFn x with
      | inl e => inl e
      | inr keep =>
          match array_filter callbackFn rest with
          | inl e => inl e
          | inr kept => inr (if keep then x :: kept else kept)
          end
      end
  end.

(** ** contact-matching.ts: rankChatMatches *)

Record ChatMatch : Type := mkChatMatch {
  id : jsstring;
  title : jsstring;
  network : jsstring;
  accountID : option jsstring;
  type : option jsstring;
  lastActivity : option jsstring;
  unreadCount : option nat;
  isMuted : option bool;
  isArchived : option bool
}.

Record MatchResult : Type := mkMatchResult {
  chat : ChatMatch;
  score : Q;
  matchType : MatchType
}.

Record RankOptions : Type := mkRankOptions {
  service : option jsstring;
  minScore : option jsnumber;
  maxResults : option jsnumber
}.

(** [Array.prototype.sort(compareFn)].  The sort is stable, and
    [compareFn(x, y) > 0] asks for [y] before [x]; on a comparison function
    that is an order this fixes the result, which is computed here by
    insertion from the right. *)
Fixpoint sort_insert {A : Type} (compareFn : A -> A -> Q) (x : A)
  (sorted : list A) : list A :=
  match sorted with
  | [] => [x]
  | y :: rest =>
      if Qle_bool (compareFn x y) 0
      then x :: y :: rest
      else y :: sort_insert compareFn x rest
  end.

Definition array_sort {A : Type} (compareFn : A -> A -> Q) (arr : list A)
  : list A :=
  fold_right (sort_insert compareFn) [] arr.

(** [const { service, minScore = 0.4, maxResults = 5 } = options || {}] *)
Definition opt_service (options : option RankOptions) : option jsstring :=
  match options with Some o => service o | None => None end.

Definition opt_minScore (options : option RankOptions) : jsnumber :=
  match options with
  | Some o =>
      match minScore o with
      | Some m => m
      | None => Finite (Double.literal 0.4)
      end
  | None => Finite (Double.literal 0.4)
  end.

Definition opt_maxResults (options : option RankOptions) : jsnumber :=
  match options with
  | Some o => match maxResults o with Some m => m | None => Finite 5 end
  | None => Finite 5
  end.

(** [if (service) { ... matches.filter(...) }]: the empty string is falsy.
    [chatService.toLowerCase()] throws when [parseService] returned an
    inherited member. *)
Definition service_prefilter (service : option jsstring)
  (chats : list ChatMatch) : Thrown + list ChatMatch :=
  match service with
  | None => inr chats
  | Some [] => inr chats
  | Some s =>
      let targetService := JsString.toLowerCase s in
      array_filter
        (fun chat =>
           match parseService (Some (network chat)) with
           | Tag chatService =>
               inr (JsString.eqb
                      (JsString.toLowerCase (service_name chatService))
                      targetService)
           | Inherited _ => inl not_a_function
           end)
        chats
  end.

(** [(a, b) => b.score - a.score] *)
Definition by_score_desc (a b : MatchResult) : Q :=
  Double.sub (score b) (score a).

Definition score_chat (query : jsstring) (chat : ChatMatch) : MatchResult :=
  let r := calculateSimilarity query (title chat) in
  mkMatchResult chat (sim_score r) (sim_matchType r).

Definition rankChatMatches (chats : list ChatMatch) (query : jsstring)
  (options : option RankOptions) : Thrown + list MatchResult :=
  let service := opt_service options in
  let minScore := opt_minScore options in
  let maxResults := opt_maxResults options in
  match service_prefilter service chats with
  | inl e => inl e
  | inr matches =>
      let scoredMatches := map (score_chat query) matches in
      inr (slice_from_0
             (array_sort by_score_desc
                (filter (fun m => number_ge (score m) minScore)
                        scoredMatches))
             maxResults)
  end.

(** ** Reference definitions used by the statements *)

(** The recurrence the matrix is filled with, read on the two strings from
    their last units backwards, that is on the reversed strings from the
    head: [lev_rec (rev x) (rev y)] is what cell [(|x|, |y|)] must hold. *)
Fixpoint lev_rec (x : jsstring) : jsstring -> nat :=
  fix lev_inner (y : jsstring) : nat :=
    match x, y with
    | [], _ => length y
    | _, [] => length x
    | cx :: x', cy :: y' =>
        if ascii_dec cx cy then lev_rec x' y'
        else min3 (lev_rec x' y' + 1) (lev_inner y' + 1) (lev_rec x' y + 1)
    end.

(** The rows below the first after the first loop: row [i] is [[i]]. *)
Definition lev_first_cells (b : jsstring) : matrix_t :=
  map (fun i => [i]) (seq 1 (length b)).

(** What cell [(i, j)] of the matrix of [levenshteinDistance a b] holds once
    written. *)
Definition lev_cell (a b : jsstring) (i j : nat) : nat :=
  lev_rec (rev (firstn i b)) (rev (firstn j a)).

(** The state of the matrix while row [i] is being written and its first
    [j] cells are: the rows above are complete, the rows below hold their
    first cell only. *)
Definition rows_ok (a b : jsstring) (i j : nat) (m : matrix_t) : Prop :=
  length m = S (length b) /\
  (forall i', i' < i -> length (nth i' m []) = S (length a)) /\
  length (nth i m []) = j /\
  (forall i', i < i' <= length b -> length (nth i' m []) = 1) /\
  (forall i' j', i' <= length b -> j' < length (nth i' m []) ->
                 cell m i' j' = lev_cell a b i' j').

(** Edit scripts: [edit_cost x y n] holds when [x] is turned into [y] by
    a left-to-right script of kept units and [n] unit-cost substitutions,
    deletions and insertions. *)
Inductive edit_cost : jsstring -> jsstring -> nat -> Prop :=
  | edit_done : edit_cost [] [] 0
  | edit_keep c x y n :
      edit_cost x y n -> edit_cost (c :: x) (c :: y) n
  | edit_substitute c d x y n :
      edit_cost x y n -> edit_cost (c :: x) (d :: y) (S n)
  | edit_delete c x y n :
      edit_cost x y n -> edit_cost (c :: x) y (S n)
  | edit_insert d x y n :
      edit_cost x y n -> edit_cost x (d :: y) (S n).

(** The Levenshtein distance: the cost of a cheapest script. *)
Definition is_edit_distance (x y : jsstring) (d : nat) : Prop :=
  edit_cost x y d /\ forall n, edit_cost x y n -> d <= n.

(** The normalisation of a service string as the specification words it:
    [unknown] without a string; the tag of the key the lower-cased string
    is; failing that the tag of the longest key of three units or more that
    starts it; failing that [unknown]. *)
Inductive parseService_rel : option jsstring -> BeeperService -> Prop :=
  | ps_undefined : parseService_rel None unknown
  | ps_empty : parseService_rel (Some []) unknown
  | ps_exact s v :
      s <> [] ->
      In (JsString.toLowerCase s, v) serviceMap ->
      parseService_rel (Some s) v
  | ps_longest_prefix s k v :
      s <> [] ->
      (forall v', ~ In (JsString.toLowerCase s, v') serviceMap) ->
      In (k, v) serviceMap ->
      3 <= length k ->
      JsString.startsWith (JsString.toLowerCase s) k = true ->
      (forall k' v', In (k', v') serviceMap -> 3 <= length k' ->
                     JsString.startsWith (JsString.toLowerCase s) k' = true ->
                     length k' <= length k) ->
      parseService_rel (Some s) v
  | ps_no_key s :
      s <> [] ->
      (forall v', ~ In (JsString.toLowerCase s, v') serviceMap) ->
      (forall k v, In (k, v) serviceMap -> 3 <= length k ->
                   JsString.startsWith (JsString.toLowerCase s) k = false) ->
      parseService_rel (Some s) unknown.

(** The tag found when only the keys written in [serviceMap] are looked
    up: what [parseService] returns on a string that is no inherited
    name. *)
Definition own_key_tag (serviceString : option jsstring) : BeeperService :=
  match serviceString with
  | None => unknown
  | Some [] => unknown
  | Some s =>
      let normalized := JsString.toLowerCase s in
      match map_get serviceMap normalized with
      | Some v => v
      | None =>
          match prefix_loop normalized serviceMap with
          | Some v => v
          | None => unknown
          end
      end
  end.

Definition BeeperService_eq_dec (x y : BeeperService) : {x = y} + {x <> y}.
Proof. decide equality. Defined.

(** Two entries of a table agree whenever [related] holds of their keys. *)
Definition entries_agree (related : jsstring -> jsstring -> bool)
  (m : list (jsstring * BeeperService)) : bool :=
  forallb
    (fun e1 =>
       forallb
         (fun e2 =>
            implb (related (fst e1) (fst e2))
                  (if BeeperService_eq_dec (snd e1) (snd e2)
                   then true else false))
         m)
    m.

(** The priority of a match type: exact, startsWith, word, contains,
    fuzzy, from the highest down. *)
Definition priority (m : MatchType) : nat :=
  match m with
  | Exact => 4
  | StartsWith => 3
  | Word => 2
  | Contains => 1
  | Fuzzy => 0
  end.

(** Both strings have a first unit and it is the same. *)
Definition same_first_unit (q t : jsstring) : Prop :=
  exists c q' t', q = c :: q' /\ t = c :: t'.

(** The similarity the fall-back computes from a distance [d] and the
    longer length [maxLen], [1 - d / maxLen] in doubles, and the same
    multiplied by 1.1 and capped at 1. *)
Definition plain_score (d maxLen : nat) : Q :=
  Double.sub 1 (Double.div (num d) (num maxLen)).

Definition boosted_score (d maxLen : nat) : Q :=
  Qmin 1 (Double.mul (plain_score d maxLen) (Double.literal 1.1)).

(** The double of a natural number and the value of a double, in the
    Standard Library's specification of IEEE 754 binary64. *)
Definition b64_of_nat (n : nat) : spec_float :=
  binary_normalize 53 1024 (Z.of_nat n) 0 false.

Definition b64_value (x : spec_float) : option Q :=
  match x with
  | S754_zero _ => Some 0%Q
  | S754_finite s m e =>
      Some (Qred ((if s then -1 else 1) * inject_Z (Zpos m) * Double.pow2 e))
  | _ => None
  end.

(** The two scores of the fall-back computed in that specification. *)
Definition b64_plain_score (d maxLen : nat) : spec_float :=
  SFsub 53 1024 (b64_of_nat 1)
        (SFdiv 53 1024 (b64_of_nat d) (b64_of_nat maxLen)).

Definition b64_boosted_score (d maxLen : nat) : spec_float :=
  let boosted :=
    SFmul 53 1024 (b64_plain_score d maxLen)
          (SFdiv 53 1024 (b64_of_nat 11) (b64_of_nat 10)) in
  if SFltb boosted (b64_of_nat 1) then boosted else b64_of_nat 1.

(** The model and the specification agree on every distance [d <= maxLen]
    for the lengths [1 .. bound]. *)
Definition scores_agree_up_to (bound : nat) : bool :=
  forallb
    (fun maxLen =>
       forallb
         (fun d =>
            match b64_value (b64_plain_score d maxLen),
                  b64_value (b64_boosted_score d maxLen) with
            | Some p, Some b =>
                Qeq_bool p (plain_score d maxLen)
                && Qeq_bool b (boosted_score d maxLen)
            | _, _ => false
            end)
         (seq 0 (S maxLen)))
    (seq 1 bound).

(** [a] may stand before [b] in a list sorted by descending score. *)
Definition score_desc (a b : MatchResult) : Prop := (score b <= score a)%Q.

Definition has_score (v : Q) (m : MatchResult) : bool := Qeq_bool (score m) v.

(** [output] is [input] sorted by descending score with ties left in their
    original order: the same entries, in descending order, and for every
    score the entries having it in the order [input] has them. *)
Definition stable_sort_of (input output : list MatchResult) : Prop :=
  Permutation input output /\
  StronglySorted score_desc output /\
  forall v, filter (has_score v) output = filter (has_score v) input.

(** The network of [c] lower-cases to the name of a member that
    [serviceMap] inherits and that a lower-cased string can be. *)
Definition inherited_name (s : jsstring) : bool :=
  JsString.eqb (JsString.toLowerCase s) (js "constructor")
  || JsString.eqb (JsString.toLowerCase s) (js "__proto__").

(** The network of [c] normalises to the tag called [name]. *)
Definition has_tag_named (name : jsstring) (c : ChatMatch) : bool :=
  match parseService (Some (network c)) with
  | Tag t => JsString.eqb (service_name t) name
  | Inherited _ => false
  end.

(** The candidates a service filter retains: all of them without a
    filter or with the empty string; otherwise those whose network
    normalises to the tag that the lower-cased filter names. *)
Definition retained (svc : option jsstring) (chats : list ChatMatch)
  : list ChatMatch :=
  match svc with
  | Some (c :: s) =>
      filter (has_tag_named (JsString.toLowerCase (c :: s))) chats
  | _ => chats
  end.

(** The service filter can be applied to every candidate: there is no
    filter, or no network is an inherited name. *)
Definition filter_defined (svc : option jsstring) (chats : list ChatMatch)
  : Prop :=
  match svc with
  | Some (_ :: _) => forall c, In c chats -> inherited_name (network c) = false
  | _ => True
  end.

(** Applying the service filter throws: there is a filter and some
    network is an inherited name. *)
Definition filter_throws (svc : option jsstring) (chats : list ChatMatch)
  : bool :=
  match svc with
  | Some (_ :: _) => existsb (fun c => inherited_name (network c)) chats
  | _ => false
  end.

(** A candidate with its score and match type. *)
Definition scored_entry (query : jsstring) (c : ChatMatch) : MatchResult :=
  mkMatchResult c
    (sim_score (calculateSimilarity query (title c)))
    (sim_matchType (calculateSimilarity query (title c))).

(** A score is at least [y]: no score is at least [NaN]. *)
Definition reaches (x : Q) (y : jsnumber) : Prop :=
  match y with
  | Finite q => (q <= x)%Q
  | NegInfinity => True
  | PosInfinity => False
  | NaN => False
  end.

(** The threshold and the cap a call works with: what the options give,
    0.4 and 5 without. *)
Definition threshold_of (ms : option jsnumber) : jsnumber :=
  match ms with
  | Some m => m
  | None => Finite (Double.literal 0.4)
  end.

(** The number a call cuts its result at. *)
Definition cap_of (mr : option jsnumber) : jsnumber :=
  match mr with
  | Some m => m
  | None => Finite 5
  end.

(** [maxResults] is at least 0, which [NaN] is not. *)
Definition at_least_0 (mr : option jsnumber) : Prop :=
  match mr with
  | None => True
  | Some (Finite q) => (0 <= q)%Q
  | Some PosInfinity => True
  | Some _ => False
  end.

(** The number of entries [maxResults] asks for, of a list of [len]: the
    integer part of a finite number, everything for infinity. *)
Definition first_count (mr : option jsnumber) (len : nat) : nat :=
  match mr with
  | None => 5
  | Some (Finite q) => Z.to_nat (Qfloor q)
  | Some PosInfinity => len
  | Some _ => 0
  end.

(** [slice(0, maxResults)] returns nothing of a list of [len] entries
    that is not empty: [maxResults] is [NaN] or minus infinity, or its
    integer part is 0, or is negative and reaches back beyond the start of
    the list. *)
Definition cuts_to_nothing (mr : option jsnumber) (len : nat) : Prop :=
  match mr with
  | Some NaN => True
  | Some NegInfinity => True
  | Some (Finite q) =>
      truncate q = 0%Z \/
      (truncate q < 0 /\ Z.of_nat len <= - truncate q)%Z
  | Some PosInfinity => False
  | None => False
  end.

(** A list has [maxResults] entries at most. *)
Definition at_most (mr : option jsnumber) (n : nat) : Prop :=
  match mr with
  | None => n <= 5
  | Some (Finite q) => (num n <= q)%Q
  | Some PosInfinity => True
  | Some _ => False
  end.

(** The entries retained, scored and kept by the threshold. *)
Definition kept_entries (query : jsstring) (svc : option jsstring)
  (ms : option jsnumber) (chats : list ChatMatch) : list MatchResult :=
  filter (fun m => number_ge (score m) (threshold_of ms))
         (map (scored_entry query) (retained svc chats)).

(** The identifiers of a ranking. *)
Definition ranked_ids (r : Thrown + list MatchResult)
  : Thrown + list jsstring :=
  match r with
  | inl e => inl e
  | inr l => inr (map (fun m => id (chat m)) l)
  end.

(** A chat holding only the three fields every record has. *)
Definition plain_chat (i t n : jsstring) : ChatMatch :=
  mkChatMatch i t n None None None None None None.

(** Options that set the service filter only. *)
Definition only_service (s : jsstring) : option RankOptions :=
  Some (mkRankOptions (Some s) None None).

(** The options the callers rank with, and those they build the
    suggestions with. *)
Definition ranking_options (svc : option jsstring) : option RankOptions :=
  Some (mkRankOptions svc (Some (Finite (Double.literal 0.4)))
                      (Some (Finite 5))).

Definition suggestion_options : option RankOptions :=
  Some (mkRankOptions None (Some (Finite (Double.literal 0.3)))
                      (Some (Finite 3))).

(** ** contact-matching.ts: getSuggestionMessage *)

(** The one-unit string holding a double quote. *)
Definition dquote : jsstring := [ascii_of_nat 34].

(** [parts.join(sep)] *)
Fixpoint join (sep : jsstring) (parts : list jsstring) : jsstring :=
  match parts with
  | [] => []
  | [p] => p
  | p :: rest => p ++ sep ++ join sep rest
  end.

(** [s || fallback] on strings: the empty string is falsy. *)
Definition or_else (s : jsstring) (fallback : jsstring) : jsstring :=
  match s with
  | [] => fallback
  | _ :: _ => s
  end.

(** [s || fallback] on a string that may be [undefined]. *)
Definition opt_or_else (s : option jsstring) (fallback : jsstring) : jsstring :=
  match s with
  | Some (c :: r) => c :: r
  | _ => fallback
  end.

Definition quoted (s : jsstring) : jsstring := dquote ++ s ++ dquote.

Definition getSuggestionMessage (query : jsstring)
  (topMatches : list MatchResult) (service : option jsstring) : jsstring :=
  let servicePart :=
    match service with
    | Some (c :: s) => js " on " ++ (c :: s)
    | _ => []
    end in
  match topMatches with
  | [] =>
      js "No chat found matching " ++ quoted query ++ servicePart
      ++ js ". Try a different name or check your connected services."
  | _ :: _ =>
      let suggestions :=
        join (js ", ")
             (map (fun m => quoted (title (chat m))) (firstn 3 topMatches)) in
      js "No exact match for " ++ quoted query ++ servicePart
      ++ js ". Did you mean: " ++ suggestions ++ js "?"
  end.

(** ** service-icons.ts: display names *)

(** The record [serviceDisplayNames], in the order of its literal. *)
Definition serviceDisplayNames : list (BeeperService * jsstring) :=
  [ (whatsapp, js "WhatsApp");
    (telegram, js "Telegram");
    (signal, js "Signal");
    (instagram, js "Instagram");
    (messenger, js "Messenger");
    (discord, js "Discord");
    (slack, js "Slack");
    (linkedin, js "LinkedIn");
    (twitter, js "X (Twitter)");
    (googlechat, js "Google Chat");
    (googlemessages, js "Google Messages");
    (googlevoice, js "Google Voice");
    (sms, js "SMS");
    (imessage, js "iMessage");
    (matrix, js "Beeper (Matrix)");
    (unknown, js "Unknown") ].

(** [record[service]] *)
Fixpoint record_get {V : Type} (r : list (BeeperService * V))
  (key : BeeperService) : option V :=
  match r with
  | [] => None
  | (k, v) :: rest =>
      if BeeperService_eq_dec k key then Some v else record_get rest key
  end.

Definition getServiceDisplayName (service : BeeperService) : jsstring :=
  opt_or_else (record_get serviceDisplayNames service) (service_name service).

(** [Object.keys(serviceDisplayNames).filter((s) => s !== "unknown")] *)
Definition getAllServices : list BeeperService :=
  filter (fun s => negb (JsString.eqb (service_name s) (js "unknown")))
         (map fst serviceDisplayNames).

(** ** The tools: names taken from Matrix identifiers *)

(** [s.split(sep)[0]] for a one-unit separator: the string up to its first
    [sep], the whole string without one. *)
Fixpoint before_first (sep : ascii) (s : jsstring) : jsstring :=
  match s with
  | [] => []
  | c :: r => if ascii_dec c sep then [] else c :: before_first sep r
  end.

(** [s.replace(c, "")] for a one-unit pattern: the first [c] is dropped. *)
Fixpoint drop_first (c : ascii) (s : jsstring) : jsstring :=
  match s with
  | [] => []
  | x :: r => if ascii_dec x c then r else x :: drop_first c r
  end.

Definition at_sign : ascii := ascii_of_nat 64.
Definition colon : ascii := ascii_of_nat 58.

(** [id.split(":")[0].replace("@", "")] *)
Definition local_part (ident : jsstring) : jsstring :=
  drop_first at_sign (before_first colon ident).

(** A message as the tools read it off the cursor. *)
Record Message : Type := mkMessage {
  msg_isUnread : bool;
  msg_isSender : bool;
  msg_senderName : option jsstring;
  msg_senderID : option jsstring;
  msg_text : option jsstring;
  msg_timestamp : jsstring
}.

(** [msg.senderName || msg.senderID?.split(":")[0]?.replace("@", "")
     || "Unknown"] *)
Definition sender_label (msg : Message) : jsstring :=
  match msg_senderName msg with
  | Some (c :: r) => c :: r
  | _ =>
      match msg_senderID msg with
      | Some ident => or_else (local_part ident) (js "Unknown")
      | None => js "Unknown"
      end
  end.

(** ** summarize-unread.ts: collecting the unread messages *)

Record UnreadMessage : Type := mkUnreadMessage {
  um_sender : jsstring;
  um_text : jsstring;
  um_timestamp : jsstring
}.

Definition to_unread (msg : Message) : UnreadMessage :=
  mkUnreadMessage (sender_label msg)
    (opt_or_else (msg_text msg) (js "[Attachment or media message]"))
    (msg_timestamp msg).

(** [for await (const msg of messageCursor)], on a cursor that yields
    [cursor] and ends; the two accumulators are the variables of the
    source.  The loop is entered with [unreadCount] other than 0. *)
Fixpoint collect_unread_loop (unreadCount : nat) (cursor : list Message)
  (unreadMessages : list UnreadMessage) (messagesChecked : nat)
  : list UnreadMessage :=
  match cursor with
  | [] => unreadMessages
  | msg :: rest =>
      let messagesChecked := S messagesChecked in
      if msg_isUnread msg && negb (msg_isSender msg)
      then
        let unreadMessages := unreadMessages ++ [to_unread msg] in
        if (unreadCount <=? length unreadMessages)
           || (20 <=? length unreadMessages)
        then unreadMessages
        else if 50 <=? messagesChecked then unreadMessages
        else collect_unread_loop unreadCount rest unreadMessages
                                 messagesChecked
      else if 50 <=? messagesChecked then unreadMessages
      else collect_unread_loop unreadCount rest unreadMessages messagesChecked
  end.

(** The messages of the result before they are sorted by time:
    [if (unreadCount === 0) return { ..., messages: [] }], and the loop
    after it.  The message cursor is asked for only past that test. *)
Definition collect_unread (unreadCount : nat) (cursor : list Message)
  : list UnreadMessage :=
  if unreadCount =? 0 then []
  else collect_unread_loop unreadCount cursor [] 0.

(** ** summarize-unread.ts: getAllUnreadChatsSummary, after the fetch *)

(** [getServiceDisplayName(v)] on whatever [parseService] returned,
    [serviceDisplayNames[v] || v]: the display name of a tag; an
    inherited member names no entry of the record (the key it is converted
    to is its source text) and comes back as it is. *)
Inductive ServiceLabel : Type :=
  | DisplayName (s : jsstring)
  | MemberItself (name : jsstring).

Definition service_label (v : ServiceValue) : ServiceLabel :=
  match v with
  | Tag s => DisplayName (getServiceDisplayName s)
  | Inherited name => MemberItself name
  end.

Record UnreadChatSummary : Type := mkUnreadChatSummary {
  ucs_chatName : jsstring;
  ucs_service : ServiceLabel;
  ucs_unreadCount : nat;
  ucs_chatType : jsstring;
  ucs_lastActivity : option jsstring
}.

Record UnreadSummary : Type := mkUnreadSummary {
  us_unreadCount : nat;
  us_totalUnreadCount : nat;
  us_unreadChats : list UnreadChatSummary
}.

(** [chat.unreadCount || 0] *)
Definition unread_or_0 (c : ChatMatch) : nat :=
  match unreadCount c with
  | Some n => n
  | None => 0
  end.

(** The service filter of the summary: either lower-cased string includes
    the other. *)
Definition summary_filter (serviceFilter : option jsstring)
  (unreadChats : list ChatMatch) : list ChatMatch :=
  match serviceFilter with
  | Some (c :: s) =>
      let normalizedFilter := JsString.toLowerCase (c :: s) in
      filter
        (fun chat =>
           let chatService := JsString.toLowerCase (network chat) in
           JsString.includes chatService normalizedFilter
           || JsString.includes normalizedFilter chatService)
        unreadChats
  | _ => unreadChats
  end.

(** [(a, b) => (b.unreadCount || 0) - (a.unreadCount || 0)] *)
Definition by_unread_desc (a b : ChatMatch) : Q :=
  (num (unread_or_0 b) - num (unread_or_0 a))%Q.

Definition to_summary (chat : ChatMatch) : UnreadChatSummary :=
  mkUnreadChatSummary
    (or_else (title chat) (js "Unknown Chat"))
    (service_label (parseService (Some (network chat))))
    (unread_or_0 chat)
    (opt_or_else (type chat) (js "single"))
    (lastActivity chat).

(** The function from the collected [allChats] on. *)
Definition unreadChatsSummary (allChats : list ChatMatch)
  (serviceFilter : option jsstring) : UnreadSummary :=
  let unreadChats := filter (fun chat => 0 <? unread_or_0 chat) allChats in
  let unreadChats := summary_filter serviceFilter unreadChats in
  let unreadChats := array_sort by_unread_desc unreadChats in
  let totalUnreadCount :=
    fold_left (fun sum chat => sum + unread_or_0 chat) unreadChats 0 in
  mkUnreadSummary (length unreadChats) totalUnreadCount
                  (map to_summary unreadChats).

(** ** search-chats.tsx and open-chat.tsx: names shown for a chat *)

Record Participant : Type := mkParticipant {
  p_fullName : option jsstring;
  p_id : jsstring
}.

(** The part of a chat [getBestChatName] reads; [bn_participants] is
    [chat.participants?.items]. *)
Record NamedChat : Type := mkNamedChat {
  bn_title : jsstring;
  bn_type : jsstring;
  bn_participants : option (list Participant)
}.

(** The units of [s] before its first colon, when it has one. *)
Fixpoint span_colon (s : jsstring) : option jsstring :=
  match s with
  | [] => None
  | c :: r =>
      if ascii_dec c colon then Some []
      else match span_colon r with
           | Some run => Some (c :: run)
           | None => None
           end
  end.

(** [title.match(/@([^:]+):/)]: the first group of the leftmost match, an
    at sign followed by one unit or more up to a colon. *)
Fixpoint match_matrix_id (s : jsstring) : option jsstring :=
  match s with
  | [] => None
  | c :: r =>
      if ascii_dec c at_sign
      then match span_colon r with
           | Some (x :: run) => Some (x :: run)
           | _ => match_matrix_id r
           end
      else match_matrix_id r
  end.

(** [chat.participants?.items?.[0]?.fullName], when truthy. *)
Definition first_fullName (participants : option (list Participant))
  : option jsstring :=
  match participants with
  | Some (p :: _) =>
      match p_fullName p with
      | Some (c :: r) => Some (c :: r)
      | _ => None
      end
  | _ => None
  end.

Definition getBestChatName (chat0 : NamedChat) : jsstring :=
  let title0 := bn_title chat0 in
  let unchanged := or_else title0 (js "Unknown Chat") in
  match title0 with
  | [] => unchanged
  | _ :: _ =>
      if JsString.includes title0 [at_sign] && JsString.includes title0 [colon]
      then
        match (if JsString.eqb (bn_type chat0) (js "single")
               then first_fullName (bn_participants chat0) else None) with
        | Some fullName => fullName
        | None =>
            match match_matrix_id title0 with
            | Some group1 => group1
            | None => unchanged
            end
        end
      else unchanged
  end.

(** ** services/sendMessage.ts

    [getBeeperClient] is taken to have returned the client, and the
    client is what its calls return.  A cursor yields chats and then
    ends or throws. *)

Record ChatCursor : Type := mkChatCursor {
  yields : list ChatMatch;
  then_throws : option Thrown
}.

Record BeeperClient : Type := mkBeeperClient {
  (** [client.chats.search({ query, limit })] *)
  chats_search : jsstring -> nat -> Thrown + ChatCursor;
  (** [client.messages.send({ chatID, text })]: what it throws, if it
      does. *)
  messages_send : jsstring -> jsstring -> option Thrown;
  (** [client.app.open({ chatID })]: what it throws, if it does. *)
  app_open : jsstring -> option Thrown
}.

(** [for await (const chat of cursor) { all.push(chat); if (all.length >=
    cap) break; }]: the loop stops after [cap] chats, after one when [cap]
    is zero, without asking the cursor for more. *)
Definition drain (cap : nat) (cursor : ChatCursor) : Thrown + list ChatMatch :=
  let taken := Nat.max cap 1 in
  if taken <=? length (yields cursor)
  then inr (firstn taken (yields cursor))
  else match then_throws cursor with
       | Some e => inl e
       | None => inr (yields cursor)
       end.

(** The number of times that loop asks the cursor for its next chat: once
    for each chat taken, and once more when the cursor runs out, or
    throws, before [cap] chats. *)
Definition reads (cap : nat) (cursor : ChatCursor) : nat :=
  Nat.min (Nat.max cap 1) (S (length (yields cursor))).

Record SendMessageOptions : Type := mkSendMessageOptions {
  smo_chatId : option jsstring;
  smo_chatName : option jsstring;
  smo_service : option jsstring;
  smo_message : jsstring
}.

Record SendMessageResult : Type := mkSendMessageResult {
  smr_success : bool;
  smr_sentTo : option jsstring;
  smr_service : option ServiceValue;
  smr_error : option jsstring;
  smr_suggestions : option (list jsstring)
}.

(** [{ success: false, error }] *)
Definition send_failure (error : jsstring) : SendMessageResult :=
  mkSendMessageResult false None None (Some error) None.

(** The [catch] of the function. *)
Definition send_caught (e : Thrown) : SendMessageResult :=
  send_failure
    match e with
    | ThrownError message => message
    | ThrownOther => js "Failed to send message"
    end.

(** A string that is defined and not empty. *)
Definition truthy (s : option jsstring) : option jsstring :=
  match s with
  | Some (c :: r) => Some (c :: r)
  | _ => None
  end.

(** What the first half of the function leaves: a result already, or the
    values of [chatId], [chatName] and [chatService]. *)
Definition send_resolve (client : BeeperClient) (options : SendMessageOptions)
  : SendMessageResult
    + (option jsstring * option jsstring * ServiceValue) :=
  match truthy (smo_chatId options), truthy (smo_chatName options) with
  | None, Some chatName =>
      match chats_search client chatName 20 with
      | inl e => inl (send_caught e)
      | inr searchCursor =>
          match drain 20 searchCursor with
          | inl e => inl (send_caught e)
          | inr allMatches =>
              match rankChatMatches allMatches chatName
                      (Some (mkRankOptions (smo_service options)
                               (Some (Finite (Double.literal 0.4)))
                               (Some (Finite 5)))) with
              | inl e => inl (send_caught e)
              | inr [] =>
                  match rankChatMatches allMatches chatName
                          (Some (mkRankOptions None
                                   (Some (Finite (Double.literal 0.3)))
                                   (Some (Finite 3)))) with
                  | inl e => inl (send_caught e)
                  | inr allRanked =>
                      inl (mkSendMessageResult false None None
                             (Some (getSuggestionMessage chatName allRanked
                                      (smo_service options)))
                             (Some (map (fun m => title (chat m)) allRanked)))
                  end
              | inr (best :: _) =>
                  let bestMatch := chat best in
                  inr (Some (id bestMatch), Some (title bestMatch),
                       parseService (Some (network bestMatch)))
              end
          end
      end
  | _, _ => inr (smo_chatId options, None, Tag unknown)
  end.

(** The function: its result, and the calls of [client.messages.send] it
    made, as pairs of chat identifier and text. *)
Definition sendMessage (client : BeeperClient) (options : SendMessageOptions)
  : SendMessageResult * list (jsstring * jsstring) :=
  match send_resolve client options with
  | inl result => (result, [])
  | inr (chatId, chatName, chatService) =>
      match truthy chatId with
      | None => (send_failure (js "No chat ID or name provided"), [])
      | Some chatID =>
          let call := (chatID, smo_message options) in
          match messages_send client chatID (smo_message options) with
          | Some e => (send_caught e, [call])
          | None =>
              (mkSendMessageResult true
                 (Some (opt_or_else chatName chatID))
                 (Some chatService) None None,
               [call])
          end
      end
  end.

(** [best] is the first entry of highest score of [input]. *)
Definition stable_sort_head_of (input : list MatchResult) (best : MatchResult)
  : Prop :=
  (forall m, In m input -> (score m <= score best)%Q) /\
  exists before after,
    input = before ++ best :: after /\
    forall m, In m before -> (score m < score best)%Q.

(** ** services/openChat.ts

    Beside the client the function calls [closeMainWindow] and [open] of
    the host; what they throw is discarded by the function, so each call
    is given by whether it resolves.  [closeMainWindow] may be called
    twice: its outcome is given by the number of calls made before. *)

Record Host : Type := mkHost {
  closeMainWindow : nat -> bool;
  open_url : jsstring -> bool
}.

(** The calls the function makes on the client, on the search cursor and
    on the host, thrown or not, in order: [client.chats.search], the
    loop asking the cursor for its next chat, [client.app.open],
    [closeMainWindow], [console.error] and [open].  What the loop does to
    the cursor when it stops at 20 chats depends on the cursor having a
    [return] method, and is not recorded. *)
Inductive OpenEvent : Type :=
  | ChatsSearch (query : jsstring) (limit : nat)
  | CursorNext
  | AppOpen (chatID : jsstring)
  | CloseMainWindow
  | ConsoleError
  | OpenUrl (url : jsstring).

Record BeeperChat : Type := mkBeeperChat {
  bc_id : jsstring;
  bc_name : jsstring;
  bc_service : ServiceValue;
  bc_accountId : jsstring;
  bc_type : jsstring;
  bc_lastMessageAt : option jsstring;
  bc_unreadCount : option nat;
  bc_isMuted : option bool;
  bc_isArchived : option bool
}.

Record OpenChatOptions : Type := mkOpenChatOptions {
  oco_chatId : option jsstring;
  oco_chatName : option jsstring;
  oco_service : option jsstring
}.

Record OpenChatResult : Type := mkOpenChatResult {
  ocr_success : bool;
  ocr_chat : option BeeperChat;
  ocr_error : option jsstring;
  ocr_suggestions : option (list jsstring)
}.

Definition open_failure (error : jsstring) : OpenChatResult :=
  mkOpenChatResult false None (Some error) None.

(** The outer [catch]. *)
Definition open_caught (e : Thrown) : OpenChatResult :=
  open_failure
    match e with
    | ThrownError message => message
    | ThrownOther => js "Failed to open chat"
    end.

(** [foundChat] *)
Definition found_chat (bestMatch : ChatMatch) : BeeperChat :=
  mkBeeperChat
    (id bestMatch)
    (or_else (title bestMatch) (js "Unknown"))
    (parseService (Some (network bestMatch)))
    (opt_or_else (accountID bestMatch) [])
    (opt_or_else (type bestMatch) (js "single"))
    (lastActivity bestMatch)
    (unreadCount bestMatch)
    (isMuted bestMatch)
    (isArchived bestMatch).

(** Up to [if (!chatId)]: a result already, or [chatId] and [foundChat]. *)
Definition open_resolve (client : BeeperClient) (options : OpenChatOptions)
  : OpenChatResult + (option jsstring * option BeeperChat) :=
  match truthy (oco_chatId options), truthy (oco_chatName options) with
  | None, Some chatName =>
      match chats_search client chatName 20 with
      | inl e => inl (open_caught e)
      | inr searchCursor =>
          match drain 20 searchCursor with
          | inl e => inl (open_caught e)
          | inr allMatches =>
              match rankChatMatches allMatches chatName
                      (Some (mkRankOptions (oco_service options)
                               (Some (Finite (Double.literal 0.4)))
                               (Some (Finite 5)))) with
              | inl e => inl (open_caught e)
              | inr [] =>
                  match rankChatMatches allMatches chatName
                          (Some (mkRankOptions None
                                   (Some (Finite (Double.literal 0.3)))
                                   (Some (Finite 3)))) with
                  | inl e => inl (open_caught e)
                  | inr allRanked =>
                      inl (mkOpenChatResult false None
                             (Some (getSuggestionMessage chatName allRanked
                                      (oco_service options)))
                             (Some (map (fun m => title (chat m)) allRanked)))
                  end
              | inr (best :: _) =>
                  let bestMatch := chat best in
                  inr (Some (id bestMatch), Some (found_chat bestMatch))
              end
          end
      end
  | _, _ => inr (oco_chatId options, None)
  end.

(** The calls made up to there: none unless the chat is looked up by its
    name; then the search, and the reads of its cursor when the search
    returned one. *)
Definition search_events (client : BeeperClient) (options : OpenChatOptions)
  : list OpenEvent :=
  match truthy (oco_chatId options), truthy (oco_chatName options) with
  | None, Some chatName =>
      ChatsSearch chatName 20 ::
      match chats_search client chatName 20 with
      | inl _ => []
      | inr searchCursor => repeat CursorNext (reads 20 searchCursor)
      end
  | _, _ => []
  end.

(** The fall-back [open("beeper://")] then [closeMainWindow()], after
    [closed] calls of [closeMainWindow]: whether it went through, and
    the calls made. *)
Definition open_fallback (host : Host) (closed : nat) : bool * list OpenEvent :=
  if open_url host (js "beeper://")
  then (closeMainWindow host closed, [OpenUrl (js "beeper://"); CloseMainWindow])
  else (false, [OpenUrl (js "beeper://")]).

(** The inner [try]: whether the chat or the application was opened, and
    the calls made. *)
Definition open_in_desktop (client : BeeperClient) (host : Host)
  (chatID : jsstring) : bool * list OpenEvent :=
  match app_open client chatID with
  | None =>
      if closeMainWindow host 0
      then (true, [AppOpen chatID; CloseMainWindow])
      else
        let (ok, events) := open_fallback host 1 in
        (ok, [AppOpen chatID; CloseMainWindow; ConsoleError] ++ events)
  | Some _ =>
      let (ok, events) := open_fallback host 0 in
      (ok, [AppOpen chatID; ConsoleError] ++ events)
  end.

(** The function: its result and the calls it made. *)
Definition openChat (client : BeeperClient) (host : Host)
  (options : OpenChatOptions) : OpenChatResult * list OpenEvent :=
  let searched := search_events client options in
  match open_resolve client options with
  | inl result => (result, searched)
  | inr (chatId, foundChat) =>
      match truthy chatId with
      | None => (open_failure (js "No chat ID or name provided"), searched)
      | Some chatID =>
          let (ok, events) := open_in_desktop client host chatID in
          if ok
          then (mkOpenChatResult true foundChat None None,
                searched ++ events)
          else (open_failure (js "Could not open chat in Beeper Desktop"),
                searched ++ events)
      end
  end.

(** A client whose search yields [found] and then ends, and whose send
    never throws. *)
Definition quiet_client (found : list ChatMatch) : BeeperClient :=
  mkBeeperClient (fun _ _ => inr (mkChatCursor found None))
                 (fun _ _ => None) (fun _ => None).

(** A message the loop collects: unread, and not sent by the user. *)
Definition unread_from_others (msg : Message) : bool :=
  msg_isUnread msg && negb (msg_isSender msg).

(** The number of messages after which the loop stops collecting. *)
Definition collect_limit (unreadCount0 : nat) : nat :=
  Nat.min (Nat.max unreadCount0 1) 20.

(** The calls of [openChat] once the chat is known: the five ways the
    inner [try] and its fall-back can go. *)
Definition opening_calls (chatID : jsstring) : list (list OpenEvent) :=
  let beeper := OpenUrl (js "beeper://") in
  [ [AppOpen chatID; CloseMainWindow];
    [AppOpen chatID; ConsoleError; beeper];
    [AppOpen chatID; ConsoleError; beeper; CloseMainWindow];
    [AppOpen chatID; CloseMainWindow; ConsoleError; beeper];
    [AppOpen chatID; CloseMainWindow; ConsoleError; beeper; CloseMainWindow] ].

(** [a] may stand before [b] in a list sorted by descending unread
    count. *)
Definition unread_desc (a b : ChatMatch) : Prop :=
  unread_or_0 b <= unread_or_0 a.

(** * Proofs *)

(** ** The model on the examples of the source and of the specification *)

Example toLowerCase_example :
  JsString.toLowerCase (js "John SMITH") = js "john smith".
Proof. reflexivity. Qed.

Example trim_example : JsString.trim (js "  a b  ") = js "a b".
Proof. reflexivity. Qed.

Example split_two_words :
  JsString.split_ws (js "john  smith") = [js "john"; js "smith"].
Proof. reflexivity. Qed.

Example split_untrimmed :
  JsString.split_ws (js " a b ") = [[]; js "a"; js "b"; []].
Proof. reflexivity. Qed.

Example split_empty : JsString.split_ws [] = [[]].
Proof. reflexivity. Qed.

Example lev_kitten_sitting :
  levenshteinDistance (js "kitten") (js "sitting") = 3.
Proof. reflexivity. Qed.

Example lev_from_empty : levenshteinDistance [] (js "abc") = 3.
Proof. reflexivity. Qed.

Example similarity_mom :
  calculateSimilarity (js "mom") (js "Mom") = mkSimilarity (Double.literal 1.0) Exact.
Proof. reflexivity. Qed.

Example similarity_john :
  calculateSimilarity (js "John") (js "John Smith")
  = mkSimilarity (Double.literal 0.95) StartsWith.
Proof. reflexivity. Qed.

Example parseService_examples :
  parseService (Some (js "whatsapp_bridge")) = Tag whatsapp /\
  parseService (Some (js "g-messages")) = Tag googlemessages /\
  parseService (Some (js "Beeper")) = Tag matrix /\
  parseService (Some (js "x")) = Tag twitter /\
  parseService (Some (js "xmpp")) = Tag unknown.
Proof. repeat split. Qed.

(** The doubles of the literals of the source, as fractions. *)
Example literals :
  Double.literal 1.0 = 1%Q /\
  Double.literal 0.95 = (4278419646001971 # 4503599627370496)%Q /\
  Double.literal 0.85 = (7656119366529843 # 9007199254740992)%Q /\
  Double.literal 1.1 = (2476979795053773 # 2251799813685248)%Q /\
  Double.literal 0.4 = (3602879701896397 # 9007199254740992)%Q /\
  Double.literal 0.3 = (5404319552844595 # 18014398509481984)%Q.
Proof. repeat split; vm_compute; reflexivity. Qed.

(** Rounding shows: three edits on 22 units with the same first unit
    score [(1 - 3 / 22) * 1.1], which in doubles is 0.9500000000000001,
    above the double of 0.95; in exact arithmetic it would be 0.95. *)
Example rounding_shows :
  let q := js "abcdefghijklmnopqrsxyz" in
  let t := js "abcdefghijklmnopqrstuv" in
  levenshteinDistance q t = 3 /\
  calculateSimilarity q t
  = mkSimilarity (8556839292003943 # 9007199254740992) Fuzzy /\
  (Double.literal 0.95 < sim_score (calculateSimilarity q t))%Q /\
  ((1 - (3 # 22)) * (11 # 10) == 95 # 100)%Q.
Proof. cbv zeta. repeat split; vm_compute; reflexivity. Qed.

(** The scores of the fall-back are those of the Standard Library's
    specification of binary64 arithmetic, for the lengths up to 48. *)
Example scores_agree_with_binary64 : scores_agree_up_to 48 = true.
Proof. vm_compute. reflexivity. Qed.

(** The ranking example of the specification: [John Smith] first, and
    [Jon Smith] and [Family Group] under the default [minScore]. *)
Example rank_john :
  rankChatMatches
    [plain_chat (js "1") (js "John Smith") (js "whatsapp");
     plain_chat (js "2") (js "Jon Smith") (js "telegram");
     plain_chat (js "3") (js "Family Group") (js "signal")]
    (js "John") None
  = inr [mkMatchResult (plain_chat (js "1") (js "John Smith") (js "whatsapp"))
                       (Double.literal 0.95) StartsWith].
Proof. vm_compute. reflexivity. Qed.

(** Equal scores keep the order of the input. *)
Example rank_ties_keep_order :
  ranked_ids
    (rankChatMatches
       [plain_chat (js "1") (js "ann b") (js "whatsapp");
        plain_chat (js "2") (js "ann") (js "telegram");
        plain_chat (js "3") (js "ann c") (js "signal");
        plain_chat (js "4") (js "ann d") (js "signal")]
       (js "Ann") None)
  = inr [js "2"; js "1"; js "3"; js "4"].
Proof. vm_compute. reflexivity. Qed.

(** Scores that exact arithmetic would make equal are ordered by their
    doubles.  For the query [abcdef] the title [xxxdef] scores [1 - 3 / 6],
    which is 0.5, and the title [abcdexxxxxx] scores [(1 - 6 / 11) * 1.1],
    which in doubles is 0.5000000000000001: the second chat goes first. *)
Example rank_orders_by_doubles :
  let chats := [plain_chat (js "1") (js "xxxdef") (js "whatsapp");
                plain_chat (js "2") (js "abcdexxxxxx") (js "telegram")] in
  sim_score (calculateSimilarity (js "abcdef") (js "xxxdef")) = (1 # 2)%Q /\
  sim_score (calculateSimilarity (js "abcdef") (js "abcdexxxxxx"))
  = (4503599627370497 # 9007199254740992)%Q /\
  ((1 - (6 # 11)) * (11 # 10) == 1 # 2)%Q /\
  ranked_ids (rankChatMatches chats (js "abcdef") None)
  = inr [js "2"; js "1"].
Proof. cbv zeta. repeat split; vm_compute; reflexivity. Qed.

(** ** Strings *)

Section StringFacts.

Lemma eqb_true_iff (a b : jsstring) : JsString.eqb a b = true <-> a = b.
Proof.
  unfold JsString.eqb.
  destruct (list_eq_dec ascii_dec a b); split; congruence.
Qed.

Lemma eqb_false_iff (a b : jsstring) : JsString.eqb a b = false <-> a <> b.
Proof.
  unfold JsString.eqb.
  destruct (list_eq_dec ascii_dec a b); split; congruence.
Qed.

Lemma eqb_refl (a : jsstring) : JsString.eqb a a = true.
Proof. now apply eqb_true_iff. Qed.

Lemma lower_unit_idem (c : ascii) :
  JsString.lower_unit (JsString.lower_unit c) = JsString.lower_unit c.
Proof. destruct c as [[] [] [] [] [] [] [] []]; reflexivity. Qed.

Lemma is_space_lower_unit (c : ascii) :
  JsString.is_space (JsString.lower_unit c) = JsString.is_space c.
Proof. destruct c as [[] [] [] [] [] [] [] []]; reflexivity. Qed.

Lemma toLowerCase_idem (s : jsstring) :
  JsString.toLowerCase (JsString.toLowerCase s) = JsString.toLowerCase s.
Proof.
  unfold JsString.toLowerCase. rewrite map_map.
  apply map_ext. exact lower_unit_idem.
Qed.

Lemma startsWith_iff (s q : jsstring) :
  JsString.startsWith s q = true <-> exists r, s = q ++ r.
Proof.
  revert s; induction q as [|cq q IH]; intros s.
  - split; [intros _; now exists s | now destruct s].
  - destruct s as [|cs s]; simpl.
    + split; [discriminate | intros [r Hr]; discriminate].
    + destruct (ascii_dec cs cq) as [->|Hne].
      * rewrite IH. split; intros [r Hr]; exists r.
        -- now rewrite Hr.
        -- now injection Hr.
      * split; [discriminate | intros [r Hr]; injection Hr; congruence].
Qed.

Lemma includes_iff (s q : jsstring) :
  JsString.includes s q = true <-> exists l r, s = l ++ q ++ r.
Proof.
  induction s as [|c s IH]; cbn [JsString.includes].
  - rewrite orb_false_r, startsWith_iff. split.
    + intros [r Hr]. now exists [], r.
    + intros [l [r Hr]]. destruct l; [now exists r|discriminate].
  - rewrite orb_true_iff, startsWith_iff, IH. split.
    + intros [[r Hr] | [l [r Hr]]].
      * now exists [], r.
      * exists (c :: l), r. now rewrite Hr.
    + intros [l [r Hr]]. destruct l as [|c' l].
      * left. now exists r.
      * right. exists l, r. now injection Hr.
Qed.

(** Every piece [split] returns is cut out of the string. *)
Lemma split_ws_from_substring (s : jsstring) :
  forall in_sep cur w,
    In w (JsString.split_ws_from in_sep cur s) ->
    exists l r, rev cur ++ s = l ++ w ++ r.
Proof.
  induction s as [|c s IH]; intros in_sep cur w; simpl.
  - intros [<-|[]]. exists [], []. now rewrite !app_nil_r.
  - destruct (JsString.is_space c).
    + assert (Hrest : In w (JsString.split_ws_from true [] s) ->
                      exists l r, rev cur ++ c :: s = l ++ w ++ r).
      { intros Hin. destruct (IH _ _ _ Hin) as [l [r E]]. simpl in E.
        exists (rev cur ++ c :: l), r. rewrite E.
        now rewrite <- app_assoc. }
      destruct in_sep; [exact Hrest|].
      intros [<-|Hin]; [|now apply Hrest].
      now exists [], (c :: s).
    + intros Hin. destruct (IH _ _ _ Hin) as [l [r E]].
      exists l, r. rewrite <- E. simpl. now rewrite <- app_assoc.
Qed.

Lemma split_ws_includes (t w : jsstring) :
  In w (JsString.split_ws t) -> JsString.includes t w = true.
Proof.
  intros Hin. apply includes_iff.
  exact (split_ws_from_substring _ _ _ _ Hin).
Qed.

(** A token that is the query or starts with it puts the query inside
    the target. *)
Lemma word_loop_includes (q t : jsstring) (words : list jsstring) :
  (forall w, In w words -> JsString.includes t w = true) ->
  word_loop q words <> None -> JsString.includes t q = true.
Proof.
  induction words as [|w words IH]; simpl; intros Hsub Hsome.
  - congruence.
  - assert (Hw : JsString.includes t w = true) by (apply Hsub; now left).
    destruct (JsString.eqb w q) eqn:Eeq.
    + apply eqb_true_iff in Eeq. now subst.
    + destruct (JsString.startsWith w q) eqn:Esw.
      * apply includes_iff in Hw. destruct Hw as [l [r Hw]].
        apply startsWith_iff in Esw. destruct Esw as [r' ->].
        apply includes_iff. exists l, (r' ++ r).
        now rewrite Hw, <- app_assoc.
      * apply IH; [|assumption]. intros w' Hw'. apply Hsub. now right.
Qed.

Lemma word_loop_unreachable (q t : jsstring) :
  JsString.includes t q = false -> word_loop q (JsString.split_ws t) = None.
Proof.
  intros Hno.
  destruct (word_loop q (JsString.split_ws t)) eqn:E; [|reflexivity].
  assert (H : JsString.includes t q = true).
  { apply word_loop_includes with (words := JsString.split_ws t).
    - intros w. apply split_ws_includes.
    - congruence. }
  congruence.
Qed.

End StringFacts.

(** ** Arrays and loops *)

Section ArrayFacts.

Context {A : Type}.

Lemma length_array_set (hole : A) (l : list A) (i : nat) (v : A) :
  length (array_set hole l i v) = Nat.max (length l) (S i).
Proof.
  revert l; induction i as [|i IH]; intros [|x l]; simpl;
    try rewrite IH; simpl; lia.
Qed.

Lemma nth_array_set (hole : A) (l : list A) (i : nat) (v : A) (k : nat)
  (d : A) :
  i <= length l ->
  nth k (array_set hole l i v) d = if k =? i then v else nth k l d.
Proof.
  revert l k; induction i as [|i IH]; intros [|x l] k Hle; simpl in *.
  - destruct k as [|[|k]]; reflexivity.
  - destruct k; reflexivity.
  - lia.
  - destruct k as [|k]; [reflexivity|]. apply IH. lia.
Qed.

Lemma array_set_push (hole : A) (l : list A) (v : A) :
  array_set hole l (length l) v = l ++ [v].
Proof. induction l as [|x l IH]; simpl; [reflexivity | now rewrite IH]. Qed.

Lemma nth_map_seq {B : Type} (f : nat -> B) (n : nat) :
  forall lo i d, i < n -> nth i (map f (seq lo n)) d = f (lo + i).
Proof.
  induction n as [|n IH]; intros lo i d Hi; [lia|].
  destruct i as [|i]; simpl.
  - now rewrite Nat.add_0_r.
  - rewrite IH by lia. f_equal. lia.
Qed.

End ArrayFacts.

(** The invariant rule of the counting loop. *)
Lemma for_loop_inv {St : Type} (P : nat -> St -> Prop) (body : St -> nat -> St)
  (n : nat) :
  forall lo s,
    P lo s ->
    (forall k s', lo <= k < lo + n -> P k s' -> P (S k) (body s' k)) ->
    P (lo + n) (for_loop lo n body s).
Proof.
  unfold for_loop.
  induction n as [|n IH]; intros lo s H0 Hstep; simpl.
  - now rewrite Nat.add_0_r.
  - rewrite <- Nat.add_succ_comm. apply IH.
    + apply Hstep; [lia | assumption].
    + intros k s' Hk. apply Hstep. lia.
Qed.

(** ** The matrix of levenshteinDistance *)

Section LevenshteinMatrix.

Variables a b : jsstring.

Lemma nth_set_cell (m : matrix_t) (i j v i' : nat) :
  i < length m ->
  nth i' (set_cell m i j v) [] =
  if i' =? i then array_set 0 (nth i m []) j v else nth i' m [].
Proof. intros Hi. unfold set_cell. apply nth_array_set. lia. Qed.

Lemma length_set_cell (m : matrix_t) (i j v : nat) :
  i < length m -> length (set_cell m i j v) = length m.
Proof. intros Hi. unfold set_cell. rewrite length_array_set. lia. Qed.

Lemma cell_set_cell (m : matrix_t) (i j v i' j' : nat) :
  i < length m -> j <= length (nth i m []) ->
  cell (set_cell m i j v) i' j' =
  if (i' =? i) && (j' =? j) then v else cell m i' j'.
Proof.
  intros Hi Hj. unfold cell. rewrite nth_set_cell by assumption.
  destruct (i' =? i) eqn:Ei; simpl; [|reflexivity].
  apply Nat.eqb_eq in Ei; subst i'.
  now apply nth_array_set.
Qed.

Lemma lev_rec_nil_r (x : jsstring) : lev_rec x [] = length x.
Proof. destruct x; reflexivity. Qed.

Lemma lev_rec_nil_l (y : jsstring) : lev_rec [] y = length y.
Proof. destruct y; reflexivity. Qed.

Lemma lev_cell_0_l (j : nat) : j <= length a -> lev_cell a b 0 j = j.
Proof.
  intros Hj. unfold lev_cell. cbn [firstn rev].
  rewrite lev_rec_nil_l, length_rev, length_firstn. lia.
Qed.

Lemma lev_cell_0_r (i : nat) : i <= length b -> lev_cell a b i 0 = i.
Proof.
  intros Hi. unfold lev_cell. cbn [firstn rev].
  rewrite lev_rec_nil_r, length_rev, length_firstn. lia.
Qed.

Lemma rev_firstn_S (s : jsstring) (i : nat) (c : ascii) :
  nth_error s i = Some c ->
  rev (firstn (S i) s) = c :: rev (firstn i s).
Proof.
  revert i; induction s as [|x s IH]; intros [|i] H; simpl in *;
    try discriminate.
  - now injection H as ->.
  - rewrite (IH _ H). reflexivity.
Qed.

Lemma charAt_inside (s : jsstring) (i : nat) :
  i < length s -> exists c, nth_error s i = Some c /\ charAt s i = [c].
Proof.
  intros Hi. unfold charAt.
  destruct (nth_error s i) as [c|] eqn:E.
  - now exists c.
  - apply nth_error_None in E. lia.
Qed.

(** The recurrence, on the cells. *)
Lemma lev_cell_S (i j : nat) :
  i < length b -> j < length a ->
  lev_cell a b (S i) (S j) =
  if JsString.eqb (charAt b i) (charAt a j)
  then lev_cell a b i j
  else min3 (lev_cell a b i j + 1)
            (lev_cell a b (S i) j + 1)
            (lev_cell a b i (S j) + 1).
Proof.
  intros Hi Hj.
  destruct (charAt_inside b Hi) as [cb [Eb ->]].
  destruct (charAt_inside a Hj) as [ca [Ea ->]].
  unfold lev_cell.
  rewrite (rev_firstn_S _ _ Eb), (rev_firstn_S _ _ Ea).
  cbn [lev_rec].
  destruct (ascii_dec cb ca) as [->|Hne].
  - now rewrite eqb_refl.
  - destruct (JsString.eqb [cb] [ca]) eqn:E.
    + apply eqb_true_iff in E. congruence.
    + reflexivity.
Qed.

End LevenshteinMatrix.

Section LevenshteinLoops.

Variables a b : jsstring.

Lemma lev_init_rows_eq :
  lev_init_rows b [] = [0] :: (lev_first_cells b).
Proof.
  change ([0] :: (lev_first_cells b))
    with (map (fun i => [i]) (seq 0 (0 + S (length b)))).
  unfold lev_init_rows.
  apply (for_loop_inv (fun k m => m = map (fun i => [i]) (seq 0 k))).
  - reflexivity.
  - intros k m _ ->.
    rewrite seq_S, map_app. simpl.
    rewrite <- array_set_push with (hole := @nil nat).
    now rewrite length_map, length_seq.
Qed.

Lemma lev_init_cols_eq :
  lev_init_cols a ([0] :: (lev_first_cells b)) = seq 0 (S (length a)) :: (lev_first_cells b).
Proof.
  unfold lev_init_cols.
  replace (S (length a)) with (Nat.max (0 + S (length a)) 1) at 2 by lia.
  apply (for_loop_inv
           (fun k m => m = seq 0 (Nat.max k 1) :: (lev_first_cells b))).
  - reflexivity.
  - intros k m _ ->. unfold set_cell. cbn [nth array_set].
    destruct k as [|k]; [reflexivity|].
    replace (Nat.max (S k) 1) with (S k) by lia.
    replace (Nat.max (S (S k)) 1) with (S (S k)) by lia.
    rewrite (seq_S (S k)). simpl Nat.add.
    rewrite <- array_set_push with (hole := 0).
    now rewrite length_seq.
Qed.

Lemma nth_first_cells (i : nat) :
  0 < i <= length b -> nth i ([0] :: (lev_first_cells b)) [] = [i]
                       /\ nth (i - 1) (lev_first_cells b) [] = [i].
Proof.
  intros Hi. destruct i as [|i]; [lia|].
  cbn [nth]. replace (S i - 1) with i by lia.
  unfold lev_first_cells. rewrite nth_map_seq by lia. auto.
Qed.

Lemma rows_ok_init :
  rows_ok a b 0 (S (length a)) (lev_init_cols a (lev_init_rows b [])).
Proof.
  rewrite lev_init_rows_eq, lev_init_cols_eq.
  assert (Hrow0 : nth 0 (seq 0 (S (length a)) :: (lev_first_cells b)) []
                  = seq 0 (S (length a))) by reflexivity.
  assert (Hrows : forall i', 0 < i' <= length b ->
             nth i' (seq 0 (S (length a)) :: (lev_first_cells b)) [] = [i']).
  { intros i' Hi'. destruct (nth_first_cells Hi') as [_ E].
    destruct i' as [|i']; [lia|]. cbn [nth].
    now replace (S i' - 1) with i' in E by lia. }
  unfold rows_ok. repeat split.
  - simpl. unfold lev_first_cells. now rewrite length_map, length_seq.
  - intros i' Hi'. lia.
  - rewrite Hrow0. now rewrite length_seq.
  - intros i' Hi'. now rewrite Hrows.
  - intros i' j' Hi' Hj'. unfold cell.
    destruct (Nat.eq_dec i' 0) as [->|Hpos].
    + rewrite Hrow0 in *. rewrite length_seq in Hj'.
      rewrite seq_nth by lia. rewrite lev_cell_0_l by lia. reflexivity.
    + rewrite Hrows in * by lia.
      simpl in Hj'. assert (j' = 0) by lia. subst j'.
      simpl. now rewrite lev_cell_0_r.
Qed.

(** One assignment [matrix[i][j] = ...] of the inner loop. *)
Lemma rows_ok_cell_step (i j : nat) (m : matrix_t) :
  1 <= i <= length b -> 1 <= j <= length a ->
  rows_ok a b i j m -> rows_ok a b i (S j) (lev_cell_step a b i m j).
Proof.
  intros Hi Hj (Hlen & Habove & Hrow & Hbelow & Hcells).
  destruct i as [|i0]; [lia|]. destruct j as [|j0]; [lia|].
  set (i := S i0) in *. set (j := S j0) in *.
  assert (Ediag : cell m i0 j0 = lev_cell a b i0 j0).
  { apply Hcells; [lia|]. rewrite Habove; subst i; lia. }
  assert (Eleft : cell m i j0 = lev_cell a b i j0).
  { apply Hcells; [lia|]. rewrite Hrow. subst j; lia. }
  assert (Eup : cell m i0 j = lev_cell a b i0 j).
  { apply Hcells; [lia|]. rewrite Habove; subst i; lia. }
  assert (Estep : lev_cell_step a b i m j = set_cell m i j (lev_cell a b i j)).
  { unfold lev_cell_step.
    replace (i - 1) with i0 by (subst i; lia).
    replace (j - 1) with j0 by (subst j; lia).
    subst i j. rewrite lev_cell_S by lia.
    destruct (JsString.eqb (charAt b i0) (charAt a j0)); congruence. }
  rewrite Estep. clear Estep.
  assert (Him : i < length m) by lia.
  unfold rows_ok. repeat split.
  - now rewrite length_set_cell.
  - intros i' Hi'. rewrite nth_set_cell by assumption.
    destruct (Nat.eqb_spec i' i); [lia|]. now apply Habove.
  - rewrite nth_set_cell, Nat.eqb_refl by assumption.
    rewrite length_array_set. lia.
  - intros i' Hi'. rewrite nth_set_cell by assumption.
    destruct (Nat.eqb_spec i' i); [lia|]. now apply Hbelow.
  - intros i' j' Hi' Hj'.
    rewrite cell_set_cell by lia.
    rewrite nth_set_cell in Hj' by assumption.
    destruct (Nat.eqb_spec i' i) as [->|Hne]; simpl.
    + rewrite length_array_set in Hj'.
      destruct (Nat.eqb_spec j' j) as [->|Hnej]; [reflexivity|].
      apply Hcells; lia.
    + now apply Hcells.
Qed.

(** The inner loop writes the rest of row [i]. *)
Lemma rows_ok_row (i : nat) (m : matrix_t) :
  1 <= i <= length b ->
  rows_ok a b i 1 m ->
  rows_ok a b i (S (length a))
    (for_loop 1 (length a) (lev_cell_step a b i) m).
Proof.
  intros Hi H.
  change (S (length a)) with (1 + length a).
  apply (for_loop_inv (fun k m' => rows_ok a b i k m')); [assumption|].
  intros k m' Hk. apply rows_ok_cell_step; lia.
Qed.

(** A complete row [i] with untouched rows below is row [i + 1] with its
    first cell. *)
Lemma rows_ok_next (i : nat) (m : matrix_t) :
  S i <= length b ->
  rows_ok a b i (S (length a)) m -> rows_ok a b (S i) 1 m.
Proof.
  intros Hi (Hlen & Habove & Hrow & Hbelow & Hcells).
  unfold rows_ok. repeat split; try assumption.
  - intros i' Hi'. destruct (Nat.eq_dec i' i) as [->|]; [assumption|].
    apply Habove. lia.
  - apply Hbelow. lia.
  - intros i' Hi'. apply Hbelow. lia.
Qed.

Lemma rows_ok_fill (m : matrix_t) :
  rows_ok a b 0 (S (length a)) m ->
  rows_ok a b (length b) (S (length a)) (lev_fill a b m).
Proof.
  intros H. unfold lev_fill.
  replace (length b) with (1 + length b - 1) at 1 by lia.
  apply (for_loop_inv (fun k m' => rows_ok a b (k - 1) (S (length a)) m')).
  - exact H.
  - intros k m' Hk Hm'.
    replace (S k - 1) with k by lia.
    apply rows_ok_row; [lia|].
    replace k with (S (k - 1)) at 1 by lia.
    apply rows_ok_next; [lia | assumption].
Qed.

(** The value returned is the one the recurrence gives on the whole
    strings. *)
Lemma levenshteinDistance_lev_rec :
  levenshteinDistance a b = lev_rec (rev b) (rev a).
Proof.
  unfold levenshteinDistance.
  destruct (rows_ok_fill rows_ok_init) as (_ & _ & Hrow & _ & Hcells).
  rewrite Hcells by lia.
  unfold lev_cell. now rewrite !firstn_all.
Qed.

End LevenshteinLoops.

(** ** The recurrence: symmetry, bounds, and edit scripts *)

Section LevenshteinRecurrence.

Lemma lev_rec_cons (cx cy : ascii) (x y : jsstring) :
  lev_rec (cx :: x) (cy :: y) =
  if ascii_dec cx cy then lev_rec x y
  else min3 (lev_rec x y + 1) (lev_rec (cx :: x) y + 1)
            (lev_rec x (cy :: y) + 1).
Proof. reflexivity. Qed.

Lemma min3_swap (p q r : nat) : min3 p q r = min3 p r q.
Proof. unfold min3. lia. Qed.

Lemma lev_rec_sym (x y : jsstring) : lev_rec x y = lev_rec y x.
Proof.
  revert y; induction x as [|cx x IHx]; intros y.
  - now rewrite lev_rec_nil_l, lev_rec_nil_r.
  - induction y as [|cy y IHy].
    + now rewrite lev_rec_nil_l, lev_rec_nil_r.
    + rewrite !lev_rec_cons.
      destruct (ascii_dec cx cy) as [->|Hne].
      * destruct (ascii_dec cy cy); [apply IHx | congruence].
      * destruct (ascii_dec cy cx); [congruence|].
        rewrite min3_swap. now rewrite IHy, (IHx y), (IHx (cy :: y)).
Qed.

Lemma lev_rec_le_max (x y : jsstring) :
  lev_rec x y <= Nat.max (length x) (length y).
Proof.
  revert y; induction x as [|cx x IHx]; intros y.
  - rewrite lev_rec_nil_l. lia.
  - destruct y as [|cy y].
    + rewrite lev_rec_nil_r. lia.
    + rewrite lev_rec_cons. specialize (IHx y).
      destruct (ascii_dec cx cy); unfold min3; simpl; lia.
Qed.

Lemma lev_rec_diag (x : jsstring) : lev_rec x x = 0.
Proof.
  induction x as [|c x IH]; [reflexivity|].
  rewrite lev_rec_cons. now destruct (ascii_dec c c).
Qed.

Lemma lev_rec_pos (x y : jsstring) : x <> y -> 1 <= lev_rec x y.
Proof.
  revert y; induction x as [|cx x IHx]; intros y Hne.
  - rewrite lev_rec_nil_l. destruct y; [congruence | simpl; lia].
  - destruct y as [|cy y]; [simpl; lia|].
    rewrite lev_rec_cons.
    destruct (ascii_dec cx cy) as [->|Hc].
    + apply IHx. congruence.
    + unfold min3. lia.
Qed.

(** One more unit at the head of the second string moves the value by
    one at most, either way. *)
Lemma lev_rec_head_step (k : nat) :
  forall x y d, length x + length y <= k ->
    lev_rec x (d :: y) <= lev_rec x y + 1 /\
    lev_rec x y <= lev_rec x (d :: y) + 1.
Proof.
  induction k as [k IH] using lt_wf_ind.
  intros x y d Hk.
  destruct x as [|c x].
  - rewrite !lev_rec_nil_l. simpl. lia.
  - rewrite lev_rec_cons.
    assert (Hx : forall e, lev_rec (e :: x) y <= lev_rec x y + 1 /\
                           lev_rec x y <= lev_rec (e :: x) y + 1).
    { intros e. rewrite (lev_rec_sym (e :: x) y), (lev_rec_sym x y).
      apply (IH (length y + length x)); simpl in *; lia. }
    assert (Hy : lev_rec x (d :: y) <= lev_rec x y + 1 /\
                 lev_rec x y <= lev_rec x (d :: y) + 1).
    { apply (IH (length x + length y)); simpl in *; lia. }
    specialize (Hx c).
    destruct (ascii_dec c d); unfold min3; lia.
Qed.

Lemma lev_rec_insert (x y : jsstring) (d : ascii) :
  lev_rec x (d :: y) <= lev_rec x y + 1.
Proof. now apply (lev_rec_head_step (k := length x + length y)). Qed.

Lemma lev_rec_delete (x y : jsstring) (c : ascii) :
  lev_rec (c :: x) y <= lev_rec x y + 1.
Proof.
  rewrite (lev_rec_sym (c :: x)), (lev_rec_sym x). apply lev_rec_insert.
Qed.

Lemma lev_rec_substitute (x y : jsstring) (c d : ascii) :
  lev_rec (c :: x) (d :: y) <= lev_rec x y + 1.
Proof.
  rewrite lev_rec_cons.
  destruct (ascii_dec c d); unfold min3; lia.
Qed.

(** No script is cheaper than the recurrence. *)
Lemma lev_rec_lower (x y : jsstring) (n : nat) :
  edit_cost x y n -> lev_rec x y <= n.
Proof.
  induction 1 as [|c x y n _ IH|c d x y n _ IH|c x y n _ IH|d x y n _ IH].
  - reflexivity.
  - rewrite lev_rec_cons. now destruct (ascii_dec c c).
  - pose proof (lev_rec_substitute x y c d). lia.
  - pose proof (lev_rec_delete x y c). lia.
  - pose proof (lev_rec_insert x y d). lia.
Qed.

Lemma edit_cost_insert_all (y : jsstring) : edit_cost [] y (length y).
Proof. induction y; simpl; now constructor. Qed.

Lemma edit_cost_delete_all (x : jsstring) : edit_cost x [] (length x).
Proof. induction x; simpl; now constructor. Qed.

(** The recurrence is the cost of a script. *)
Lemma lev_rec_script (x y : jsstring) : edit_cost x y (lev_rec x y).
Proof.
  revert y; induction x as [|cx x IHx]; intros y.
  - rewrite lev_rec_nil_l. apply edit_cost_insert_all.
  - induction y as [|cy y IHy].
    + rewrite lev_rec_nil_r. apply edit_cost_delete_all.
    + rewrite lev_rec_cons.
      destruct (ascii_dec cx cy) as [->|Hne].
      * apply edit_keep, IHx.
      * unfold min3.
        destruct (Nat.min_spec (lev_rec (cx :: x) y + 1)
                               (lev_rec x (cy :: y) + 1)) as [[_ E]|[_ E]];
          rewrite E; clear E.
        -- destruct (Nat.min_spec (lev_rec x y + 1)
                                  (lev_rec (cx :: x) y + 1))
             as [[_ E]|[_ E]]; rewrite E, Nat.add_1_r.
           ++ apply edit_substitute, IHx.
           ++ apply edit_insert, IHy.
        -- destruct (Nat.min_spec (lev_rec x y + 1)
                                  (lev_rec x (cy :: y) + 1))
             as [[_ E]|[_ E]]; rewrite E, Nat.add_1_r.
           ++ apply edit_substitute, IHx.
           ++ apply edit_delete, IHx.
Qed.

Lemma edit_cost_app (x y x' y' : jsstring) (n n' : nat) :
  edit_cost x y n -> edit_cost x' y' n' ->
  edit_cost (x ++ x') (y ++ y') (n + n').
Proof.
  intros H H'. induction H; simpl; try (constructor; assumption).
  assumption.
Qed.

Lemma edit_cost_rev (x y : jsstring) (n : nat) :
  edit_cost x y n -> edit_cost (rev x) (rev y) n.
Proof.
  induction 1 as [|c x y n _ IH|c d x y n _ IH|c x y n _ IH|d x y n _ IH];
    simpl.
  - constructor.
  - rewrite <- (Nat.add_0_r n).
    apply edit_cost_app; [assumption | repeat constructor].
  - rewrite <- Nat.add_1_r.
    apply edit_cost_app; [assumption | repeat constructor].
  - rewrite <- Nat.add_1_r, <- (app_nil_r (rev y)).
    apply edit_cost_app; [assumption | repeat constructor].
  - rewrite <- Nat.add_1_r, <- (app_nil_r (rev x)).
    apply edit_cost_app; [assumption | repeat constructor].
Qed.

Lemma lev_rec_is_edit_distance (x y : jsstring) :
  is_edit_distance x y (lev_rec x y).
Proof. split; [apply lev_rec_script | intros n; apply lev_rec_lower]. Qed.

End LevenshteinRecurrence.

(** ** levenshteinDistance *)

Section LevenshteinDistance.

Lemma levenshteinDistance_le_max (a b : jsstring) :
  levenshteinDistance a b <= Nat.max (length a) (length b).
Proof.
  rewrite levenshteinDistance_lev_rec.
  pose proof (lev_rec_le_max (rev b) (rev a)) as H.
  rewrite !length_rev in H. lia.
Qed.

Lemma levenshteinDistance_is_edit_distance (a b : jsstring) :
  is_edit_distance a b (levenshteinDistance a b).
Proof.
  rewrite levenshteinDistance_lev_rec, lev_rec_sym.
  destruct (lev_rec_is_edit_distance (rev a) (rev b)) as [Hs Hmin].
  split.
  - apply edit_cost_rev in Hs. now rewrite !rev_involutive in Hs.
  - intros n Hn. apply Hmin. now apply edit_cost_rev.
Qed.

Lemma levenshteinDistance_pos (a b : jsstring) :
  a <> b -> 1 <= levenshteinDistance a b.
Proof.
  intros Hne. rewrite levenshteinDistance_lev_rec.
  apply lev_rec_pos. intros E. apply Hne.
  apply (f_equal (@rev ascii)) in E. now rewrite !rev_involutive in E.
Qed.

End LevenshteinDistance.

(** ** parseService *)

Section ParseService.

Lemma entries_agree_spec related m :
  entries_agree related m = true ->
  forall k1 v1 k2 v2,
    In (k1, v1) m -> In (k2, v2) m -> related k1 k2 = true -> v1 = v2.
Proof.
  unfold entries_agree. intros H k1 v1 k2 v2 H1 H2 Hr.
  rewrite forallb_forall in H. specialize (H _ H1).
  rewrite forallb_forall in H. specialize (H _ H2). simpl in H.
  rewrite Hr in H. simpl in H.
  now destruct (BeeperService_eq_dec v1 v2).
Qed.

(** No key of the table occurs twice. *)
Lemma serviceMap_functional k v1 v2 :
  In (k, v1) serviceMap -> In (k, v2) serviceMap -> v1 = v2.
Proof.
  intros H1 H2.
  apply (@entries_agree_spec JsString.eqb serviceMap) with (k1 := k) (k2 := k);
    [vm_compute; reflexivity | assumption | assumption | apply eqb_refl].
Qed.

(** A key that starts another key has the same tag ([android] and
    [androidsms], [beeper] and [beeper (matrix)]). *)
Lemma serviceMap_prefix_closed k1 v1 k2 v2 :
  In (k1, v1) serviceMap -> In (k2, v2) serviceMap ->
  JsString.startsWith k2 k1 = true -> v1 = v2.
Proof.
  intros H1 H2 Hp.
  apply (@entries_agree_spec (fun x y => JsString.startsWith y x) serviceMap)
    with (k1 := k1) (k2 := k2);
    [vm_compute; reflexivity | assumption | assumption | assumption].
Qed.

Lemma map_get_Some {V} (m : list (jsstring * V)) key v :
  map_get m key = Some v -> In (key, v) m.
Proof.
  induction m as [|[k w] m IH]; simpl; [discriminate|].
  destruct (JsString.eqb k key) eqn:E.
  - apply eqb_true_iff in E. intros [= ->]. left. now subst.
  - intros H. right. now apply IH.
Qed.

Lemma map_get_None {V} (m : list (jsstring * V)) key :
  map_get m key = None -> forall v, ~ In (key, v) m.
Proof.
  induction m as [|[k w] m IH]; simpl; intros H v; [tauto|].
  destruct (JsString.eqb k key) eqn:E; [discriminate|].
  apply eqb_false_iff in E.
  intros [[= -> ->]|Hin]; [congruence | exact (IH H v Hin)].
Qed.

Lemma prefix_loop_Some normalized entries v :
  prefix_loop normalized entries = Some v ->
  exists k, In (k, v) entries /\ 3 <= length k /\
            JsString.startsWith normalized k = true.
Proof.
  induction entries as [|[k w] entries IH]; cbn [prefix_loop];
    [discriminate|].
  destruct ((3 <=? length k) && JsString.startsWith normalized k) eqn:E.
  - intros [= ->]. apply andb_true_iff in E. destruct E as [E1 E2].
    apply Nat.leb_le in E1. exists k. repeat split; [now left | auto..].
  - intros H. destruct (IH H) as [k' [Hin Hk']]. exists k'.
    split; [now right | assumption].
Qed.

Lemma prefix_loop_None normalized entries :
  prefix_loop normalized entries = None ->
  forall k v, In (k, v) entries -> 3 <= length k ->
              JsString.startsWith normalized k = false.
Proof.
  induction entries as [|[k w] entries IH]; cbn [prefix_loop In];
    intros H k' v' Hin Hlen; [tauto|].
  destruct ((3 <=? length k) && JsString.startsWith normalized k) eqn:E;
    [discriminate|].
  destruct Hin as [[= -> ->]|Hin].
  - apply andb_false_iff in E. destruct E as [E|E]; [|assumption].
    apply Nat.leb_gt in E. lia.
  - now apply (IH H k' v').
Qed.

(** Among the keys that start a string there is a longest one. *)
Lemma longest_key_exists normalized (entries : list (jsstring * BeeperService)) :
  forall k v,
    In (k, v) entries -> 3 <= length k ->
    JsString.startsWith normalized k = true ->
    exists k0 v0,
      In (k0, v0) entries /\ 3 <= length k0 /\
      JsString.startsWith normalized k0 = true /\
      forall k' v', In (k', v') entries -> 3 <= length k' ->
                    JsString.startsWith normalized k' = true ->
                    length k' <= length k0.
Proof.
  induction entries as [|[k1 v1] entries IH]; intros k v Hin Hlen Hsw;
    [destruct Hin|].
  destruct (prefix_loop normalized entries) as [w|] eqn:Erest.
  - destruct (prefix_loop_Some _ _ Erest) as [kr [Hr [Hr3 Hrsw]]].
    destruct (IH _ _ Hr Hr3 Hrsw) as [k0 [v0 (H0 & H03 & H0sw & H0max)]].
    destruct ((3 <=? length k1) && JsString.startsWith normalized k1
              && (length k0 <? length k1)) eqn:E.
    + apply andb_true_iff in E. destruct E as [E E3].
      apply andb_true_iff in E. destruct E as [E1 E2].
      apply Nat.leb_le in E1. apply Nat.ltb_lt in E3.
      exists k1, v1. repeat split; [now left | assumption | assumption |].
      intros k' v' [[= <- <-]|Hin'] H3 Hsw'; [lia|].
      specialize (H0max _ _ Hin' H3 Hsw'). lia.
    + exists k0, v0. repeat split; [now right | assumption | assumption |].
      intros k' v' [[= <- <-]|Hin'] H3 Hsw'; [|now apply (H0max k' v')].
      apply Nat.leb_le in H3. rewrite H3, Hsw' in E. simpl in E.
      apply Nat.ltb_ge in E. exact E.
  - pose proof (prefix_loop_None _ _ Erest) as Hnone.
    destruct Hin as [[= -> ->]|Hin].
    + exists k, v. repeat split; [now left | assumption | assumption |].
      intros k' v' [[= <- <-]|Hin'] H3 Hsw'; [lia|].
      rewrite (Hnone _ _ Hin' H3) in Hsw'. discriminate.
    + rewrite (Hnone _ _ Hin Hlen) in Hsw. discriminate.
Qed.

(** Of two strings that start the same string, the shorter starts the
    longer. *)
Lemma startsWith_chain (s k1 k2 : jsstring) :
  JsString.startsWith s k1 = true -> JsString.startsWith s k2 = true ->
  length k1 <= length k2 -> JsString.startsWith k2 k1 = true.
Proof.
  revert s k2; induction k1 as [|c k1 IH]; intros s k2 H1 H2 Hlen.
  - now destruct k2.
  - destruct k2 as [|c2 k2]; [simpl in Hlen; lia|].
    destruct s as [|cs s]; [discriminate|]. simpl in *.
    destruct (ascii_dec cs c) as [->|]; [|discriminate].
    destruct (ascii_dec c c2) as [->|]; [|discriminate].
    destruct (ascii_dec c2 c2); [|congruence].
    apply (IH s); [assumption | assumption | lia].
Qed.

Lemma own_key_tag_sound (serviceString : option jsstring) :
  parseService_rel serviceString (own_key_tag serviceString).
Proof.
  destruct serviceString as [[|c s]|];
    [apply ps_empty | | apply ps_undefined].
  set (str := c :: s).
  assert (Hne : str <> []) by discriminate.
  unfold own_key_tag. fold str.
  destruct (map_get serviceMap (JsString.toLowerCase str)) as [v|] eqn:Eget.
  - apply ps_exact; [assumption|]. now apply map_get_Some.
  - pose proof (map_get_None _ _ Eget) as Hnokey.
    destruct (prefix_loop (JsString.toLowerCase str) serviceMap) as [v|] eqn:Ep.
    + destruct (prefix_loop_Some _ _ Ep) as [k [Hin [H3 Hsw]]].
      destruct (longest_key_exists _ _ _ _ Hin H3 Hsw)
        as [k0 [v0 (H0 & H03 & H0sw & H0max)]].
      assert (v = v0).
      { apply serviceMap_prefix_closed with (k1 := k) (k2 := k0);
          try assumption.
        apply startsWith_chain with (s := JsString.toLowerCase str);
          try assumption.
        now apply (H0max k v). }
      subst v0. now apply (ps_longest_prefix (k := k0)).
    + apply ps_no_key; [assumption | assumption |].
      now apply prefix_loop_None.
Qed.

Lemma parseService_rel_functional serviceString v1 v2 :
  parseService_rel serviceString v1 -> parseService_rel serviceString v2 ->
  v1 = v2.
Proof.
  intros H1 H2.
  destruct H1 as [| |s v1 Hne1 Hin1|s k1 v1 Hne1 Hno1 Hin1 H31 Hsw1 Hmax1
                 |s Hne1 Hno1 Hnone1];
    inversion H2 as [| |s' v' Hne2 Hin2|s' k2 v' Hne2 Hno2 Hin2 H32 Hsw2 Hmax2
                    |s' Hne2 Hno2 Hnone2]; subst; try reflexivity;
    try congruence.
  - exact (serviceMap_functional Hin1 Hin2).
  - exfalso. exact (Hno2 _ Hin1).
  - exfalso. exact (Hno2 _ Hin1).
  - exfalso. exact (Hno1 _ Hin2).
  - apply serviceMap_prefix_closed with (k1 := k1) (k2 := k2);
      try assumption.
    apply startsWith_chain with (s := JsString.toLowerCase s);
      try assumption.
    now apply (Hmax2 k1 v1).
  - rewrite (Hnone2 _ _ Hin1 H31) in Hsw1. discriminate.
  - exfalso. exact (Hno1 _ Hin2).
  - rewrite (Hnone1 _ _ Hin2 H32) in Hsw2. discriminate.
Qed.

(** A lower-cased string is none of the inherited names that hold a
    capital. *)
Lemma lowered_is_not (s k : jsstring) :
  JsString.toLowerCase k <> k ->
  JsString.eqb (JsString.toLowerCase s) k = false.
Proof.
  intros Hk. apply eqb_false_iff. intros E. apply Hk.
  now rewrite <- E, toLowerCase_idem.
Qed.

Lemma lowered_inherited (s : jsstring) :
  existsb (JsString.eqb (JsString.toLowerCase s)) object_prototype_names
  = inherited_name s.
Proof.
  unfold inherited_name, object_prototype_names. cbn [existsb].
  rewrite !(@lowered_is_not s (js "hasOwnProperty")),
          !(@lowered_is_not s (js "isPrototypeOf")),
          !(@lowered_is_not s (js "propertyIsEnumerable")),
          !(@lowered_is_not s (js "toLocaleString")),
          !(@lowered_is_not s (js "toString")),
          !(@lowered_is_not s (js "valueOf")),
          !(@lowered_is_not s (js "__defineGetter__")),
          !(@lowered_is_not s (js "__defineSetter__")),
          !(@lowered_is_not s (js "__lookupGetter__")),
          !(@lowered_is_not s (js "__lookupSetter__"))
    by (vm_compute; discriminate).
  now rewrite !orb_false_r.
Qed.

(** On an inherited name [parseService] returns the inherited member. *)
Lemma parseService_inherited (s : jsstring) :
  inherited_name s = true ->
  parseService (Some s) = Inherited (JsString.toLowerCase s).
Proof.
  intros H. unfold parseService.
  destruct s as [|c s]; [discriminate H|].
  unfold property_get. rewrite lowered_inherited, H.
  unfold inherited_name in H. apply orb_true_iff in H.
  destruct H as [H|H]; apply eqb_true_iff in H; rewrite H; reflexivity.
Qed.

(** On every other string it returns the tag the own keys give. *)
Lemma parseService_own (s : jsstring) :
  inherited_name s = false ->
  parseService (Some s) = Tag (own_key_tag (Some s)).
Proof.
  intros H. unfold parseService, own_key_tag.
  destruct s as [|c s]; [reflexivity|].
  unfold property_get. rewrite lowered_inherited, H.
  destruct (map_get serviceMap (JsString.toLowerCase (c :: s)));
    [reflexivity|].
  now destruct (prefix_loop (JsString.toLowerCase (c :: s)) serviceMap).
Qed.

Lemma parseService_cases (s : jsstring) :
  parseService (Some s) =
  if inherited_name s then Inherited (JsString.toLowerCase s)
  else Tag (own_key_tag (Some s)).
Proof.
  destruct (inherited_name s) eqn:E;
    [now apply parseService_inherited | now apply parseService_own].
Qed.

End ParseService.

(** ** Rounding to the nearest double *)

Section DoubleFacts.

Import Double.
Local Open Scope Q_scope.

Lemma pow2_pos (e : Z) : 0 < pow2 e.
Proof. apply Qpower_0_lt. reflexivity. Qed.

Lemma pow2_nat (e : Z) : (0 <= e)%Z -> pow2 e == inject_Z (2 ^ e).
Proof. intros H. unfold pow2. now rewrite Zpower_Qpower. Qed.

Lemma pow2_inverse (e : Z) : pow2 (- e) * pow2 e == 1.
Proof.
  unfold pow2. rewrite <- Qpower_plus by discriminate.
  now replace (- e + e)%Z with 0%Z by lia.
Qed.

Lemma nearest_even_bounds (x : Q) :
  (Qfloor x <= nearest_even x <= Qfloor x + 1)%Z.
Proof.
  unfold nearest_even.
  destruct (x - inject_Z (Qfloor x) ?= 1 # 2); try lia.
  destruct (Z.even (Qfloor x)); lia.
Qed.

Lemma nearest_even_le (x : Q) (n : Z) : x <= inject_Z n -> (nearest_even x <= n)%Z.
Proof.
  intros H. pose proof (nearest_even_bounds x) as [_ Hub].
  pose proof (Qfloor_resp_le _ _ H) as Hf. rewrite Qfloor_Z in Hf.
  destruct (Z.eq_dec (Qfloor x) n) as [E|Hne]; [|lia].
  unfold nearest_even. rewrite E.
  assert (Hlt : (x - inject_Z n ?= 1 # 2) = Lt) by (apply (proj1 (Qlt_alt _ _)); lra).
  rewrite Hlt. lia.
Qed.

Lemma nearest_even_ge (x : Q) (n : Z) : inject_Z n <= x -> (n <= nearest_even x)%Z.
Proof.
  intros H. pose proof (nearest_even_bounds x) as [Hlb _].
  pose proof (Qfloor_resp_le _ _ H) as Hf. rewrite Qfloor_Z in Hf. lia.
Qed.

Lemma exponent_le (x : Q) : ~ x == 0 -> pow2 (exponent x) <= Qabs x.
Proof.
  intros Hx. unfold exponent.
  set (a := Z.log2 (Z.abs (Qnum x))). set (b := Z.log2 (Zpos (Qden x))).
  destruct (Qle_bool (pow2 (a - b)) (Qabs x)) eqn:E; [now apply Qle_bool_iff|].
  assert (Hn : (0 < Z.abs (Qnum x))%Z).
  { destruct x as [n d]. unfold Qeq in Hx. simpl in *. lia. }
  destruct (Z.log2_spec _ Hn) as [Ha _]. fold a in Ha.
  destruct (Z.log2_spec (Zpos (Qden x)) ltac:(lia)) as [_ Hb]. fold b in Hb.
  assert (Ha0 : (0 <= a)%Z) by apply Z.log2_nonneg.
  assert (Hb0 : (0 <= b)%Z) by apply Z.log2_nonneg.
  replace (a - b - 1)%Z with (a - (b + 1))%Z by lia.
  unfold pow2. rewrite Qpower_minus by discriminate.
  fold (pow2 a) (pow2 (b + 1)).
  rewrite (pow2_nat Ha0), (pow2_nat (e := b + 1)) by lia.
  replace (Z.succ b) with (b + 1)%Z in Hb by lia.
  assert (Hq : Qabs x == inject_Z (Z.abs (Qnum x)) / inject_Z (Zpos (Qden x))).
  { destruct x as [n d]. simpl. now rewrite Qmake_Qdiv. }
  rewrite Hq.
  assert (H1 : inject_Z (2 ^ a) <= inject_Z (Z.abs (Qnum x)))
    by (rewrite <- Zle_Qle; exact Ha).
  assert (H2 : inject_Z (Zpos (Qden x)) <= inject_Z (2 ^ (b + 1)))
    by (rewrite <- Zle_Qle; lia).
  assert (H3 : 0 < inject_Z (Zpos (Qden x)))
    by (change 0 with (inject_Z 0); rewrite <- Zlt_Qlt; lia).
  assert (H4 : 0 < inject_Z (2 ^ a)).
  { change 0 with (inject_Z 0). rewrite <- Zlt_Qlt. apply Z.pow_pos_nonneg; lia. }
  apply Qle_shift_div_r; [lra|].
  unfold Qdiv. rewrite <- Qmult_assoc, (Qmult_comm (/ _)), Qmult_assoc.
  apply Qle_shift_div_l; [assumption|].
  nra.
Qed.

Lemma round_nonzero_pos (x : Q) : 0 < x -> 0 < round_nonzero x.
Proof.
  intros Hx. unfold round_nonzero.
  set (e := (exponent x - 52)%Z).
  assert (Hne : ~ x == 0) by (intros E; rewrite E in Hx; discriminate).
  pose proof (exponent_le Hne) as Hexp. rewrite Qabs_pos in Hexp by lra.
  assert (Hy : inject_Z 1 <= x * pow2 (- e)).
  { assert (E : pow2 (exponent x) * pow2 (- e) == pow2 52).
    { unfold pow2. rewrite <- Qpower_plus by discriminate.
      now replace (exponent x + - e)%Z with 52%Z by lia. }
    assert (H52 : inject_Z 1 <= pow2 52) by (vm_compute; discriminate).
    pose proof (pow2_pos (- e)). nra. }
  apply nearest_even_ge in Hy.
  pose proof (pow2_pos e).
  assert (0 < inject_Z (nearest_even (x * pow2 (- e)))).
  { change 0 with (inject_Z 0). rewrite <- Zlt_Qlt. lia. }
  nra.
Qed.

Lemma round_nonzero_neg (x : Q) : x <= 0 -> round_nonzero x <= 0.
Proof.
  intros Hx. unfold round_nonzero.
  set (e := (exponent x - 52)%Z).
  assert (Hy : x * pow2 (- e) <= inject_Z 0).
  { pose proof (pow2_pos (- e)). change (inject_Z 0) with 0. nra. }
  apply nearest_even_le in Hy.
  pose proof (pow2_pos e).
  assert (inject_Z (nearest_even (x * pow2 (- e))) <= 0).
  { change 0 with (inject_Z 0). rewrite <- Zle_Qle. lia. }
  nra.
Qed.

Lemma round_nonzero_le_1 (x : Q) : 0 < x -> x <= 1 -> round_nonzero x <= 1.
Proof.
  intros Hx H1. unfold round_nonzero.
  set (e := (exponent x - 52)%Z).
  assert (Hne : ~ x == 0) by (intros E; rewrite E in Hx; discriminate).
  pose proof (exponent_le Hne) as Hexp. rewrite Qabs_pos in Hexp by lra.
  assert (HE : (exponent x <= 0)%Z).
  { apply Qpower_le_compat_l_inv with (q := 2); [|reflexivity].
    change (2 ^ 0) with 1. fold (pow2 (exponent x)). lra. }
  assert (He : (0 <= - e)%Z) by lia.
  assert (Hy : x * pow2 (- e) <= inject_Z (2 ^ (- e))).
  { rewrite <- (pow2_nat He). pose proof (pow2_pos (- e)). nra. }
  apply nearest_even_le in Hy.
  rewrite Zle_Qle in Hy. rewrite <- (pow2_nat He) in Hy.
  pose proof (pow2_pos e). pose proof (pow2_inverse e).
  nra.
Qed.

Lemma fl_compat (x y : Q) : x == y -> fl x = fl y.
Proof. intros H. unfold fl. now rewrite (Qred_complete _ _ H). Qed.

Lemma fl_sign (x : Q) : (0 < x -> 0 < fl x) /\ (x <= 0 -> fl x <= 0).
Proof.
  unfold fl. pose proof (Qred_correct x) as Hr.
  destruct (Qeq_bool (Qred x) 0) eqn:E.
  - apply Qeq_bool_iff in E. split; intros H; lra.
  - rewrite Qred_correct. split; intros H.
    + apply round_nonzero_pos. lra.
    + apply round_nonzero_neg. lra.
Qed.

Lemma fl_le_1 (x : Q) : x <= 1 -> fl x <= 1.
Proof.
  intros H. destruct (Qlt_le_dec 0 x) as [Hpos|Hneg].
  - unfold fl. pose proof (Qred_correct x) as Hr.
    destruct (Qeq_bool (Qred x) 0); [lra|].
    rewrite Qred_correct. apply round_nonzero_le_1; lra.
  - pose proof (proj2 (fl_sign x) Hneg). lra.
Qed.

Lemma fl_nonneg (x : Q) : 0 <= x -> 0 <= fl x.
Proof.
  intros H. destruct (Qlt_le_dec 0 x) as [Hpos|Hneg].
  - apply Qlt_le_weak. now apply fl_sign.
  - assert (E : x == 0) by lra. now rewrite (fl_compat E).
Qed.

(** A double has the sign of the number it rounds: the comparison
    function of a sort, [b.score - a.score], orders as the scores do. *)
Lemma fl_le_0 (x : Q) : fl x <= 0 <-> x <= 0.
Proof.
  split; intros H; [|now apply fl_sign].
  destruct (Qlt_le_dec 0 x) as [Hpos|Hneg]; [|assumption].
  apply fl_sign in Hpos. lra.
Qed.

Lemma fl_unit_interval (x : Q) : 0 <= x <= 1 -> 0 <= fl x <= 1.
Proof. intros [H0 H1]. split; [now apply fl_nonneg | now apply fl_le_1]. Qed.

End DoubleFacts.

(** ** calculateSimilarity *)

Section CalculateSimilarity.

Opaque Double.fl.

Lemma includes_refl (t : jsstring) : JsString.includes t t = true.
Proof. apply includes_iff. exists [], []. now rewrite app_nil_r. Qed.

Lemma includes_nil (t : jsstring) : JsString.includes t [] = true.
Proof. apply includes_iff. now exists [], t. Qed.

(** The ladder without its word rung: once the query is not inside the
    target no token can hold it, and the loop over the tokens runs out. *)
Lemma calculateSimilarity_ladder (query target : jsstring) :
  let q := normalize query in
  let t := normalize target in
  calculateSimilarity query target =
  if JsString.eqb q t then mkSimilarity (Double.literal 1.0) Exact
  else if JsString.startsWith t q then mkSimilarity (Double.literal 0.95) StartsWith
  else if JsString.includes t q then mkSimilarity (Double.literal 0.85) Contains
  else fuzzy_fallback q t.
Proof.
  intros q t. unfold calculateSimilarity. fold q t.
  destruct (JsString.eqb q t); [reflexivity|].
  destruct (JsString.startsWith t q); [reflexivity|].
  destruct (JsString.includes t q) eqn:E; [reflexivity|].
  now rewrite word_loop_unreachable.
Qed.

Lemma unit_opt_eqb_same (q t : jsstring) :
  q <> [] ->
  JsString.unit_opt_eqb (JsString.at0 q) (JsString.at0 t) = true <->
  same_first_unit q t.
Proof.
  intros Hq. unfold same_first_unit.
  destruct q as [|cq q]; [congruence|].
  destruct t as [|ct t]; simpl.
  - split; [discriminate | intros (c & q' & t' & _ & E); discriminate].
  - destruct (ascii_dec cq ct) as [->|Hne].
    + split; [intros _; now exists ct, q, t | reflexivity].
    + split; [discriminate|].
      intros (c & q' & t' & E1 & E2). congruence.
Qed.

(** The fall-back on strings of which one at least is not empty. *)
Lemma fuzzy_fallback_nonempty (q t : jsstring) :
  q <> [] \/ t <> [] ->
  fuzzy_fallback q t =
  let d := levenshteinDistance q t in
  let maxLen := Nat.max (length q) (length t) in
  mkSimilarity
    (if JsString.unit_opt_eqb (JsString.at0 q) (JsString.at0 t)
     then boosted_score d maxLen else plain_score d maxLen)
    Fuzzy.
Proof.
  intros Hne. unfold fuzzy_fallback.
  destruct (Nat.eqb_spec (Nat.max (length q) (length t)) 0) as [E|_];
    [|reflexivity].
  destruct q, t; simpl in E; try lia. destruct Hne; congruence.
Qed.

Lemma num_pos (n : nat) : 0 < n -> (0 < num n)%Q.
Proof.
  intros H. unfold num. change 0%Q with (inject_Z 0).
  rewrite <- Zlt_Qlt. lia.
Qed.

Lemma num_le (n m : nat) : n <= m -> (num n <= num m)%Q.
Proof. intros H. unfold num. rewrite <- Zle_Qle. lia. Qed.

Lemma num_nonneg (n : nat) : (0 <= num n)%Q.
Proof. change 0%Q with (num 0). apply num_le. lia. Qed.

(** Rounding keeps the quotient of a distance by a length that is not
    smaller, and its complement to 1, between 0 and 1. *)
Lemma plain_score_range (d maxLen : nat) :
  0 < maxLen -> d <= maxLen -> (0 <= plain_score d maxLen <= 1)%Q.
Proof.
  intros Hm Hd. unfold plain_score, Double.sub, Double.div.
  pose proof (num_pos Hm) as Hpos.
  assert (H0 : (0 <= num d / num maxLen)%Q).
  { apply Qle_shift_div_l; [assumption|].
    rewrite Qmult_0_l. apply num_nonneg. }
  assert (H1 : (num d / num maxLen <= 1)%Q).
  { apply Qle_shift_div_r; [assumption|].
    rewrite Qmult_1_l. now apply num_le. }
  destruct (fl_unit_interval (conj H0 H1)) as [Hr0 Hr1].
  apply fl_unit_interval. split; lra.
Qed.

Lemma boosted_score_range (d maxLen : nat) :
  0 < maxLen -> d <= maxLen -> (0 <= boosted_score d maxLen <= 1)%Q.
Proof.
  intros Hm Hd. unfold boosted_score, Double.mul.
  destruct (plain_score_range Hm Hd) as [H0 H1].
  split.
  - apply Q.min_glb; [lra|]. apply fl_nonneg.
    assert (Hlit : (0 <= Double.literal 1.1)%Q) by (vm_compute; discriminate).
    nra.
  - apply Q.le_min_l.
Qed.

(** The literals of the ladder, in order. *)
Lemma literal_1 : Double.literal 1.0 = 1%Q.
Proof. vm_compute. reflexivity. Qed.

Lemma literals_in_order :
  (0 <= Double.literal 0.85)%Q /\
  (Double.literal 0.85 <= Double.literal 0.95)%Q /\
  (Double.literal 0.95 <= 1)%Q.
Proof. repeat split; vm_compute; discriminate. Qed.

Lemma fuzzy_fallback_range (q t : jsstring) :
  (0 <= sim_score (fuzzy_fallback q t) <= 1)%Q.
Proof.
  unfold fuzzy_fallback.
  destruct (Nat.eqb_spec (Nat.max (length q) (length t)) 0) as [E|Hne].
  - cbn [sim_score]. rewrite literal_1. split; lra.
  - assert (Hm : 0 < Nat.max (length q) (length t)) by lia.
    pose proof (levenshteinDistance_le_max q t) as Hd.
    fold (plain_score (levenshteinDistance q t)
                      (Nat.max (length q) (length t))).
    fold (boosted_score (levenshteinDistance q t)
                        (Nat.max (length q) (length t))).
    destruct (JsString.unit_opt_eqb _ _); simpl.
    + now apply boosted_score_range.
    + now apply plain_score_range.
Qed.

(** What a call returns, by match type. *)
Lemma calculateSimilarity_cases (query target : jsstring) :
  let r := calculateSimilarity query target in
  (sim_matchType r = Exact /\ sim_score r = 1%Q) \/
  (sim_matchType r = StartsWith /\ sim_score r = Double.literal 0.95) \/
  (sim_matchType r = Contains /\ sim_score r = Double.literal 0.85) \/
  (sim_matchType r = Fuzzy /\ (0 <= sim_score r <= 1)%Q).
Proof.
  intros r. subst r. rewrite calculateSimilarity_ladder.
  set (q := normalize query). set (t := normalize target).
  destruct (JsString.eqb q t) eqn:Eeq;
    [left; split; [reflexivity | apply literal_1]|].
  destruct (JsString.startsWith t q); [right; left; split; reflexivity|].
  destruct (JsString.includes t q) eqn:Einc;
    [right; right; left; split; reflexivity|].
  right; right; right.
  assert (Hq : q <> []).
  { intros ->. now rewrite includes_nil in Einc. }
  split; [|apply fuzzy_fallback_range].
  rewrite fuzzy_fallback_nonempty by now left. reflexivity.
Qed.

(** The checked division of the fall-back never sees a zero. *)
Lemma fuzzy_fallback_checked_total (q t : jsstring) :
  fuzzy_fallback_checked q t = Some (fuzzy_fallback q t).
Proof.
  unfold fuzzy_fallback_checked, fuzzy_fallback.
  destruct (Nat.eqb_spec (Nat.max (length q) (length t)) 0) as [E|Hne];
    [reflexivity|].
  unfold checked_div.
  destruct (Qeq_bool (num (Nat.max (length q) (length t))) 0) eqn:Ez;
    [|reflexivity].
  apply Qeq_bool_iff in Ez.
  assert (Hpos : (0 < num (Nat.max (length q) (length t)))%Q)
    by (apply num_pos; lia).
  rewrite Ez in Hpos. now apply Qlt_irrefl in Hpos.
Qed.

Lemma calculateSimilarity_checked_total (query target : jsstring) :
  calculateSimilarity_checked query target
  = Some (calculateSimilarity query target).
Proof.
  unfold calculateSimilarity_checked, calculateSimilarity.
  destruct (JsString.eqb _ _); [reflexivity|].
  destruct (JsString.startsWith _ _); [reflexivity|].
  destruct (JsString.includes _ _); [reflexivity|].
  destruct (word_loop _ _); [reflexivity|].
  apply fuzzy_fallback_checked_total.
Qed.

Transparent Double.fl.

End CalculateSimilarity.

(** ** Sorting by descending score *)

Section SortByScore.

Lemma compareFn_le (x y : MatchResult) :
  Qle_bool (by_score_desc x y) 0 = true <-> score_desc x y.
Proof.
  unfold by_score_desc, score_desc, Double.sub.
  rewrite Qle_bool_iff, fl_le_0.
  split; intros H; lra.
Qed.

Lemma sort_insert_perm (x : MatchResult) (l : list MatchResult) :
  Permutation (x :: l) (sort_insert by_score_desc x l).
Proof.
  induction l as [|y l IH]; simpl; [reflexivity|].
  destruct (Qle_bool (by_score_desc x y) 0); [reflexivity|].
  rewrite perm_swap. now apply perm_skip.
Qed.

Lemma sort_insert_sorted (x : MatchResult) (l : list MatchResult) :
  StronglySorted score_desc l ->
  StronglySorted score_desc (sort_insert by_score_desc x l).
Proof.
  induction 1 as [|y l Hl IH Hy]; simpl.
  - repeat constructor.
  - destruct (Qle_bool (by_score_desc x y) 0) eqn:E.
    + apply compareFn_le in E.
      constructor; [now constructor|].
      constructor; [assumption|].
      rewrite Forall_forall in *. intros z Hz. specialize (Hy z Hz).
      unfold score_desc in *. lra.
    + constructor; [assumption|].
      assert (Hxy : score_desc y x).
      { destruct (Qlt_le_dec (score x) (score y)) as [Hlt|Hle].
        - unfold score_desc. lra.
        - apply compareFn_le in Hle. congruence. }
      rewrite Forall_forall in *. intros z Hz.
      apply (Permutation_in z (Permutation_sym (sort_insert_perm x l))) in Hz.
      destruct Hz as [<-|Hz]; [assumption | now apply Hy].
Qed.

(** An entry is moved past entries of strictly higher score only. *)
Lemma sort_insert_stable (x : MatchResult) (l : list MatchResult) (v : Q) :
  filter (has_score v) (sort_insert by_score_desc x l)
  = filter (has_score v) (x :: l).
Proof.
  induction l as [|y l IH]; [reflexivity|].
  cbn [sort_insert].
  destruct (Qle_bool (by_score_desc x y) 0) eqn:E; [reflexivity|].
  cbn [filter] in *. rewrite IH.
  destruct (has_score v x) eqn:Ex; [|reflexivity].
  destruct (has_score v y) eqn:Ey; [|reflexivity].
  unfold has_score in *. apply Qeq_bool_iff in Ex, Ey.
  assert (Hle : score_desc x y) by (unfold score_desc; lra).
  apply compareFn_le in Hle. congruence.
Qed.

Lemma array_sort_stable_sort (l : list MatchResult) :
  stable_sort_of l (array_sort by_score_desc l).
Proof.
  unfold stable_sort_of, array_sort.
  induction l as [|x l (Hperm & Hsorted & Hstable)]; simpl.
  - repeat split; constructor.
  - repeat split.
    + rewrite <- sort_insert_perm. now apply perm_skip.
    + now apply sort_insert_sorted.
    + intros v. rewrite sort_insert_stable. cbn [filter].
      now rewrite Hstable.
Qed.

Lemma has_score_refl (m : MatchResult) : has_score (score m) m = true.
Proof. unfold has_score. apply Qeq_bool_iff. reflexivity. Qed.

Lemma filter_all_nil (l : list MatchResult) :
  (forall v, filter (has_score v) l = []) -> l = [].
Proof.
  destruct l as [|m l]; [reflexivity|]. intros H.
  specialize (H (score m)). cbn [filter] in H.
  rewrite has_score_refl in H. discriminate.
Qed.

Lemma in_filter_has_score (m : MatchResult) (l : list MatchResult) :
  In m l -> In m (filter (has_score (score m)) l).
Proof. intros H. apply filter_In. split; [assumption | apply has_score_refl]. Qed.

(** Two lists in descending order that hold, for every score, the same
    entries in the same order are the same list. *)
Lemma stable_sorted_unique (l1 : list MatchResult) :
  forall l2,
    StronglySorted score_desc l1 -> StronglySorted score_desc l2 ->
    (forall v, filter (has_score v) l1 = filter (has_score v) l2) ->
    l1 = l2.
Proof.
  induction l1 as [|a l1 IH]; intros l2 H1 H2 Hf.
  - symmetry. apply filter_all_nil. intros v. now rewrite <- Hf.
  - destruct l2 as [|b l2].
    + apply filter_all_nil. intros v. now rewrite Hf.
    + inversion H1 as [|? ? Hs1 Ha]; inversion H2 as [|? ? Hs2 Hb]; subst.
      rewrite Forall_forall in Ha, Hb.
      assert (Hab : score_desc b a).
      { assert (Hin : In a (b :: l2)).
        { assert (Hin : In a (filter (has_score (score a)) (a :: l1)))
            by (apply in_filter_has_score; now left).
          rewrite Hf in Hin. now apply filter_In in Hin. }
        destruct Hin as [->|Hin]; [unfold score_desc; lra | now apply Hb]. }
      assert (Hba : score_desc a b).
      { assert (Hin : In b (a :: l1)).
        { assert (Hin : In b (filter (has_score (score b)) (b :: l2)))
            by (apply in_filter_has_score; now left).
          rewrite <- Hf in Hin. now apply filter_In in Hin. }
        destruct Hin as [->|Hin]; [unfold score_desc; lra | now apply Ha]. }
      assert (Heq : (score a == score b)%Q)
        by (unfold score_desc in *; lra).
      assert (Ehead : a = b).
      { pose proof (Hf (score a)) as E. cbn [filter] in E.
        rewrite has_score_refl in E.
        assert (Eb : has_score (score a) b = true).
        { unfold has_score. apply Qeq_bool_iff. now symmetry. }
        rewrite Eb in E. now injection E. }
      subst b. f_equal. apply IH; try assumption.
      intros v. specialize (Hf v). cbn [filter] in Hf.
      destruct (has_score v a); [now injection Hf | assumption].
Qed.

Lemma stable_sort_of_unique (input l1 l2 : list MatchResult) :
  stable_sort_of input l1 -> stable_sort_of input l2 -> l1 = l2.
Proof.
  intros (_ & Hs1 & Hf1) (_ & Hs2 & Hf2).
  apply stable_sorted_unique; try assumption.
  intros v. now rewrite Hf1, Hf2.
Qed.

Lemma firstn_sorted (n : nat) (l : list MatchResult) :
  StronglySorted score_desc l -> StronglySorted score_desc (firstn n l).
Proof.
  intros H. revert n. induction H as [|x l Hl IH Hx]; intros [|n]; simpl;
    try constructor.
  - apply IH.
  - rewrite Forall_forall in *. intros y Hy. apply Hx.
    rewrite <- (firstn_skipn n l). apply in_or_app. now left.
Qed.

End SortByScore.

(** ** rankChatMatches *)

Section RankChatMatches.

Lemma service_name_lower (tag : BeeperService) :
  JsString.toLowerCase (service_name tag) = service_name tag.
Proof. destruct tag; reflexivity. Qed.

Lemma service_name_inj (x y : BeeperService) :
  service_name x = service_name y -> x = y.
Proof. destruct x, y; intros H; try reflexivity; discriminate H. Qed.

Lemma tag_name_not_inherited (s : jsstring) (tag : BeeperService) :
  JsString.toLowerCase s = service_name tag -> inherited_name s = false.
Proof. intros E. unfold inherited_name. rewrite E. now destruct tag. Qed.

(** A string that lower-cases to the name of a tag normalises to that
    tag. *)
Lemma parseService_of_tag_name (s : jsstring) (tag : BeeperService) :
  s <> [] -> JsString.toLowerCase s = service_name tag ->
  parseService (Some s) = Tag tag.
Proof.
  intros Hne E.
  rewrite parseService_own by exact (tag_name_not_inherited _ _ E).
  f_equal. unfold own_key_tag.
  destruct s as [|c s]; [congruence|].
  rewrite E. destruct tag; reflexivity.
Qed.

Lemma parseService_tagged (s : jsstring) (tag : BeeperService) :
  parseService (Some s) = Tag tag -> inherited_name s = false.
Proof.
  rewrite parseService_cases.
  destruct (inherited_name s); [discriminate | reflexivity].
Qed.

(** The filter throws on the first inherited name, and otherwise keeps the
    chats whose tag is, as a string, the lower-cased filter. *)
Lemma service_prefilter_spec (svc : option jsstring) (chats : list ChatMatch) :
  service_prefilter svc chats =
  if filter_throws svc chats then inl not_a_function
  else inr (retained svc chats).
Proof.
  unfold service_prefilter, filter_throws, retained.
  destruct svc as [[|c0 s]|]; try reflexivity.
  set (target := JsString.toLowerCase (c0 :: s)).
  induction chats as [|c chats IH]; [reflexivity|].
  cbn [array_filter existsb filter]. unfold has_tag_named at 1.
  rewrite parseService_cases.
  destruct (inherited_name (network c)) eqn:E; cbn [orb]; [reflexivity|].
  rewrite IH. destruct (existsb _ chats); [reflexivity|].
  now rewrite service_name_lower.
Qed.

Lemma filter_defined_iff (svc : option jsstring) (chats : list ChatMatch) :
  filter_defined svc chats <-> filter_throws svc chats = false.
Proof.
  unfold filter_defined, filter_throws.
  destruct svc as [[|c0 s]|]; try tauto.
  split.
  - intros H. destruct (existsb _ chats) eqn:E; [|reflexivity].
    apply existsb_exists in E. destruct E as (c & Hc & Ec).
    rewrite (H c Hc) in Ec. discriminate.
  - intros H c Hc.
    destruct (inherited_name (network c)) eqn:E; [|reflexivity].
    assert (Ex : existsb (fun c => inherited_name (network c)) chats = true)
      by (apply existsb_exists; now exists c).
    congruence.
Qed.

Lemma retained_incl (svc : option jsstring) (chats : list ChatMatch)
  (c : ChatMatch) :
  In c (retained svc chats) -> In c chats.
Proof.
  unfold retained. destruct svc as [[|c0 s]|]; try tauto.
  intros H. now apply filter_In in H.
Qed.

Lemma number_ge_iff (x : Q) (y : jsnumber) :
  number_ge x y = true <-> reaches x y.
Proof.
  unfold number_ge, reaches.
  destruct y; try (split; [discriminate | tauto]); try tauto.
  apply Qle_bool_iff.
Qed.

(** The call, with its options spelled out. *)
Lemma rank_spec (chats : list ChatMatch) (query : jsstring)
  (svc : option jsstring) (ms mr : option jsnumber) :
  rankChatMatches chats query (Some (mkRankOptions svc ms mr)) =
  if filter_throws svc chats then inl not_a_function
  else inr (slice_from_0
              (array_sort by_score_desc (kept_entries query svc ms chats))
              (cap_of mr)).
Proof.
  unfold rankChatMatches.
  cbn [opt_service opt_minScore opt_maxResults service minScore maxResults].
  rewrite service_prefilter_spec.
  destruct (filter_throws svc chats); [reflexivity|].
  unfold kept_entries, threshold_of, cap_of.
  destruct ms, mr; reflexivity.
Qed.

Lemma in_firstn {A : Type} (n : nat) (l : list A) (x : A) :
  In x (firstn n l) -> In x l.
Proof.
  intros H. rewrite <- (firstn_skipn n l). apply in_or_app. now left.
Qed.

Lemma firstn_min {A : Type} (n : nat) (l : list A) :
  firstn (Nat.min n (length l)) l = firstn n l.
Proof.
  destruct (Nat.le_ge_cases n (length l)) as [H|H].
  - now rewrite Nat.min_l.
  - rewrite Nat.min_r by assumption. now rewrite !firstn_all2.
Qed.

(** [slice(0, end)] returns a prefix of the array. *)
Lemma slice_prefix {A : Type} (l : list A) (end_ : jsnumber) :
  exists k, slice_from_0 l end_ = firstn k l.
Proof. unfold slice_from_0. eauto. Qed.

Lemma truncate_nonneg (q : Q) :
  (0 <= q)%Q -> truncate q = Qfloor q /\ (0 <= Qfloor q)%Z.
Proof.
  intros H. destruct q as [n d]. unfold truncate, Qfloor. cbn [Qnum Qden].
  assert (Hn : (0 <= n)%Z).
  { unfold Qle in H. simpl in H. lia. }
  split; [apply Z.quot_div_nonneg; lia | apply Z.div_pos; lia].
Qed.

(** With an end that is at least 0 it returns the first entries, as many
    as the end says. *)
Lemma slice_at_least_0 {A : Type} (l : list A) (mr : option jsnumber) :
  at_least_0 mr ->
  slice_from_0 l (cap_of mr) = firstn (first_count mr (length l)) l.
Proof.
  unfold at_least_0, slice_from_0, cap_of, first_count.
  destruct mr as [[| | |q]|]; try tauto; intros H.
  - now rewrite Nat2Z.id.
  - destruct (truncate_nonneg H) as [-> Hfloor].
    destruct (Z.ltb_spec (Qfloor q) 0) as [Hneg|_]; [lia|].
    rewrite <- (firstn_min (Z.to_nat (Qfloor q))). f_equal. lia.
  - rewrite <- (firstn_min 5). f_equal.
    change (truncate 5) with 5%Z. cbn [Z.ltb Z.compare]. lia.
Qed.

Lemma first_count_at_most {A : Type} (l : list A) (mr : option jsnumber) :
  at_least_0 mr ->
  at_most mr (length (firstn (first_count mr (length l)) l)).
Proof.
  unfold at_least_0, at_most, first_count.
  destruct mr as [[| | |q]|]; try tauto; intros H.
  - destruct (truncate_nonneg H) as [_ Hfloor].
    pose proof (firstn_le_length (Z.to_nat (Qfloor q)) l) as Hlen.
    apply Qle_trans with (inject_Z (Qfloor q)); [|apply Qfloor_le].
    unfold num. rewrite <- Zle_Qle. lia.
  - apply firstn_le_length.
Qed.

(** The entries of a ranking are entries kept. *)
Lemma rank_entries (chats : list ChatMatch) (query : jsstring)
  (svc : option jsstring) (ms mr : option jsnumber)
  (result : list MatchResult) (m : MatchResult) :
  rankChatMatches chats query (Some (mkRankOptions svc ms mr)) = inr result ->
  In m result ->
  In m (map (scored_entry query) (retained svc chats)) /\
  number_ge (score m) (threshold_of ms) = true.
Proof.
  rewrite rank_spec. destruct (filter_throws svc chats); [discriminate|].
  intros [= <-] H.
  destruct (slice_prefix (array_sort by_score_desc
                            (kept_entries query svc ms chats)) (cap_of mr))
    as [k Ek].
  rewrite Ek in H. apply in_firstn in H.
  destruct (array_sort_stable_sort (kept_entries query svc ms chats))
    as (Hperm & _).
  apply (Permutation_in _ (Permutation_sym Hperm)) in H.
  now apply filter_In in H.
Qed.

(** An entry kept comes from a retained candidate, with the score and the
    match type of its title. *)
Lemma kept_entry (query : jsstring) (svc : option jsstring)
  (ms : option jsnumber) (chats : list ChatMatch) (m : MatchResult) :
  In m (kept_entries query svc ms chats) <->
  In (chat m) (retained svc chats) /\
  m = scored_entry query (chat m) /\
  number_ge (score m) (threshold_of ms) = true.
Proof.
  unfold kept_entries. rewrite filter_In, in_map_iff. split.
  - intros [(c & <- & Hc) Hge]. now repeat split.
  - intros (Hc & E & Hge). split; [|assumption].
    exists (chat m). split; [now symmetry | assumption].
Qed.

End RankChatMatches.

(** * The properties of the specification *)

(** C1, refuted as stated.  Two chats titled [John] ranked for the query
    [John] with [maxResults] set to -1: both clear the threshold, and the
    call returns one entry, the first, where no list has -1 entries at
    most; [slice(0, -1)] leaves out the last entry of the sorted list. *)
Lemma negative_maxResults_returns_an_entry :
  let chat1 := plain_chat (js "1") (js "John") (js "whatsapp") in
  let chat2 := plain_chat (js "2") (js "John") (js "signal") in
  let maxResults := Some (Finite (-1)) in
  rankChatMatches [chat1; chat2] (js "John")
    (Some (mkRankOptions None None maxResults))
  = inr [mkMatchResult chat1 1 Exact] /\
  ~ at_most maxResults (length [mkMatchResult chat1 1 Exact]).
Proof.
  cbv zeta. split; [vm_compute; reflexivity|].
  vm_compute. intros H. now apply H.
Qed.

(** C1, amended.  Let [maxResults], when given, be at least 0, and let the
    service filter, when given and not empty, meet no candidate whose
    network is an inherited name.  Then [rankChatMatches] is the reference
    pipeline: the candidates retained by the service filter are scored on
    their title with [calculateSimilarity]; the entries with
    [score >= minScore] (0.4 by default) are kept; they are sorted by
    descending score with entries of equal score left in their original
    order, which fixes one list; and the first [maxResults] (5 by
    default, the integer part of a fraction) of that list are returned.
    Hence the result has [maxResults] entries at most, each of score at
    least [minScore], in descending order of score, and it is the empty
    list, not an error, when no candidate reaches [minScore].  A call
    without options is a call with none set. *)
Theorem rankChatMatches_is_reference_pipeline
  (chats : list ChatMatch) (query : jsstring)
  (svc : option jsstring) (ms mr : option jsnumber) :
  at_least_0 mr ->
  filter_defined svc chats ->
  let minScore := threshold_of ms in
  let candidates := retained svc chats in
  let scored := map (scored_entry query) candidates in
  let kept := filter (fun m => number_ge (score m) minScore) scored in
  exists sorted result,
    stable_sort_of kept sorted /\
    (forall sorted', stable_sort_of kept sorted' -> sorted' = sorted) /\
    rankChatMatches chats query (Some (mkRankOptions svc ms mr)) = inr result /\
    result = firstn (first_count mr (length sorted)) sorted /\
    Forall (fun m =>
              In (chat m) candidates /\
              score m = sim_score (calculateSimilarity query (title (chat m))) /\
              matchType m
              = sim_matchType (calculateSimilarity query (title (chat m))))
           result /\
    at_most mr (length result) /\
    Forall (fun m => reaches (score m) minScore) result /\
    StronglySorted score_desc result /\
    (Forall (fun m => ~ reaches (score m) minScore) scored ->
     result = []) /\
    (svc = None -> ms = None -> mr = None ->
     rankChatMatches chats query None = inr result).
Proof.
  intros Hcap Hdef minScore candidates scored kept.
  fold (kept_entries query svc ms chats) in kept.
  pose proof (array_sort_stable_sort kept) as Hsort.
  set (sorted := array_sort by_score_desc kept) in *.
  set (result := firstn (first_count mr (length sorted)) sorted).
  assert (Hres : rankChatMatches chats query (Some (mkRankOptions svc ms mr))
                 = inr result).
  { rewrite rank_spec.
    apply filter_defined_iff in Hdef. rewrite Hdef.
    fold kept sorted. now rewrite slice_at_least_0. }
  exists sorted, result.
  split; [exact Hsort|].
  split; [intros sorted' Hs'; exact (stable_sort_of_unique Hs' Hsort)|].
  split; [exact Hres|]. split; [reflexivity|].
  split.
  { apply Forall_forall. intros m Hm.
    destruct (@rank_entries _ _ _ _ _ _ _ Hres Hm) as [Hin _].
    apply in_map_iff in Hin. destruct Hin as (c & <- & Hc). simpl. auto. }
  split; [now apply first_count_at_most|].
  split.
  { apply Forall_forall. intros m Hm. apply number_ge_iff.
    now destruct (@rank_entries _ _ _ _ _ _ _ Hres Hm). }
  split; [apply firstn_sorted, Hsort|].
  split.
  { intros Hnone.
    assert (Hkept : kept = []).
    { subst kept. rewrite Forall_forall in Hnone.
      destruct (filter _ scored) as [|m l] eqn:E; [reflexivity|].
      assert (Hin : In m (filter (fun m => number_ge (score m) minScore) scored))
        by (rewrite E; now left).
      apply filter_In in Hin. destruct Hin as [Hin Hge].
      apply number_ge_iff in Hge. now destruct (Hnone m Hin). }
    subst result sorted. rewrite Hkept. apply firstn_nil. }
  intros -> -> ->. exact Hres.
Qed.

Lemma rankChatMatches_is_reference_pipeline_witness :
  let chat1 := plain_chat (js "1") (js "Johnny") (js "whatsapp") in
  let chat2 := plain_chat (js "2") (js "John") (js "Telegram_bridge") in
  let chat3 := plain_chat (js "3") (js "john") (js "telegram") in
  let chat4 := plain_chat (js "4") (js "jon") (js "telegram") in
  let chats := [chat1; chat2; chat3; chat4] in
  let svc := Some (js "Telegram") in
  let mr := Some (Finite (5 # 2)) in
  let kept := filter (fun m => number_ge (score m) (threshold_of None))
                (map (scored_entry (js "John")) (retained svc chats)) in
  exists sorted result,
    stable_sort_of kept sorted /\
    (forall sorted', stable_sort_of kept sorted' -> sorted' = sorted) /\
    rankChatMatches chats (js "John") (Some (mkRankOptions svc None mr))
    = inr result /\
    result = firstn (first_count mr (length sorted)) sorted /\
    Forall (fun m =>
              In (chat m) (retained svc chats) /\
              score m
              = sim_score (calculateSimilarity (js "John") (title (chat m))) /\
              matchType m
              = sim_matchType (calculateSimilarity (js "John") (title (chat m))))
           result /\
    at_most mr (length result) /\
    Forall (fun m => reaches (score m) (threshold_of None)) result /\
    StronglySorted score_desc result /\
    (Forall (fun m => ~ reaches (score m) (threshold_of None))
            (map (scored_entry (js "John")) (retained svc chats)) ->
     result = []) /\
    (svc = None -> @None jsnumber = None -> mr = None ->
     rankChatMatches chats (js "John") None = inr result).
Proof.
  intros chat1 chat2 chat3 chat4 chats svc mr kept.
  apply (@rankChatMatches_is_reference_pipeline chats (js "John") svc None mr).
  - vm_compute. discriminate.
  - intros c Hc. vm_compute in Hc.
    destruct Hc as [<-|[<-|[<-|[<-|[]]]]]; reflexivity.
Defined.

(** The ranking of the witness: the two exact matches on Telegram, in
    the order of the input; the third entry is cut by [maxResults] 2.5. *)
Example rank_telegram_john :
  ranked_ids
    (rankChatMatches
       [plain_chat (js "1") (js "Johnny") (js "whatsapp");
        plain_chat (js "2") (js "John") (js "Telegram_bridge");
        plain_chat (js "3") (js "john") (js "telegram");
        plain_chat (js "4") (js "jon") (js "telegram")]
       (js "John")
       (Some (mkRankOptions (Some (js "Telegram")) None (Some (Finite (5 # 2))))))
  = inr [js "2"; js "3"].
Proof. vm_compute. reflexivity. Qed.

(** C2.  The query [Smith] against the target [John Smith]: after
    lower-casing and trimming the query is not the target, the target does
    not start with it, and it is the second white-space token of the
    target; the call returns score 0.85 with match type [contains], the
    rule that stands before the word loop, and not 0.9 with [word]. *)
Theorem smith_against_john_smith :
  let q := normalize (js "Smith") in
  let t := normalize (js "John Smith") in
  q <> t /\
  JsString.startsWith t q = false /\
  JsString.split_ws t = [js "john"; q] /\
  word_loop q (JsString.split_ws t) = Some (mkSimilarity (Double.literal 0.9) Word) /\
  calculateSimilarity (js "Smith") (js "John Smith")
  = mkSimilarity (Double.literal 0.85) Contains.
Proof.
  cbv zeta. split; [discriminate|]. repeat split; vm_compute; reflexivity.
Qed.

(** A query that only starts a token, [Smi] against [John Smith], is
    treated the same way: 0.85 with [contains], where the
    word loop would give 0.8 with [word]. *)
Example smi_against_john_smith :
  let q := normalize (js "Smi") in
  let t := normalize (js "John Smith") in
  word_loop q (JsString.split_ws t) = Some (mkSimilarity (Double.literal 0.8) Word) /\
  calculateSimilarity (js "Smi") (js "John Smith")
  = mkSimilarity (Double.literal 0.85) Contains.
Proof. cbv zeta. split; vm_compute; reflexivity. Qed.

(** C3, refuted as stated.  A chat of network [beeper] and title [Sarah],
    filtered with the service string [beeper]: the network and the filter
    both normalise to [matrix] through [parseService], yet the chat is not
    retained, and the ranking for the query [Sarah] is empty. *)
Lemma beeper_filter_drops_beeper_chat :
  let c := plain_chat (js "1") (js "Sarah") (js "beeper") in
  let s := js "beeper" in
  parseService (Some (network c)) = Tag matrix /\
  parseService (Some s) = Tag matrix /\
  service_prefilter (Some s) [c] = inr [] /\
  rankChatMatches [c] (js "Sarah") (only_service s) = inr [].
Proof. cbv zeta. repeat split; vm_compute; reflexivity. Qed.

(** C3, amended.  With a non-empty service filter [s], and candidates
    whose networks all normalise to a tag, a chat is retained for scoring
    exactly when the canonical tag of its network, the result of
    [parseService], is as a string the lower-cased [s] itself: [s] is
    not passed through [parseService].  The test is an equality of
    strings, not an inclusion, and it is made before scoring: the ranking
    is the ranking of the retained chats.  So when the lower-cased [s] is
    the name of a tag, [s] normalises to that tag and the retained chats
    are those whose network normalises to it; and when it is the name of
    no tag none is retained, whatever the titles. *)
Theorem service_filter_compares_tag_with_raw_filter
  (s : jsstring) (chats : list ChatMatch) (query : jsstring)
  (minS maxR : option jsnumber) :
  s <> [] ->
  (forall c, In c chats ->
             exists tag, parseService (Some (network c)) = Tag tag) ->
  exists kept,
    service_prefilter (Some s) chats = inr kept /\
    (forall c, In c kept <->
               In c chats /\
               exists tag, parseService (Some (network c)) = Tag tag /\
                           service_name tag = JsString.toLowerCase s) /\
    rankChatMatches chats query (Some (mkRankOptions (Some s) minS maxR))
    = rankChatMatches kept query (Some (mkRankOptions None minS maxR)) /\
    (forall tag, JsString.toLowerCase s = service_name tag ->
                 parseService (Some s) = Tag tag /\
                 forall c, In c kept <->
                           In c chats /\
                           parseService (Some (network c)) = Tag tag) /\
    ((forall tag, JsString.toLowerCase s <> service_name tag) ->
     kept = [] /\
     rankChatMatches chats query (Some (mkRankOptions (Some s) minS maxR))
     = inr []).
Proof.
  intros Hne Htagged.
  assert (Hdef : filter_throws (Some s) chats = false).
  { apply filter_defined_iff. destruct s as [|c0 s0]; [congruence|].
    intros c Hc. destruct (Htagged c Hc) as [tag Htag].
    exact (parseService_tagged _ Htag). }
  exists (retained (Some s) chats).
  assert (Hin : forall c, In c (retained (Some s) chats) <->
               In c chats /\
               exists tag, parseService (Some (network c)) = Tag tag /\
                           service_name tag = JsString.toLowerCase s).
  { intros c. unfold retained. destruct s as [|c0 s0]; [congruence|].
    rewrite filter_In. unfold has_tag_named. split.
    - intros [Hc Hname].
      destruct (parseService (Some (network c))) as [tag|n]; [|discriminate].
      apply eqb_true_iff in Hname. split; [assumption|]. now exists tag.
    - intros [Hc (tag & -> & Hname)]. split; [assumption|].
      now apply eqb_true_iff. }
  assert (Hrank :
    rankChatMatches chats query (Some (mkRankOptions (Some s) minS maxR))
    = rankChatMatches (retained (Some s) chats) query
        (Some (mkRankOptions None minS maxR))).
  { rewrite !rank_spec, Hdef. reflexivity. }
  split; [rewrite service_prefilter_spec, Hdef; reflexivity|].
  split; [exact Hin|]. split; [exact Hrank|]. split.
  - intros tag Htag. split; [now apply parseService_of_tag_name|].
    intros c. rewrite Hin, Htag. split.
    + intros [Hc (tag' & E & Hname)]. split; [assumption|].
      now rewrite E, (service_name_inj _ _ Hname).
    + intros [Hc E]. split; [assumption|]. now exists tag.
  - intros Hnotag.
    assert (Hnil : retained (Some s) chats = []).
    { destruct (retained (Some s) chats) as [|c l] eqn:E; [reflexivity|].
      assert (Hc : In c (c :: l)) by now left.
      apply Hin in Hc. destruct Hc as [_ (tag & _ & Hname)].
      now destruct (Hnotag tag). }
    split; [assumption|]. rewrite Hrank, Hnil, rank_spec.
    cbn [filter_throws]. unfold kept_entries. cbn [retained map filter array_sort fold_right].
    destruct (slice_prefix (@nil MatchResult) (cap_of maxR)) as [k ->].
    now rewrite firstn_nil.
Qed.

Lemma service_filter_compares_tag_with_raw_filter_witness :
  let chats := [plain_chat (js "1") (js "Sarah") (js "whatsapp");
                plain_chat (js "2") (js "Sarah") (js "telegram_bridge")] in
  exists kept,
    service_prefilter (Some (js "Telegram")) chats = inr kept /\
    (forall c, In c kept <->
               In c chats /\
               exists tag, parseService (Some (network c)) = Tag tag /\
                           service_name tag
                           = JsString.toLowerCase (js "Telegram")) /\
    rankChatMatches chats (js "Sarah")
      (Some (mkRankOptions (Some (js "Telegram")) None None))
    = rankChatMatches kept (js "Sarah") (Some (mkRankOptions None None None)) /\
    (forall tag, JsString.toLowerCase (js "Telegram") = service_name tag ->
                 parseService (Some (js "Telegram")) = Tag tag /\
                 forall c, In c kept <->
                           In c chats /\
                           parseService (Some (network c)) = Tag tag) /\
    ((forall tag, JsString.toLowerCase (js "Telegram") <> service_name tag) ->
     kept = [] /\
     rankChatMatches chats (js "Sarah")
       (Some (mkRankOptions (Some (js "Telegram")) None None))
     = inr []).
Proof.
  intros chats.
  apply (@service_filter_compares_tag_with_raw_filter
           (js "Telegram") chats (js "Sarah") None None).
  - discriminate.
  - intros c Hc. vm_compute in Hc.
    destruct Hc as [<-|[<-|[]]]; [now exists whatsapp | now exists telegram].
Defined.

(** The chats the filter of the witness retains. *)
Example telegram_filter :
  service_prefilter (Some (js "Telegram"))
    [plain_chat (js "1") (js "Sarah") (js "whatsapp");
     plain_chat (js "2") (js "Sarah") (js "telegram_bridge")]
  = inr [plain_chat (js "2") (js "Sarah") (js "telegram_bridge")].
Proof. vm_compute. reflexivity. Qed.

(** C4.  Let [q] and [t] be the query and the target lower-cased and
    trimmed.  When [q] is not [t], [t] does not start with [q], [t] does
    not include [q], no white-space token of [t] is [q] or starts with
    [q], and one of [q], [t] at least is not empty, the call returns match
    type [fuzzy], and with [d] the Levenshtein distance between [q] and
    [t] (the cost of a cheapest edit script, which is what
    [levenshteinDistance] returns) the score is [1 - d / max(|q|, |t|)],
    multiplied by 1.1 and capped at 1 when [q] and [t] have the same first
    unit, and left as it is otherwise; the division, the subtraction and
    the multiplication are those of doubles, each rounded to the nearest,
    and 1.1 is the double of that literal. *)
Theorem fuzzy_fallback_score (query target : jsstring) :
  let q := normalize query in
  let t := normalize target in
  let maxLen := Nat.max (length q) (length t) in
  q <> t ->
  JsString.startsWith t q = false ->
  JsString.includes t q = false ->
  (forall w, In w (JsString.split_ws t) ->
             w <> q /\ JsString.startsWith w q = false) ->
  q <> [] \/ t <> [] ->
  exists d,
    is_edit_distance q t d /\
    d = levenshteinDistance q t /\
    sim_matchType (calculateSimilarity query target) = Fuzzy /\
    (same_first_unit q t ->
     sim_score (calculateSimilarity query target)
     = Qmin 1 (Double.mul (Double.sub 1 (Double.div (num d) (num maxLen)))
                          (Double.literal 1.1))) /\
    (~ same_first_unit q t ->
     sim_score (calculateSimilarity query target)
     = Double.sub 1 (Double.div (num d) (num maxLen))).
Proof.
  intros q t maxLen Hneq Hsw Hinc Hwords Hne.
  exists (levenshteinDistance q t).
  split; [apply levenshteinDistance_is_edit_distance|].
  split; [reflexivity|].
  rewrite calculateSimilarity_ladder. fold q t.
  apply eqb_false_iff in Hneq. rewrite Hneq, Hsw, Hinc.
  rewrite fuzzy_fallback_nonempty by assumption. cbv zeta. fold maxLen.
  assert (Hq : q <> []).
  { intros E. rewrite E, includes_nil in Hinc. discriminate. }
  pose proof (unit_opt_eqb_same t Hq) as Hfirst.
  destruct (JsString.unit_opt_eqb (JsString.at0 q) (JsString.at0 t)).
  - split; [reflexivity|]. split; [reflexivity|].
    intros Hno. destruct Hno. now apply Hfirst.
  - split; [reflexivity|]. split; [|reflexivity].
    intros Hsame. apply Hfirst in Hsame. discriminate.
Qed.

Lemma fuzzy_fallback_score_witness :
  exists d,
    is_edit_distance (normalize (js "Jhon")) (normalize (js "John")) d /\
    d = levenshteinDistance (normalize (js "Jhon")) (normalize (js "John")) /\
    sim_matchType (calculateSimilarity (js "Jhon") (js "John")) = Fuzzy /\
    (same_first_unit (normalize (js "Jhon")) (normalize (js "John")) ->
     sim_score (calculateSimilarity (js "Jhon") (js "John"))
     = Qmin 1 (Double.mul (Double.sub 1 (Double.div (num d) (num 4)))
                          (Double.literal 1.1))) /\
    (~ same_first_unit (normalize (js "Jhon")) (normalize (js "John")) ->
     sim_score (calculateSimilarity (js "Jhon") (js "John"))
     = Double.sub 1 (Double.div (num d) (num 4))).
Proof.
  apply (fuzzy_fallback_score (js "Jhon") (js "John")).
  - vm_compute. discriminate.
  - vm_compute. reflexivity.
  - vm_compute. reflexivity.
  - vm_compute. intros w [<-|[]]. split; [discriminate | reflexivity].
  - left. vm_compute. discriminate.
Defined.

(** The two inputs of the witness, evaluated: distance 2 on length 4, the
    same first unit, hence [0.5 * 1.1], which is the double of 0.55. *)
Example jhon_against_john :
  levenshteinDistance (normalize (js "Jhon")) (normalize (js "John")) = 2 /\
  sim_score (calculateSimilarity (js "Jhon") (js "John"))
  = Double.literal 0.55.
Proof. split; vm_compute; reflexivity. Qed.

(** C5.  For every pair of strings, empty ones included, the score
    [calculateSimilarity] returns lies between 0 and 1; in particular the
    Levenshtein distance between the normalised strings is at most the
    length of the longer one, and the boosted score is at most 1. *)
Theorem score_between_0_and_1 (query target : jsstring) :
  let q := normalize query in
  let t := normalize target in
  (0 <= sim_score (calculateSimilarity query target) <= 1)%Q /\
  levenshteinDistance q t <= Nat.max (length q) (length t) /\
  (boosted_score (levenshteinDistance q t) (Nat.max (length q) (length t))
   <= 1)%Q.
Proof.
  intros q t. split; [|split].
  - pose proof literals_in_order as (L0 & L1 & L2).
    destruct (calculateSimilarity_cases query target)
      as [[_ E]|[[_ E]|[[_ E]|[_ E]]]]; try rewrite E; try exact E;
      split; lra.
  - apply levenshteinDistance_le_max.
  - unfold boosted_score. apply Q.le_min_l.
Qed.

(** C6, refuted as stated.  An empty query against the target [abc]: the
    query is empty after normalisation, and the call returns 0.95 with
    [startsWith], not 1.0 with [exact]. *)
Lemma empty_query_is_startsWith :
  (normalize [] = [] \/ normalize (js "abc") = []) /\
  calculateSimilarity [] (js "abc") = mkSimilarity (Double.literal 0.95) StartsWith /\
  ~ (sim_score (calculateSimilarity [] (js "abc")) = Double.literal 1.0 /\
     sim_matchType (calculateSimilarity [] (js "abc")) = Exact).
Proof.
  split; [left; reflexivity|]. split; [vm_compute; reflexivity|].
  intros [_ H]. vm_compute in H. discriminate.
Qed.

(** The other degenerate pair, a query against an empty target, reaches
    the fall-back and scores 0 with [fuzzy]. *)
Example empty_target_is_fuzzy :
  normalize (js "   ") = [] /\
  calculateSimilarity (js "abc") (js "   ") = mkSimilarity 0 Fuzzy.
Proof. split; vm_compute; reflexivity. Qed.

(** C6, amended.  When the query and the target are both empty after
    lower-casing and trimming, the call returns score 1.0 with match type
    [exact]; and on every input the division of the fall-back is evaluated
    with a denominator that is not zero: the function with the checked
    division returns, and returns what [calculateSimilarity] does. *)
Theorem both_empty_is_exact_and_no_zero_division (query target : jsstring) :
  (normalize query = [] -> normalize target = [] ->
   calculateSimilarity query target = mkSimilarity (Double.literal 1.0) Exact) /\
  calculateSimilarity_checked query target
  = Some (calculateSimilarity query target) /\
  (Nat.max (length (normalize query)) (length (normalize target)) = 0 ->
   fuzzy_fallback (normalize query) (normalize target)
   = mkSimilarity (Double.literal 1.0) Exact).
Proof.
  split; [|split].
  - intros Hq Ht. unfold calculateSimilarity. now rewrite Hq, Ht.
  - apply calculateSimilarity_checked_total.
  - intros H. unfold fuzzy_fallback. now rewrite H.
Qed.

Lemma both_empty_is_exact_and_no_zero_division_witness :
  calculateSimilarity (js "  ") [] = mkSimilarity (Double.literal 1.0) Exact /\
  calculateSimilarity_checked (js "abc") [] =
  Some (calculateSimilarity (js "abc") []).
Proof.
  split.
  - apply (proj1 (both_empty_is_exact_and_no_zero_division (js "  ") []));
      reflexivity.
  - apply (proj1 (proj2 (both_empty_is_exact_and_no_zero_division
                           (js "abc") []))).
Defined.

(** C7, refuted as stated.  The pair [bc] against [abc] is a [contains]
    match of score 0.85; the pair [xbcdefghijklmnopqrst] against
    [abcdefghijklmnopqrst] is a [fuzzy] match whose first units differ, so
    no boost applies, of score [1 - 1 / 20], about 0.95.  The first match type has the higher
    priority and the lower score. *)
Lemma unboosted_fuzzy_exceeds_contains :
  let r1 := calculateSimilarity (js "bc") (js "abc") in
  let q2 := js "xbcdefghijklmnopqrst" in
  let t2 := js "abcdefghijklmnopqrst" in
  let r2 := calculateSimilarity q2 t2 in
  r1 = mkSimilarity (Double.literal 0.85) Contains /\
  r2 = mkSimilarity (Double.sub 1 (Double.div 1 20)) Fuzzy /\
  priority (sim_matchType r2) < priority (sim_matchType r1) /\
  ~ (sim_score r2 <= sim_score r1)%Q /\
  ~ same_first_unit (normalize q2) (normalize t2) /\
  JsString.unit_opt_eqb (JsString.at0 (normalize q2))
                        (JsString.at0 (normalize t2)) = false.
Proof.
  cbv zeta. split; [vm_compute; reflexivity|].
  split; [vm_compute; reflexivity|].
  split; [vm_compute; lia|].
  split; [vm_compute; intros H; now apply H|].
  split; [|vm_compute; reflexivity].
  intros (c & q' & t' & E1 & E2). vm_compute in E1, E2. congruence.
Qed.

(** C7, amended.  If the match type of a first result has strictly higher
    priority than that of a second, in the order exact, startsWith, word,
    contains, fuzzy, then the first score is at least the second, unless
    the second match type is [fuzzy], boosted or not, and the first is not
    [exact]. *)
Theorem score_follows_priority_outside_fuzzy
  (query1 target1 query2 target2 : jsstring) :
  let r1 := calculateSimilarity query1 target1 in
  let r2 := calculateSimilarity query2 target2 in
  priority (sim_matchType r2) < priority (sim_matchType r1) ->
  sim_matchType r2 <> Fuzzy \/ sim_matchType r1 = Exact ->
  (sim_score r2 <= sim_score r1)%Q.
Proof.
  intros r1 r2 Hprio Hcond.
  destruct (calculateSimilarity_cases query1 target1)
    as [[M1 S1]|[[M1 S1]|[[M1 S1]|[M1 S1]]]];
    destruct (calculateSimilarity_cases query2 target2)
      as [[M2 S2]|[[M2 S2]|[[M2 S2]|[M2 S2]]]];
    fold r1 in M1, S1; fold r2 in M2, S2;
    rewrite M1, M2 in Hprio; simpl in Hprio; try lia;
    pose proof literals_in_order as (L0 & L1 & L2);
    try (rewrite S1, S2; lra);
    try (rewrite S1; lra);
    destruct Hcond as [Hc|Hc]; congruence.
Qed.

Lemma score_follows_priority_outside_fuzzy_witness :
  (sim_score (calculateSimilarity (js "bc") (js "abc"))
   <= sim_score (calculateSimilarity (js "John") (js "John Smith")))%Q.
Proof.
  apply (score_follows_priority_outside_fuzzy
           (js "John") (js "John Smith") (js "bc") (js "abc")).
  - vm_compute. lia.
  - left. vm_compute. discriminate.
Defined.

(** C9.  [levenshteinDistance(a, b)] is [levenshteinDistance(b, a)]. *)
Theorem levenshteinDistance_symmetric (a b : jsstring) :
  levenshteinDistance a b = levenshteinDistance b a.
Proof.
  rewrite (levenshteinDistance_lev_rec a b), (levenshteinDistance_lev_rec b a).
  apply lev_rec_sym.
Qed.

(** C10.  [calculateSimilarity] never returns the match type [word]: when
    the normalised target does not include the normalised query, the loop
    over the tokens of the target finds none that is the query or starts
    with it, since every token is cut out of the target; so the match type
    is one of exact, startsWith, contains, fuzzy. *)
Theorem word_is_never_returned (query target : jsstring) :
  let q := normalize query in
  let t := normalize target in
  let r := calculateSimilarity query target in
  (forall w, In w (JsString.split_ws t) -> JsString.includes t w = true) /\
  (JsString.includes t q = false ->
   word_loop q (JsString.split_ws t) = None) /\
  sim_matchType r <> Word /\
  (sim_matchType r = Exact \/ sim_matchType r = StartsWith \/
   sim_matchType r = Contains \/ sim_matchType r = Fuzzy).
Proof.
  intros q t r.
  split; [intros w; apply split_ws_includes|].
  split; [apply word_loop_unreachable|].
  destruct (calculateSimilarity_cases query target)
    as [[M _]|[[M _]|[[M _]|[M _]]]]; fold r in M; rewrite M;
    split; try discriminate; tauto.
Qed.

(** C8.  The service string [constructor], which is no key of
    [serviceMap] and starts with none: the specification has
    [parseService] return [unknown].  The exact lookup [serviceMap[normalized]] finds
    the member of that name which the object literal inherits, the
    function [Object], and [parseService] returns it, a value that is no
    service tag and no string; the same happens with [__proto__], in any
    letter case. *)
Theorem parseService_of_inherited_name :
  map_get serviceMap (js "constructor") = None /\
  prefix_loop (js "constructor") serviceMap = None /\
  own_key_tag (Some (js "constructor")) = unknown /\
  parseService (Some (js "constructor")) = Inherited (js "constructor") /\
  parseService (Some (js "__proto__")) = Inherited (js "__proto__") /\
  parseService (Some (js "Constructor")) = Inherited (js "constructor") /\
  parseService (Some (js "constructor")) <> Tag unknown.
Proof. repeat split; try (vm_compute; reflexivity). discriminate. Qed.

(** * Further properties of the code *)

(** ** levenshteinDistance as a distance *)

Section LevenshteinMetric.

(** Scripts compose: a script from [a] to [b] followed by one from [b] to
    [c] gives one from [a] to [c] that costs no more than both. *)
Lemma edit_cost_trans (a b : jsstring) (n : nat) :
  edit_cost a b n ->
  forall c m, edit_cost b c m -> exists k, k <= n + m /\ edit_cost a c k.
Proof.
  induction 1 as [|u x y n H1 IH|u v x y n H1 IH|u x y n H1 IH|v x y n H1 IH];
    intros c m H2.
  - exists m. split; [lia | assumption].
  - remember (u :: y) as b eqn:Eb.
    induction H2 as [|w y' z m H2 _|w w' y' z m H2 _|w y' z m H2 _
                    |w' y' z m H2 IH2]; try discriminate.
    + injection Eb as -> ->. destruct (IH _ _ H2) as (k & Hk & Hs).
      exists k. split; [lia | now constructor].
    + injection Eb as -> ->. destruct (IH _ _ H2) as (k & Hk & Hs).
      exists (S k). split; [lia | now constructor].
    + injection Eb as -> ->. destruct (IH _ _ H2) as (k & Hk & Hs).
      exists (S k). split; [lia | now constructor].
    + destruct (IH2 Eb) as (k & Hk & Hs).
      exists (S k). split; [lia | now constructor].
  - remember (v :: y) as b eqn:Eb.
    induction H2 as [|w y' z m H2 _|w w' y' z m H2 _|w y' z m H2 _
                    |w' y' z m H2 IH2]; try discriminate.
    + injection Eb as -> ->. destruct (IH _ _ H2) as (k & Hk & Hs).
      exists (S k). split; [lia | now constructor].
    + injection Eb as -> ->. destruct (IH _ _ H2) as (k & Hk & Hs).
      exists (S k). split; [lia | now constructor].
    + injection Eb as -> ->. destruct (IH _ _ H2) as (k & Hk & Hs).
      exists (S k). split; [lia | now constructor].
    + destruct (IH2 Eb) as (k & Hk & Hs).
      exists (S k). split; [lia | now constructor].
  - destruct (IH _ _ H2) as (k & Hk & Hs).
    exists (S k). split; [lia | now constructor].
  - remember (v :: y) as b eqn:Eb.
    induction H2 as [|w y' z m H2 _|w w' y' z m H2 _|w y' z m H2 _
                    |w' y' z m H2 IH2]; try discriminate.
    + injection Eb as -> ->. destruct (IH _ _ H2) as (k & Hk & Hs).
      exists (S k). split; [lia | now constructor].
    + injection Eb as -> ->. destruct (IH _ _ H2) as (k & Hk & Hs).
      exists (S k). split; [lia | now constructor].
    + injection Eb as -> ->. destruct (IH _ _ H2) as (k & Hk & Hs).
      exists k. split; [lia | assumption].
    + destruct (IH2 Eb) as (k & Hk & Hs).
      exists (S k). split; [lia | now constructor].
Qed.

(** A script changes the length by its cost at most. *)
Lemma edit_cost_length (a b : jsstring) (n : nat) :
  edit_cost a b n -> length a <= length b + n /\ length b <= length a + n.
Proof. induction 1; simpl; lia. Qed.

End LevenshteinMetric.

(** X1.  [levenshteinDistance] is a distance: it is zero on equal strings
    only, and going through a third string is never shorter. *)
Theorem levenshteinDistance_metric (a b c : jsstring) :
  (levenshteinDistance a b = 0 <-> a = b) /\
  levenshteinDistance a c <= levenshteinDistance a b + levenshteinDistance b c.
Proof.
  split.
  - split.
    + intros H0. destruct (list_eq_dec ascii_dec a b) as [E|Hne];
        [assumption|].
      pose proof (levenshteinDistance_pos Hne). lia.
    + intros <-. rewrite levenshteinDistance_lev_rec. apply lev_rec_diag.
  - destruct (levenshteinDistance_is_edit_distance a b) as [Hab _].
    destruct (levenshteinDistance_is_edit_distance b c) as [Hbc _].
    destruct (levenshteinDistance_is_edit_distance a c) as [_ Hmin].
    destruct (edit_cost_trans Hab Hbc) as (k & Hk & Hs).
    specialize (Hmin _ Hs). lia.
Qed.

(** X2.  Two strings are at least as far apart as their lengths differ. *)
Theorem levenshteinDistance_length_gap (a b : jsstring) :
  length a - length b <= levenshteinDistance a b /\
  length b - length a <= levenshteinDistance a b.
Proof.
  destruct (levenshteinDistance_is_edit_distance a b) as [Hab _].
  apply edit_cost_length in Hab. lia.
Qed.

(** ** Normalisation of the two arguments *)

Section Normalisation.

Lemma trimStart_toLowerCase (s : jsstring) :
  JsString.trimStart (JsString.toLowerCase s)
  = JsString.toLowerCase (JsString.trimStart s).
Proof.
  induction s as [|c s IH]; [reflexivity|]. simpl.
  rewrite is_space_lower_unit.
  destruct (JsString.is_space c); [exact IH | reflexivity].
Qed.

Lemma trim_toLowerCase (s : jsstring) :
  JsString.trim (JsString.toLowerCase s)
  = JsString.toLowerCase (JsString.trim s).
Proof.
  unfold JsString.trim, JsString.trimEnd.
  rewrite trimStart_toLowerCase.
  unfold JsString.toLowerCase at 1. rewrite <- map_rev.
  fold (JsString.toLowerCase (rev (JsString.trimStart s))).
  rewrite trimStart_toLowerCase.
  unfold JsString.toLowerCase. now rewrite map_rev.
Qed.

(** What [trimStart] leaves is the string without a run of white space at
    its start. *)
Lemma trimStart_split (s : jsstring) :
  exists sp, s = sp ++ JsString.trimStart s /\
             forallb JsString.is_space sp = true.
Proof.
  induction s as [|c s (sp & E & Hsp)]; [now exists []|].
  simpl. destruct (JsString.is_space c) eqn:Ec.
  - exists (c :: sp). simpl. rewrite Ec, Hsp. split; [now rewrite <- E | easy].
  - now exists [].
Qed.

Lemma trimStart_fixed (s : jsstring) :
  match s with [] => True | c :: _ => JsString.is_space c = false end ->
  JsString.trimStart s = s.
Proof. destruct s as [|c s]; simpl; [easy | now intros ->]. Qed.

Lemma trimStart_head (s : jsstring) :
  match JsString.trimStart s with
  | [] => True
  | c :: _ => JsString.is_space c = false
  end.
Proof.
  induction s as [|c s IH]; simpl; [exact I|].
  destruct (JsString.is_space c) eqn:Ec; [exact IH | exact Ec].
Qed.

Lemma trimStart_idem (s : jsstring) :
  JsString.trimStart (JsString.trimStart s) = JsString.trimStart s.
Proof. apply trimStart_fixed, trimStart_head. Qed.

Lemma trimEnd_prefix (s : jsstring) :
  exists sp, s = JsString.trimEnd s ++ sp.
Proof.
  unfold JsString.trimEnd.
  destruct (trimStart_split (rev s)) as (sp & E & _).
  exists (rev sp). rewrite <- rev_app_distr, <- E. now rewrite rev_involutive.
Qed.

Lemma trim_idem (s : jsstring) : JsString.trim (JsString.trim s) = JsString.trim s.
Proof.
  unfold JsString.trim at 1.
  assert (Hstart : JsString.trimStart (JsString.trim s) = JsString.trim s).
  { apply trimStart_fixed. unfold JsString.trim.
    pose proof (trimStart_head s) as Hh.
    destruct (trimEnd_prefix (JsString.trimStart s)) as (sp & E).
    destruct (JsString.trimEnd (JsString.trimStart s)) as [|c r]; [exact I|].
    rewrite E in Hh. exact Hh. }
  rewrite Hstart. unfold JsString.trim, JsString.trimEnd.
  now rewrite rev_involutive, trimStart_idem.
Qed.

Lemma normalize_idem (s : jsstring) : normalize (normalize s) = normalize s.
Proof.
  unfold normalize.
  now rewrite trim_toLowerCase, trim_idem, <- trim_toLowerCase, toLowerCase_idem.
Qed.

Lemma normalize_toLowerCase (s : jsstring) :
  normalize (JsString.toLowerCase s) = normalize s.
Proof. unfold normalize. now rewrite toLowerCase_idem. Qed.

Lemma normalize_trim (s : jsstring) : normalize (JsString.trim s) = normalize s.
Proof. unfold normalize. now rewrite <- trim_toLowerCase, trim_idem. Qed.

End Normalisation.

(** X3.  Scoring sees its arguments through lower-casing and trimming
    only: lower-casing or trimming the query or the target beforehand, or
    both, changes nothing in the result. *)
Theorem calculateSimilarity_normalised_arguments (query target : jsstring) :
  calculateSimilarity (normalize query) (normalize target)
  = calculateSimilarity query target /\
  calculateSimilarity (JsString.toLowerCase query) target
  = calculateSimilarity query target /\
  calculateSimilarity query (JsString.toLowerCase target)
  = calculateSimilarity query target /\
  calculateSimilarity (JsString.trim query) (JsString.trim target)
  = calculateSimilarity query target.
Proof.
  unfold calculateSimilarity.
  now rewrite !normalize_idem, !normalize_toLowerCase, !normalize_trim.
Qed.

(** X4.  The match type tells how the normalised query [q] lies in the
    normalised target [t]: [exact] when they are equal (score 1),
    [startsWith] when [t] starts with [q] without being it (0.95),
    [contains] when [q] occurs in [t] but not at its start (0.85), and
    [fuzzy] when [q] does not occur in [t]. *)
Theorem matchType_by_position (query target : jsstring) :
  let q := normalize query in
  let t := normalize target in
  let r := calculateSimilarity query target in
  (sim_matchType r = Exact <-> q = t) /\
  (sim_matchType r = StartsWith <->
   q <> t /\ JsString.startsWith t q = true) /\
  (sim_matchType r = Contains <->
   JsString.startsWith t q = false /\ JsString.includes t q = true) /\
  (sim_matchType r = Fuzzy <-> JsString.includes t q = false) /\
  (q = t -> r = mkSimilarity (Double.literal 1.0) Exact) /\
  (q <> t -> JsString.startsWith t q = true ->
   r = mkSimilarity (Double.literal 0.95) StartsWith) /\
  (JsString.startsWith t q = false -> JsString.includes t q = true ->
   r = mkSimilarity (Double.literal 0.85) Contains).
Proof.
  intros q t r. subst r. rewrite calculateSimilarity_ladder. fold q t.
  destruct (JsString.eqb q t) eqn:Eeq.
  - apply eqb_true_iff in Eeq.
    assert (Hsw : JsString.startsWith t q = true).
    { apply startsWith_iff. exists []. now rewrite Eeq, app_nil_r. }
    assert (Hinc : JsString.includes t q = true)
      by (rewrite Eeq; apply includes_refl).
    rewrite Hsw, Hinc. simpl.
    repeat split; intros; try easy; try congruence; tauto.
  - apply eqb_false_iff in Eeq.
    destruct (JsString.startsWith t q) eqn:Hsw.
    + assert (Hinc : JsString.includes t q = true).
      { apply includes_iff. apply startsWith_iff in Hsw.
        destruct Hsw as [u ->]. now exists [], u. }
      rewrite Hinc. simpl.
      repeat split; intros; try easy; try congruence; tauto.
    + destruct (JsString.includes t q) eqn:Hinc; simpl.
      * repeat split; intros; try easy; try congruence; tauto.
      * assert (Hq : q <> []).
        { intros E. rewrite E, includes_nil in Hinc. discriminate. }
        rewrite fuzzy_fallback_nonempty by now left. simpl.
        repeat split; intros; try easy; try congruence; tauto.
Qed.

(** ** More on parseService *)

(** X5.  The name of a tag normalises to the tag, so every tag is
    reached; whenever a normalisation returns a tag, normalising the name
    of that tag returns it again; and a normalisation returns a tag
    unless the string is an inherited name. *)
Theorem parseService_of_canonical_name
  (tag : BeeperService) (serviceString : option jsstring) :
  parseService (Some (service_name tag)) = Tag tag /\
  (forall t, parseService serviceString = Tag t ->
             parseService (Some (service_name t)) = Tag t) /\
  ((exists t, parseService serviceString = Tag t) <->
   forall s, serviceString = Some s -> inherited_name s = false).
Proof.
  assert (H : forall x, parseService (Some (service_name x)) = Tag x)
    by (intros x; destruct x; reflexivity).
  split; [apply H|]. split; [intros t _; apply H|].
  destruct serviceString as [s|].
  - rewrite parseService_cases. split.
    + intros [t Ht] s' [= <-].
      destruct (inherited_name s); [discriminate | reflexivity].
    + intros Hs. rewrite (Hs s eq_refl). eauto.
  - split; [intros _ s; discriminate | intros _; now exists unknown].
Qed.

(** No key of three units or more starts an inherited name. *)
Lemma key_prefix_not_inherited (s k : jsstring) (v : BeeperService) :
  In (k, v) serviceMap ->
  3 <= length k ->
  JsString.startsWith (JsString.toLowerCase s) k = true ->
  inherited_name s = false.
Proof.
  intros Hin H3 Hsw.
  destruct (inherited_name s) eqn:E; [|reflexivity].
  unfold inherited_name in E. apply orb_true_iff in E.
  assert (Hnone : forall name,
             prefix_loop name serviceMap = None ->
             JsString.toLowerCase s = name -> False).
  { intros name Hp En. rewrite En in Hsw.
    rewrite (prefix_loop_None _ _ Hp _ _ Hin H3) in Hsw. discriminate. }
  exfalso.
  destruct E as [E|E]; apply eqb_true_iff in E;
    [apply (Hnone (js "constructor")) | apply (Hnone (js "__proto__"))];
    try assumption; vm_compute; reflexivity.
Qed.

(** X6.  A service string that, lower-cased, starts with a key of
    [serviceMap] of three units or more normalises to the tag of that
    key, whatever follows the key and whatever the letter case. *)
Theorem parseService_key_prefix
  (s k : jsstring) (v : BeeperService) :
  In (k, v) serviceMap ->
  3 <= length k ->
  JsString.startsWith (JsString.toLowerCase s) k = true ->
  parseService (Some s) = Tag v.
Proof.
  intros Hin H3 Hsw.
  rewrite parseService_own by exact (key_prefix_not_inherited _ Hin H3 Hsw).
  f_equal.
  destruct s as [|c s]; [destruct k; simpl in *; [lia | discriminate]|].
  unfold own_key_tag.
  set (normalized := JsString.toLowerCase (c :: s)) in *.
  destruct (map_get serviceMap normalized) as [v'|] eqn:Eget.
  - apply map_get_Some in Eget. symmetry.
    now apply serviceMap_prefix_closed with (k1 := k) (k2 := normalized).
  - destruct (prefix_loop normalized serviceMap) as [v'|] eqn:Ep.
    + destruct (prefix_loop_Some _ _ Ep) as (k' & Hin' & H3' & Hsw').
      destruct (Nat.le_ge_cases (length k) (length k')) as [Hle|Hle].
      * symmetry.
        apply serviceMap_prefix_closed with (k1 := k) (k2 := k');
          try assumption.
        now apply startsWith_chain with (s := normalized).
      * apply serviceMap_prefix_closed with (k1 := k') (k2 := k);
          try assumption.
        now apply startsWith_chain with (s := normalized).
    + rewrite (prefix_loop_None _ _ Ep _ _ Hin H3) in Hsw. discriminate.
Qed.

Lemma parseService_key_prefix_witness :
  parseService (Some (js "WhatsApp_Bridge")) = Tag whatsapp.
Proof.
  apply (parseService_key_prefix (js "WhatsApp_Bridge") (k := js "whatsapp")).
  - vm_compute. tauto.
  - vm_compute. lia.
  - vm_compute. reflexivity.
Defined.

(** X26.  On every service string that is no inherited name, that is
    on every string but those that lower-case to [constructor] or
    [__proto__], [parseService] is the normalisation as the
    specification words it: [unknown] for an undefined or empty input;
    otherwise, on the lower-cased input, the tag of the key of
    [serviceMap] that the string is; failing that, the tag of the longest
    key of three units or more that starts the string; failing that,
    [unknown]. *)
Theorem parseService_exact_then_longest_prefix
  (serviceString : option jsstring) (v : BeeperService) :
  (forall s, serviceString = Some s -> inherited_name s = false) ->
  (parseService_rel serviceString v <-> parseService serviceString = Tag v).
Proof.
  intros Hown.
  assert (E : parseService serviceString = Tag (own_key_tag serviceString)).
  { destruct serviceString as [s|]; [|reflexivity].
    apply parseService_own. now apply Hown. }
  rewrite E. split.
  - intros H. f_equal.
    exact (parseService_rel_functional (own_key_tag_sound _) H).
  - intros [= <-]. apply own_key_tag_sound.
Qed.

Lemma parseService_exact_then_longest_prefix_witness :
  parseService_rel (Some (js "whatsapp_bridge")) whatsapp <->
  parseService (Some (js "whatsapp_bridge")) = Tag whatsapp.
Proof.
  apply (@parseService_exact_then_longest_prefix
           (Some (js "whatsapp_bridge")) whatsapp).
  intros s [= <-]. reflexivity.
Defined.

(** ** More on rankChatMatches *)

Section BestMatch.

Lemma filter_head_split {A : Type} (p : A -> bool) (l : list A) (x : A)
  (r : list A) :
  filter p l = x :: r ->
  exists before after,
    l = before ++ x :: after /\ forall y, In y before -> p y = false.
Proof.
  induction l as [|a l IH]; simpl; [discriminate|].
  destruct (p a) eqn:Ea.
  - intros [= -> <-]. exists [], l. split; [reflexivity | intros y []].
  - intros H. destruct (IH H) as (before & after & -> & Hb).
    exists (a :: before), after. split; [reflexivity|].
    intros y [<-|Hy]; [assumption | now apply Hb].
Qed.

(** The head of a stable descending sort is the first of the entries of
    highest score. *)
Lemma stable_sort_head (input : list MatchResult) (best : MatchResult)
  (rest : list MatchResult) :
  stable_sort_of input (best :: rest) ->
  (forall m, In m input -> (score m <= score best)%Q) /\
  exists before after,
    input = before ++ best :: after /\
    forall m, In m before -> (score m < score best)%Q.
Proof.
  intros (Hperm & Hsorted & Hstable).
  assert (Hmax : forall m, In m input -> (score m <= score best)%Q).
  { intros m Hm. apply (Permutation_in _ Hperm) in Hm.
    inversion Hsorted as [|? ? _ Hall]; subst.
    rewrite Forall_forall in Hall.
    destruct Hm as [<-|Hm]; [lra | now apply Hall]. }
  split; [exact Hmax|].
  specialize (Hstable (score best)). cbn [filter] in Hstable.
  rewrite has_score_refl in Hstable. symmetry in Hstable.
  destruct (filter_head_split _ _ Hstable) as (before & after & E & Hb).
  exists before, after. split; [exact E|].
  intros m Hm.
  assert (Hle : (score m <= score best)%Q).
  { apply Hmax. rewrite E. apply in_or_app. now left. }
  specialize (Hb m Hm). unfold has_score in Hb.
  destruct (Qlt_le_dec (score m) (score best)) as [Hlt|Hge]; [exact Hlt|].
  assert (Heq : (score m == score best)%Q) by lra.
  apply Qeq_bool_iff in Heq. congruence.
Qed.

(** The same on the ranking: its head against the entries kept. *)
Lemma rank_head_first (chats : list ChatMatch) (query : jsstring)
  (svc : option jsstring) (ms mr : option jsnumber) (best : MatchResult)
  (rest : list MatchResult) :
  rankChatMatches chats query (Some (mkRankOptions svc ms mr))
  = inr (best :: rest) ->
  stable_sort_head_of (kept_entries query svc ms chats) best.
Proof.
  rewrite rank_spec. destruct (filter_throws svc chats); [discriminate|].
  intros [= Hrank].
  set (kept := kept_entries query svc ms chats) in *.
  pose proof (array_sort_stable_sort kept) as Hsort.
  destruct (slice_prefix (array_sort by_score_desc kept) (cap_of mr))
    as [k Ek].
  rewrite Ek in Hrank.
  destruct (array_sort by_score_desc kept) as [|m sorted] eqn:E.
  - rewrite firstn_nil in Hrank. discriminate.
  - destruct k as [|k]; [discriminate|].
    simpl in Hrank. injection Hrank as -> _.
    exact (stable_sort_head Hsort).
Qed.

Lemma filter_map_split {A B : Type} (p : B -> bool) (f : A -> B)
  (l : list A) :
  forall bk y ak,
    filter p (map f l) = bk ++ y :: ak ->
    exists b x a,
      l = b ++ x :: a /\ f x = y /\ filter p (map f b) = bk.
Proof.
  induction l as [|z l IH]; intros bk y ak H.
  - destruct bk; discriminate.
  - cbn [map filter] in H. destruct (p (f z)) eqn:E.
    + destruct bk as [|b0 bk].
      * injection H as H _. now exists [], z, l.
      * injection H as H0 H.
        destruct (IH _ _ _ H) as (b & x & a & -> & Hx & Hb).
        exists (z :: b), x, a. repeat split; [assumption|].
        cbn [map filter]. now rewrite E, H0, Hb.
    + destruct (IH _ _ _ H) as (b & x & a & -> & Hx & Hb).
      exists (z :: b), x, a. repeat split; [assumption|].
      cbn [map filter]. now rewrite E.
Qed.

(** The head of a ranking against the candidates: it is one of those
    retained, it reaches the threshold, no retained candidate that reaches
    the threshold scores higher, and those that stand before it in the
    input score strictly lower. *)
Lemma rank_head_chat (chats : list ChatMatch) (query : jsstring)
  (svc : option jsstring) (ms mr : option jsnumber) (best : MatchResult)
  (rest : list MatchResult) :
  rankChatMatches chats query (Some (mkRankOptions svc ms mr))
  = inr (best :: rest) ->
  best = scored_entry query (chat best) /\
  number_ge (score best) (threshold_of ms) = true /\
  (forall c, In c (retained svc chats) ->
             number_ge (sim_score (calculateSimilarity query (title c)))
                       (threshold_of ms) = true ->
             (sim_score (calculateSimilarity query (title c))
              <= score best)%Q) /\
  exists before after,
    retained svc chats = before ++ chat best :: after /\
    forall c, In c before ->
              number_ge (sim_score (calculateSimilarity query (title c)))
                        (threshold_of ms) = true ->
              (sim_score (calculateSimilarity query (title c))
               < score best)%Q.
Proof.
  intros Hrank.
  assert (Hin : In best (best :: rest)) by now left.
  destruct (@rank_entries _ _ _ _ _ _ _ Hrank Hin) as [Hmap Hge].
  apply in_map_iff in Hmap. destruct Hmap as (c0 & Ec0 & Hc0).
  assert (Ebest : best = scored_entry query (chat best))
    by (now rewrite <- Ec0).
  destruct (rank_head_first _ _ _ _ _ Hrank) as [Hmax (bk & ak & Ekept & Hbk)].
  split; [exact Ebest|]. split; [exact Hge|]. split.
  - intros c Hc Hcge. apply (Hmax (scored_entry query c)).
    apply kept_entry. now repeat split.
  - unfold kept_entries in Ekept.
    destruct (filter_map_split _ _ _ _ _ _ Ekept) as (b & x & a & El & Ex & Eb).
    exists b, a. split; [now rewrite El, <- Ex|].
    intros c Hc Hcge. apply (Hbk (scored_entry query c)).
    rewrite <- Eb. apply filter_In. split; [now apply in_map | exact Hcge].
Qed.

End BestMatch.

(** X7.  When the ranking is not empty its first entry, the best match the
    callers use, is the first in the order of the input among the
    candidates of highest score that pass the filter and the threshold:
    it is one of the entries kept, no kept entry scores higher, and those
    before it score strictly lower.  Scores are compared as the doubles
    they are. *)
Theorem best_match_is_first_of_highest_score
  (chats : list ChatMatch) (query : jsstring)
  (svc : option jsstring) (ms mr : option jsnumber)
  (best : MatchResult) (rest : list MatchResult) :
  let kept := filter (fun m => number_ge (score m) (threshold_of ms))
                     (map (scored_entry query) (retained svc chats)) in
  rankChatMatches chats query (Some (mkRankOptions svc ms mr))
  = inr (best :: rest) ->
  (forall m, In m kept -> (score m <= score best)%Q) /\
  exists before after,
    kept = before ++ best :: after /\
    forall m, In m before -> (score m < score best)%Q.
Proof.
  intros kept Hrank. exact (rank_head_first _ _ _ _ _ Hrank).
Qed.

Lemma best_match_is_first_of_highest_score_witness :
  let chats := [plain_chat (js "1") (js "xxxdef") (js "whatsapp");
                plain_chat (js "2") (js "abcdexxxxxx") (js "telegram");
                plain_chat (js "3") (js "abcdeyyyyyy") (js "signal")] in
  let best := scored_entry (js "abcdef")
                (plain_chat (js "2") (js "abcdexxxxxx") (js "telegram")) in
  exists before after,
    filter (fun m => number_ge (score m) (threshold_of None))
      (map (scored_entry (js "abcdef")) (retained None chats))
    = before ++ best :: after /\
    forall m, In m before -> (score m < score best)%Q.
Proof.
  exact (proj2
    (@best_match_is_first_of_highest_score
       [plain_chat (js "1") (js "xxxdef") (js "whatsapp");
        plain_chat (js "2") (js "abcdexxxxxx") (js "telegram");
        plain_chat (js "3") (js "abcdeyyyyyy") (js "signal")]
       (js "abcdef") None None None
       (scored_entry (js "abcdef")
          (plain_chat (js "2") (js "abcdexxxxxx") (js "telegram")))
       [scored_entry (js "abcdef")
          (plain_chat (js "3") (js "abcdeyyyyyy") (js "signal"));
        scored_entry (js "abcdef")
          (plain_chat (js "1") (js "xxxdef") (js "whatsapp"))]
       ltac:(vm_compute; reflexivity))).
Defined.

(** When the ranking is empty. *)
Lemma rank_nil_iff
  (chats : list ChatMatch) (query : jsstring)
  (svc : option jsstring) (ms mr : option jsnumber) :
  filter_defined svc chats ->
  rankChatMatches chats query (Some (mkRankOptions svc ms mr)) = inr [] <->
  cuts_to_nothing mr (length (kept_entries query svc ms chats)) \/
  forall c, In c (retained svc chats) ->
            number_ge (sim_score (calculateSimilarity query (title c)))
                      (threshold_of ms) = false.
Proof.
  intros Hdef. apply filter_defined_iff in Hdef.
  rewrite rank_spec, Hdef.
  set (kept := kept_entries query svc ms chats).
  pose proof (array_sort_stable_sort kept) as (Hperm & _).
  pose proof (Permutation_length Hperm) as Hlen.
  set (sorted := array_sort by_score_desc kept) in *.
  assert (Hnone : (forall c, In c (retained svc chats) ->
            number_ge (sim_score (calculateSimilarity query (title c)))
                      (threshold_of ms) = false) <-> kept = []).
  { split.
    - intros H. destruct kept as [|m l] eqn:E; [reflexivity|].
      assert (Hin : In m kept) by (rewrite E; now left).
      apply kept_entry in Hin. destruct Hin as (Hc & Em & Hge).
      rewrite Em in Hge. cbn [score scored_entry] in Hge.
      rewrite (H _ Hc) in Hge. discriminate.
    - intros E c Hc.
      destruct (number_ge _ (threshold_of ms)) eqn:Hge; [|reflexivity].
      assert (Hin : In (scored_entry query c) kept).
      { apply kept_entry. now repeat split. }
      rewrite E in Hin. destruct Hin. }
  assert (Hslice : forall final : Z,
             firstn (Z.to_nat final) sorted = [] <->
             (final <= 0)%Z \/ kept = []).
  { intros final. split.
    - intros H. destruct (Z.leb_spec final 0) as [Hle|Hgt]; [now left|].
      right. destruct sorted as [|m l].
      + apply Permutation_sym, Permutation_nil in Hperm. exact Hperm.
      + destruct (Z.to_nat final) eqn:En; [lia | discriminate].
    - intros [Hle|E].
      + now replace (Z.to_nat final) with 0 by lia.
      + rewrite E in Hlen. destruct sorted; [apply firstn_nil | discriminate]. }
  rewrite Hnone. unfold slice_from_0, cuts_to_nothing, cap_of.
  split.
  - intros [= H]. apply Hslice in H.
    destruct H as [H|H]; [|now right].
    destruct mr as [[| | |q]|]; try (now left).
    + right. destruct kept; [reflexivity|]. simpl in Hlen. lia.
    + destruct (Z.ltb_spec (truncate q) 0) as [Hneg|Hpos].
      * left. right. lia.
      * destruct (Z.eq_dec (truncate q) 0) as [E0|Hne]; [now left; left|].
        right. destruct kept; [reflexivity|]. simpl in Hlen. lia.
    + right. change (truncate 5) with 5%Z in H. cbn [Z.ltb Z.compare] in H.
      destruct kept; [reflexivity|]. simpl in Hlen. lia.
  - intros H. f_equal. apply Hslice.
    destruct H as [H|H]; [|now right].
    destruct mr as [[| | |q]|]; try (now left); try (now destruct H).
    destruct H as [E0|[Hneg Hback]].
    + rewrite E0. cbn [Z.ltb Z.compare]. left. lia.
    + destruct (Z.ltb_spec (truncate q) 0) as [_|Hpos]; [|lia]. left. lia.
Qed.

(** X8.  When the service filter can be applied, the ranking is empty
    exactly when no retained candidate reaches the minimum score or
    [maxResults] cuts the list to nothing: it is [NaN] or minus infinity,
    or its integer part is zero, or is negative and reaches back beyond
    the start of the list. *)
Theorem rankChatMatches_empty_iff
  (chats : list ChatMatch) (query : jsstring)
  (svc : option jsstring) (ms mr : option jsnumber) :
  filter_defined svc chats ->
  let kept := filter (fun m => number_ge (score m) (threshold_of ms))
                     (map (scored_entry query) (retained svc chats)) in
  rankChatMatches chats query (Some (mkRankOptions svc ms mr)) = inr [] <->
  cuts_to_nothing mr (length kept) \/
  forall c, In c (retained svc chats) ->
            number_ge (sim_score (calculateSimilarity query (title c)))
                      (threshold_of ms) = false.
Proof. intros Hdef kept. exact (@rank_nil_iff chats query svc ms mr Hdef). Qed.

Lemma rankChatMatches_empty_iff_witness :
  rankChatMatches [plain_chat (js "1") (js "John") (js "whatsapp")]
    (js "John") (Some (mkRankOptions None None (Some (Finite (1 # 2)))))
  = inr [].
Proof.
  apply (@rankChatMatches_empty_iff
           [plain_chat (js "1") (js "John") (js "whatsapp")]
           (js "John") None None (Some (Finite (1 # 2))) I).
  left. left. reflexivity.
Defined.

(** X25.  [rankChatMatches] throws exactly when it is given a service
    filter that is not empty and a candidate whose network, lower-cased,
    is [constructor] or [__proto__]: what it throws is the [TypeError]
    of calling [toLowerCase] on the inherited member [parseService]
    returned, whatever the query, the titles and the other options.
    Without a service filter it never throws. *)
Theorem rankChatMatches_throws_iff
  (chats : list ChatMatch) (query : jsstring)
  (svc : option jsstring) (ms mr : option jsnumber) (e : Thrown) :
  (rankChatMatches chats query (Some (mkRankOptions svc ms mr)) = inl e <->
   e = not_a_function /\
   exists f c, svc = Some f /\ f <> [] /\ In c chats /\
               inherited_name (network c) = true) /\
  rankChatMatches chats query None <> inl e.
Proof.
  split; [|discriminate].
  rewrite rank_spec. unfold filter_throws. split.
  - destruct svc as [[|c0 f]|]; try discriminate.
    destruct (existsb _ chats) eqn:E; [|discriminate].
    intros [= <-]. split; [reflexivity|].
    apply existsb_exists in E. destruct E as (c & Hc & Ec).
    exists (c0 :: f), c. repeat split; try assumption. discriminate.
  - intros [-> (f & c & -> & Hne & Hc & Ec)].
    destruct f as [|c0 f]; [congruence|].
    assert (E : existsb (fun c => inherited_name (network c)) chats = true)
      by (apply existsb_exists; now exists c).
    now rewrite E.
Qed.

(** A chat whose network is [Constructor] makes the ranking for the
    service [whatsapp] throw. *)
Example rank_throws :
  rankChatMatches
    [plain_chat (js "1") (js "John") (js "whatsapp");
     plain_chat (js "2") (js "Jane") (js "Constructor")]
    (js "John") (only_service (js "whatsapp"))
  = inl not_a_function.
Proof. vm_compute. reflexivity. Qed.

(** ** getSuggestionMessage *)

Section SuggestionMessage.

Lemma includes_middle (l m r : jsstring) : JsString.includes (l ++ m ++ r) m = true.
Proof. apply includes_iff. now exists l, r. Qed.

Lemma includes_trans (s m w : jsstring) :
  JsString.includes s m = true -> JsString.includes m w = true ->
  JsString.includes s w = true.
Proof.
  rewrite !includes_iff. intros (l & r & ->) (l' & r' & ->).
  exists (l ++ l'), (r' ++ r). now rewrite <- !app_assoc.
Qed.

Lemma join_includes (sep : jsstring) (parts : list jsstring) (p : jsstring) :
  In p parts -> JsString.includes (join sep parts) p = true.
Proof.
  induction parts as [|a parts IH]; [intros []|].
  intros Hin. cbn [join]. destruct parts as [|b parts].
  - destruct Hin as [<-|[]]. apply includes_refl.
  - destruct Hin as [<-|Hin].
    + apply (includes_middle [] a (sep ++ join sep (b :: parts))).
    + apply includes_trans with (m := join sep (b :: parts)); [|now apply IH].
      apply includes_iff. exists (a ++ sep), [].
      now rewrite app_nil_r, app_assoc.
Qed.

Lemma startsWith_app (p r : jsstring) : JsString.startsWith (p ++ r) p = true.
Proof. apply startsWith_iff. now exists r. Qed.

End SuggestionMessage.

(** X9.  With at least one match, the message is the did-you-mean one:
    it starts with [No exact match for] and the quoted query, it holds the
    quoted title of each of the first three matches, and matches after
    the third do not change it. *)
Theorem getSuggestionMessage_first_three
  (query : jsstring) (topMatches : list MatchResult)
  (service0 : option jsstring) :
  topMatches <> [] ->
  let message := getSuggestionMessage query topMatches service0 in
  JsString.startsWith message (js "No exact match for " ++ quoted query) = true /\
  (forall m, In m (firstn 3 topMatches) ->
             JsString.includes message (quoted (title (chat m))) = true) /\
  message = getSuggestionMessage query (firstn 3 topMatches) service0.
Proof.
  intros Hne message. subst message.
  destruct topMatches as [|m0 rest]; [congruence|].
  split; [|split].
  - unfold getSuggestionMessage. rewrite app_assoc. apply startsWith_app.
  - intros m Hm. unfold getSuggestionMessage.
    set (names := map (fun m => quoted (title (chat m))) (firstn 3 (m0 :: rest))).
    apply includes_trans with (m := join (js ", ") names).
    + rewrite !app_assoc. rewrite <- app_assoc. apply includes_middle.
    + apply join_includes. subst names.
      now apply (in_map (fun m => quoted (title (chat m)))).
  - destruct rest as [|m1 [|m2 rest]]; reflexivity.
Qed.

Lemma getSuggestionMessage_first_three_witness :
  let m := mkMatchResult (plain_chat (js "1") (js "John") (js "whatsapp"))
             0.8 Fuzzy in
  JsString.includes (getSuggestionMessage (js "Jhon") [m] None)
                    (quoted (title (chat m))) = true.
Proof.
  intros m.
  pose proof (@getSuggestionMessage_first_three (js "Jhon") [m] None
                ltac:(discriminate)) as H.
  exact (proj1 (proj2 H) m (or_introl eq_refl)).
Defined.

(** ** service-icons.ts *)

(** X10.  [getAllServices] lists every service but [unknown], each
    once. *)
Theorem getAllServices_all_but_unknown (s : BeeperService) :
  NoDup getAllServices /\
  length getAllServices = 15 /\
  (In s getAllServices <-> s <> unknown).
Proof.
  split; [|split].
  - vm_compute. repeat constructor; simpl; intuition discriminate.
  - reflexivity.
  - split.
    + intros Hin ->. vm_compute in Hin. intuition discriminate.
    + intros Hne. destruct s; try congruence; vm_compute; tauto.
Qed.

(** X11.  Display names tell services apart, and none is empty, so the
    fall-back to the tag itself is never taken.  Read back through
    [parseService], a display name gives its service again except for
    [X (Twitter)], [Google Chat] and [Google Voice], which give
    [unknown]. *)
Theorem display_name_read_back (s1 s2 : BeeperService) :
  (getServiceDisplayName s1 = getServiceDisplayName s2 -> s1 = s2) /\
  record_get serviceDisplayNames s1 = Some (getServiceDisplayName s1) /\
  parseService (Some (getServiceDisplayName s1))
  = Tag match s1 with
        | twitter | googlechat | googlevoice => unknown
        | _ => s1
        end.
Proof.
  split; [|split].
  - destruct s1, s2; intros H; try reflexivity; discriminate H.
  - destruct s1; reflexivity.
  - destruct s1; reflexivity.
Qed.

(** X12.  A display name used as the service filter of [rankChatMatches]
    retains the chats of its service, except that the display names of
    twitter, googlechat, googlemessages, googlevoice and matrix, which do
    not lower-case to their tag, retain no chat at all; and whatever the
    display name, the filter throws when a network is an inherited
    name. *)
Theorem display_name_as_service_filter
  (s : BeeperService) (chats : list ChatMatch) :
  service_prefilter (Some (getServiceDisplayName s)) chats =
  if existsb (fun c => inherited_name (network c)) chats
  then inl not_a_function
  else inr match s with
           | twitter | googlechat | googlemessages | googlevoice | matrix =>
               []
           | _ =>
               filter (fun c =>
                         match parseService (Some (network c)) with
                         | Tag t => if BeeperService_eq_dec t s
                                    then true else false
                         | Inherited _ => false
                         end) chats
           end.
Proof.
  rewrite service_prefilter_spec.
  assert (Hthrows : filter_throws (Some (getServiceDisplayName s)) chats
                    = existsb (fun c => inherited_name (network c)) chats)
    by (destruct s; reflexivity).
  rewrite Hthrows. clear Hthrows.
  destruct (existsb _ chats); [reflexivity|]. f_equal.
  assert (Hnone : forall p : ChatMatch -> bool,
             (forall c, p c = false) -> filter p chats = []).
  { intros p Hp. induction chats as [|c l IH]; [reflexivity|].
    simpl. now rewrite Hp. }
  destruct s;
    first [ apply Hnone; intros c; unfold has_tag_named;
            destruct (parseService (Some (network c))) as [[]|];
            reflexivity
          | apply filter_ext; intros c; unfold has_tag_named;
            destruct (parseService (Some (network c))) as [[]|];
            reflexivity ].
Qed.

(** ** The sender of a message *)

Section SenderLabel.

Lemma or_else_nonempty (s fallback : jsstring) :
  fallback <> [] -> or_else s fallback <> [].
Proof. destruct s; simpl; [easy | discriminate]. Qed.

Lemma opt_or_else_nonempty (s : option jsstring) (fallback : jsstring) :
  fallback <> [] -> opt_or_else s fallback <> [].
Proof. destruct s as [[|c r]|]; simpl; try easy; discriminate. Qed.

Lemma before_first_app (sep : ascii) (l r : jsstring) :
  ~ In sep l -> before_first sep (l ++ sep :: r) = l.
Proof.
  induction l as [|c l IH]; simpl; intros Hnot.
  - now destruct (ascii_dec sep sep).
  - destruct (ascii_dec c sep) as [->|_]; [tauto|].
    rewrite IH; [reflexivity | tauto].
Qed.

Lemma local_part_matrix (l r : jsstring) :
  ~ In colon l -> local_part (at_sign :: l ++ colon :: r) = l.
Proof.
  intros Hnot. unfold local_part.
  change (at_sign :: l ++ colon :: r) with ((at_sign :: l) ++ colon :: r).
  rewrite before_first_app.
  - simpl. now destruct (ascii_dec at_sign at_sign).
  - intros [E|Hin]; [discriminate E | tauto].
Qed.

End SenderLabel.

(** X13.  The sender shown for a message is never the empty string: a
    missing or empty sender name falls back on the identifier, and an
    identifier that gives nothing on [Unknown]. *)
Theorem sender_label_never_empty (msg : Message) :
  sender_label msg <> [] /\
  (msg_senderName msg = None \/ msg_senderName msg = Some [] ->
   msg_senderID msg = None \/ msg_senderID msg = Some [] ->
   sender_label msg = js "Unknown").
Proof.
  unfold sender_label. split.
  - destruct (msg_senderName msg) as [[|c r]|]; try discriminate;
      destruct (msg_senderID msg); try discriminate;
      now apply or_else_nonempty.
  - intros [->| ->] [->| ->]; reflexivity.
Qed.

(** X14.  For a message without a sender name whose identifier is a
    Matrix identifier [@local:server], with [local] not empty and free of
    colons, the sender shown is [local]. *)
Theorem sender_label_of_matrix_id (msg : Message) (l r : jsstring) :
  msg_senderName msg = None \/ msg_senderName msg = Some [] ->
  msg_senderID msg = Some (at_sign :: l ++ colon :: r) ->
  l <> [] -> ~ In colon l ->
  sender_label msg = l.
Proof.
  intros Hname Hid Hne Hcolon. unfold sender_label.
  rewrite Hid, local_part_matrix by assumption.
  destruct l; [congruence|].
  destruct Hname as [->| ->]; reflexivity.
Qed.

Lemma sender_label_of_matrix_id_witness :
  sender_label
    (mkMessage true false None (Some (js "@alice:beeper.com")) None (js "t"))
  = js "alice".
Proof.
  apply (@sender_label_of_matrix_id
           (mkMessage true false None (Some (js "@alice:beeper.com")) None
                      (js "t"))
           (js "alice") (js "beeper.com")).
  - left. reflexivity.
  - reflexivity.
  - discriminate.
  - vm_compute. intuition discriminate.
Defined.

(** ** Collecting unread messages *)

Section CollectUnread.

Variable unreadCount0 : nat.

Lemma collect_unread_loop_closed (cursor : list Message) :
  forall acc checked,
    checked < 50 -> length acc < (collect_limit unreadCount0) ->
    collect_unread_loop unreadCount0 cursor acc checked =
    acc ++ firstn ((collect_limit unreadCount0) - length acc)
             (map to_unread (filter unread_from_others (firstn (50 - checked) cursor))).
Proof.
  induction cursor as [|msg rest IH]; intros acc checked Hc Hacc.
  - rewrite firstn_nil. simpl. rewrite firstn_nil. now rewrite app_nil_r.
  - replace (50 - checked) with (S (49 - checked)) by lia.
    cbn [collect_unread_loop firstn filter].
    fold (unread_from_others msg). destruct (unread_from_others msg) eqn:Ew.
    + cbn [map]. rewrite length_app. cbn [length].
      replace ((collect_limit unreadCount0) - length acc) with (S ((collect_limit unreadCount0) - length acc - 1)) by lia.
      cbn [firstn].
      destruct ((unreadCount0 <=? length acc + 1)
                || (20 <=? length acc + 1)) eqn:Estop.
      * assert (Hlim : (collect_limit unreadCount0) - length acc - 1 = 0).
        { apply orb_true_iff in Estop. unfold collect_limit.
          destruct Estop as [E|E]; apply Nat.leb_le in E; lia. }
        now rewrite Hlim.
      * apply orb_false_iff in Estop. destruct Estop as [E1 E2].
        apply Nat.leb_gt in E1, E2.
        destruct (Nat.leb_spec 50 (S checked)) as [H50|H50].
        -- replace (49 - checked) with 0 by lia.
           cbn [firstn filter map]. now rewrite firstn_nil.
        -- rewrite IH; [|lia|rewrite length_app; simpl; unfold collect_limit; lia].
           rewrite length_app. cbn [length].
           rewrite <- app_assoc. cbn [app].
           replace (50 - S checked) with (49 - checked) by lia.
           now replace ((collect_limit unreadCount0) - (length acc + 1))
             with ((collect_limit unreadCount0) - length acc - 1) by lia.
    + destruct (Nat.leb_spec 50 (S checked)) as [H50|H50].
      * replace (49 - checked) with 0 by lia.
        cbn [firstn filter map]. rewrite firstn_nil. now rewrite app_nil_r.
      * rewrite IH by lia.
        now replace (50 - S checked) with (49 - checked) by lia.
Qed.

End CollectUnread.

(** X15.  The unread messages collected for a chat, before they are
    sorted by time.  With an unread count of 0 there are none: the
    function returns before the loop.  Otherwise they are, in the order
    of the cursor, the messages among its first 50 that are unread and not
    sent by the user, cut after [unreadCount] of them and after 20 at
    most. *)
Theorem collect_unread_closed_form (unreadCount0 : nat) (cursor : list Message) :
  collect_unread unreadCount0 cursor =
  firstn (Nat.min unreadCount0 20)
    (map to_unread (filter unread_from_others (firstn 50 cursor))) /\
  length (collect_unread unreadCount0 cursor) <= 20 /\
  length (collect_unread unreadCount0 cursor) <= unreadCount0 /\
  collect_unread 0 cursor = [].
Proof.
  assert (E : collect_unread unreadCount0 cursor =
    firstn (Nat.min unreadCount0 20)
      (map to_unread (filter unread_from_others (firstn 50 cursor)))).
  { unfold collect_unread.
    destruct (Nat.eqb_spec unreadCount0 0) as [->|Hpos]; [reflexivity|].
    rewrite collect_unread_loop_closed
      by (unfold collect_limit; simpl; lia).
    unfold collect_limit. simpl app. rewrite !Nat.sub_0_r.
    now replace (Nat.max unreadCount0 1) with unreadCount0 by lia. }
  split; [exact E|].
  rewrite E. split; [|split; [|reflexivity]].
  - etransitivity; [apply firstn_le_length | lia].
  - etransitivity; [apply firstn_le_length | lia].
Qed.

(** ** The summary of unread chats *)

Section UnreadSummaryFacts.

Lemma by_unread_desc_le (x y : ChatMatch) :
  Qle_bool (by_unread_desc x y) 0 = true <-> unread_or_0 y <= unread_or_0 x.
Proof.
  unfold by_unread_desc, num. rewrite Qle_bool_iff.
  split; intros H.
  - assert (H' : (inject_Z (Z.of_nat (unread_or_0 y))
                  <= inject_Z (Z.of_nat (unread_or_0 x)))%Q) by lra.
    rewrite <- Zle_Qle in H'. lia.
  - assert (H' : (inject_Z (Z.of_nat (unread_or_0 y))
                  <= inject_Z (Z.of_nat (unread_or_0 x)))%Q)
      by (rewrite <- Zle_Qle; lia).
    lra.
Qed.

Lemma sort_insert_permutation {A : Type} (compareFn : A -> A -> Q) (x : A)
  (l : list A) :
  Permutation (x :: l) (sort_insert compareFn x l).
Proof.
  induction l as [|y l IH]; simpl; [reflexivity|].
  destruct (Qle_bool (compareFn x y) 0); [reflexivity|].
  rewrite perm_swap. now apply perm_skip.
Qed.

Lemma array_sort_permutation {A : Type} (compareFn : A -> A -> Q)
  (l : list A) :
  Permutation l (array_sort compareFn l).
Proof.
  unfold array_sort. induction l as [|x l IH]; simpl; [reflexivity|].
  rewrite <- sort_insert_permutation. now apply perm_skip.
Qed.

Lemma sort_insert_unread_sorted (x : ChatMatch) (l : list ChatMatch) :
  StronglySorted unread_desc l ->
  StronglySorted unread_desc (sort_insert by_unread_desc x l).
Proof.
  induction 1 as [|y l Hl IH Hy]; simpl.
  - repeat constructor.
  - destruct (Qle_bool (by_unread_desc x y) 0) eqn:E.
    + apply by_unread_desc_le in E.
      constructor; [now constructor|].
      constructor; [assumption|].
      rewrite Forall_forall in *. intros z Hz. specialize (Hy z Hz).
      unfold unread_desc in *. lia.
    + constructor; [assumption|].
      assert (Hxy : unread_desc y x).
      { unfold unread_desc.
        destruct (Nat.le_gt_cases (unread_or_0 y) (unread_or_0 x)) as [H|H];
          [|lia].
        apply by_unread_desc_le in H. congruence. }
      rewrite Forall_forall in *. intros z Hz.
      apply (Permutation_in z
               (Permutation_sym (sort_insert_permutation by_unread_desc x l)))
        in Hz.
      destruct Hz as [<-|Hz]; [assumption | now apply Hy].
Qed.

Lemma array_sort_unread_sorted (l : list ChatMatch) :
  StronglySorted unread_desc (array_sort by_unread_desc l).
Proof.
  unfold array_sort. induction l as [|x l IH]; simpl; [constructor|].
  now apply sort_insert_unread_sorted.
Qed.

Lemma fold_left_sum (l : list ChatMatch) (start : nat) :
  fold_left (fun sum chat => sum + unread_or_0 chat) l start
  = start + list_sum (map unread_or_0 l).
Proof.
  revert start; induction l as [|c l IH]; intros start; simpl; [lia|].
  rewrite IH. lia.
Qed.

Lemma list_sum_permutation (l1 l2 : list nat) :
  Permutation l1 l2 -> list_sum l1 = list_sum l2.
Proof. induction 1; simpl; lia. Qed.

Lemma list_sum_at_least_length (l : list nat) :
  Forall (fun n => 1 <= n) l -> length l <= list_sum l.
Proof. induction 1; simpl; lia. Qed.

Lemma map_sorted_unread (l : list ChatMatch) :
  StronglySorted unread_desc l ->
  StronglySorted (fun a b => ucs_unreadCount b <= ucs_unreadCount a)
                 (map to_summary l).
Proof.
  induction 1 as [|c l Hl IH Hc]; simpl; constructor; [assumption|].
  rewrite Forall_forall in *. intros e He.
  apply in_map_iff in He. destruct He as (c' & <- & Hc').
  exact (Hc c' Hc').
Qed.

Lemma summary_filter_incl (serviceFilter : option jsstring)
  (l : list ChatMatch) (c : ChatMatch) :
  In c (summary_filter serviceFilter l) -> In c l.
Proof.
  unfold summary_filter. destruct serviceFilter as [[|c0 s]|]; try tauto.
  intros H. now apply filter_In in H.
Qed.

End UnreadSummaryFacts.

(** X16.  In the summary of unread chats the count is the number of chats
    listed, the total is the sum of their unread counts, every chat listed
    has one unread message at least, so the total is at least the count,
    and the chats are listed by descending unread count.  The total is
    that of the chats passing the two filters, whatever the sort does. *)
Theorem unreadChatsSummary_counts
  (allChats : list ChatMatch) (serviceFilter : option jsstring) :
  let r := unreadChatsSummary allChats serviceFilter in
  us_unreadCount r = length (us_unreadChats r) /\
  us_totalUnreadCount r = list_sum (map ucs_unreadCount (us_unreadChats r)) /\
  us_totalUnreadCount r
  = list_sum (map unread_or_0
                (summary_filter serviceFilter
                   (filter (fun chat => 0 <? unread_or_0 chat) allChats))) /\
  Forall (fun e => 1 <= ucs_unreadCount e) (us_unreadChats r) /\
  us_unreadCount r <= us_totalUnreadCount r /\
  StronglySorted (fun a b => ucs_unreadCount b <= ucs_unreadCount a)
                 (us_unreadChats r).
Proof.
  intros r. subst r. unfold unreadChatsSummary.
  set (kept := summary_filter serviceFilter
                 (filter (fun chat => 0 <? unread_or_0 chat) allChats)).
  set (sorted := array_sort by_unread_desc kept).
  pose proof (array_sort_permutation by_unread_desc kept) as Hperm.
  fold sorted in Hperm. cbn [us_unreadCount us_totalUnreadCount us_unreadChats].
  assert (Hsum : fold_left (fun sum chat => sum + unread_or_0 chat) sorted 0
                 = list_sum (map ucs_unreadCount (map to_summary sorted))).
  { rewrite fold_left_sum, map_map. reflexivity. }
  assert (Hpos : Forall (fun e => 1 <= ucs_unreadCount e)
                        (map to_summary sorted)).
  { apply Forall_forall. intros e He.
    apply in_map_iff in He. destruct He as (c & <- & Hc).
    apply (Permutation_in _ (Permutation_sym Hperm)) in Hc.
    apply summary_filter_incl, filter_In in Hc. destruct Hc as [_ Hc].
    apply Nat.ltb_lt in Hc. simpl. lia. }
  split; [now rewrite length_map|].
  split; [exact Hsum|].
  split.
  { rewrite fold_left_sum. simpl.
    apply list_sum_permutation, Permutation_map, Permutation_sym, Hperm. }
  split; [exact Hpos|].
  split.
  - rewrite Hsum.
    rewrite <- (length_map to_summary sorted),
            <- (length_map ucs_unreadCount (map to_summary sorted)).
    apply list_sum_at_least_length.
    apply Forall_forall. intros n Hn.
    apply in_map_iff in Hn. destruct Hn as (e & <- & He).
    rewrite Forall_forall in Hpos. now apply Hpos.
  - apply map_sorted_unread, array_sort_unread_sorted.
Qed.

(** X17.  A chat is listed in the summary exactly when it has unread
    messages and, under a service filter, its lower-cased network includes
    the lower-cased filter or is included in it; so a chat whose network
    is the empty string passes every filter. *)
Theorem unreadChatsSummary_listed
  (allChats : list ChatMatch) (serviceFilter : option jsstring)
  (e : UnreadChatSummary) :
  let passes (chat : ChatMatch) : Prop :=
    match serviceFilter with
    | Some (c :: s) =>
        JsString.includes (JsString.toLowerCase (network chat))
                          (JsString.toLowerCase (c :: s)) = true \/
        JsString.includes (JsString.toLowerCase (c :: s))
                          (JsString.toLowerCase (network chat)) = true
    | _ => True
    end in
  (In e (us_unreadChats (unreadChatsSummary allChats serviceFilter)) <->
   exists chat, In chat allChats /\ e = to_summary chat /\
                1 <= unread_or_0 chat /\ passes chat) /\
  (forall chat, In chat allChats -> 1 <= unread_or_0 chat ->
                network chat = [] ->
                In (to_summary chat)
                   (us_unreadChats (unreadChatsSummary allChats serviceFilter))).
Proof.
  intros passes.
  assert (Hiff : In e (us_unreadChats (unreadChatsSummary allChats serviceFilter)) <->
   exists chat, In chat allChats /\ e = to_summary chat /\
                1 <= unread_or_0 chat /\ passes chat).
  { unfold unreadChatsSummary. cbn [us_unreadChats].
    set (unread := filter (fun chat => 0 <? unread_or_0 chat) allChats).
    pose proof (array_sort_permutation by_unread_desc
                  (summary_filter serviceFilter unread)) as Hperm.
    rewrite in_map_iff. split.
    - intros (chat & <- & Hc).
      apply (Permutation_in _ (Permutation_sym Hperm)) in Hc.
      exists chat.
      assert (Hu : In chat unread) by now apply summary_filter_incl in Hc.
      apply filter_In in Hu. destruct Hu as [Hall Hpos].
      apply Nat.ltb_lt in Hpos.
      split; [assumption|]. split; [reflexivity|]. split; [lia|].
      subst passes. unfold summary_filter in Hc.
      destruct serviceFilter as [[|c0 s]|]; try exact I.
      apply filter_In in Hc. destruct Hc as [_ Hc].
      now apply orb_true_iff in Hc.
    - intros (chat & Hall & -> & Hpos & Hpass).
      exists chat. split; [reflexivity|].
      apply (Permutation_in _ Hperm).
      assert (Hu : In chat unread).
      { apply filter_In. split; [assumption|]. apply Nat.ltb_lt. lia. }
      subst passes. unfold summary_filter.
      destruct serviceFilter as [[|c0 s]|]; try exact Hu.
      apply filter_In. split; [assumption|]. now apply orb_true_iff. }
  split; [exact Hiff|].
  intros chat Hall Hpos Hnet.
  clear Hiff.
  unfold unreadChatsSummary. cbn [us_unreadChats].
  apply in_map.
  apply (Permutation_in _ (array_sort_permutation by_unread_desc _)).
  assert (Hu : In chat (filter (fun chat => 0 <? unread_or_0 chat) allChats)).
  { apply filter_In. split; [assumption|]. apply Nat.ltb_lt. lia. }
  unfold summary_filter.
  destruct serviceFilter as [[|c0 s]|]; try exact Hu.
  apply filter_In. split; [assumption|].
  rewrite Hnet. apply orb_true_iff. right. apply includes_nil.
Qed.

(** ** Names shown for a chat *)

Section ChatNames.

Lemma span_colon_app (l r : jsstring) :
  ~ In colon l -> span_colon (l ++ colon :: r) = Some l.
Proof.
  induction l as [|c l IH]; simpl; intros Hnot.
  - now destruct (ascii_dec colon colon).
  - destruct (ascii_dec c colon) as [->|_]; [tauto|].
    rewrite IH; [reflexivity | tauto].
Qed.

Lemma match_matrix_id_nonempty (s g : jsstring) :
  match_matrix_id s = Some g -> g <> [].
Proof.
  induction s as [|c s IH]; simpl; [discriminate|].
  destruct (ascii_dec c at_sign); [|exact IH].
  destruct (span_colon s) as [[|x run]|]; try exact IH.
  intros [= <-]. discriminate.
Qed.

Lemma first_fullName_nonempty (ps : option (list Participant)) (n : jsstring) :
  first_fullName ps = Some n -> n <> [].
Proof.
  unfold first_fullName. destruct ps as [[|p ps]|]; try discriminate.
  destruct (p_fullName p) as [[|c r]|]; try discriminate.
  intros [= <-]. discriminate.
Qed.

End ChatNames.

(** X18.  [getBestChatName] never returns the empty string, and a title
    that lacks an at sign or lacks a colon is returned as it is, or as
    [Unknown Chat] when it is empty. *)
Theorem getBestChatName_never_empty (chat0 : NamedChat) :
  getBestChatName chat0 <> [] /\
  (JsString.includes (bn_title chat0) [at_sign] = false \/
   JsString.includes (bn_title chat0) [colon] = false ->
   getBestChatName chat0 = or_else (bn_title chat0) (js "Unknown Chat")).
Proof.
  unfold getBestChatName. split.
  - destruct (bn_title chat0) as [|c t] eqn:Et; [discriminate|].
    destruct (JsString.includes (c :: t) [at_sign]
              && JsString.includes (c :: t) [colon]); [|discriminate].
    destruct (if JsString.eqb (bn_type chat0) (js "single")
              then first_fullName (bn_participants chat0) else None)
      as [n|] eqn:En.
    + destruct (JsString.eqb (bn_type chat0) (js "single")); [|discriminate].
      now apply first_fullName_nonempty in En.
    + destruct (match_matrix_id (c :: t)) as [g|] eqn:Eg; [|discriminate].
      now apply match_matrix_id_nonempty in Eg.
  - intros H. destruct (bn_title chat0) as [|c t]; [reflexivity|].
    destruct H as [-> | ->]; [reflexivity|].
    now rewrite andb_false_r.
Qed.

(** X19.  A chat whose title is a Matrix identifier [@local:server], with
    [local] not empty and free of colons, is named [local], unless it is a
    single chat whose first participant has a full name, which is then
    the name. *)
Theorem getBestChatName_of_matrix_id (chat0 : NamedChat) (l r : jsstring) :
  bn_title chat0 = at_sign :: l ++ colon :: r ->
  l <> [] -> ~ In colon l ->
  getBestChatName chat0 =
  if JsString.eqb (bn_type chat0) (js "single")
  then match first_fullName (bn_participants chat0) with
       | Some fullName => fullName
       | None => l
       end
  else l.
Proof.
  intros Et Hne Hcolon. unfold getBestChatName. rewrite Et.
  assert (Hat : JsString.includes (at_sign :: l ++ colon :: r) [at_sign] = true).
  { apply includes_iff. now exists [], (l ++ colon :: r). }
  assert (Hco : JsString.includes (at_sign :: l ++ colon :: r) [colon] = true).
  { apply includes_iff. now exists (at_sign :: l), r. }
  rewrite Hat, Hco. cbn [andb].
  assert (Hm : match_matrix_id (at_sign :: l ++ colon :: r) = Some l).
  { cbn [match_matrix_id]. destruct (ascii_dec at_sign at_sign); [|congruence].
    rewrite span_colon_app by assumption. destruct l; [congruence|reflexivity]. }
  rewrite Hm.
  destruct (JsString.eqb (bn_type chat0) (js "single")); [|reflexivity].
  now destruct (first_fullName (bn_participants chat0)).
Qed.

Lemma getBestChatName_of_matrix_id_witness :
  getBestChatName
    (mkNamedChat (js "@alice:beeper.com") (js "group") None) = js "alice".
Proof.
  apply (@getBestChatName_of_matrix_id
           (mkNamedChat (js "@alice:beeper.com") (js "group") None)
           (js "alice") (js "beeper.com")).
  - reflexivity.
  - discriminate.
  - vm_compute. intuition discriminate.
Defined.

(** ** sendMessage *)

Section SendMessage.

Variable client : BeeperClient.
Variable options : SendMessageOptions.

Lemma truthy_nonempty (s : option jsstring) (v : jsstring) :
  truthy s = Some v -> s = Some v /\ v <> [].
Proof.
  destruct s as [[|c r]|]; simpl; try discriminate.
  intros [= <-]. split; [reflexivity | discriminate].
Qed.

Lemma truthy_none (s : option jsstring) :
  truthy s = None -> s = None \/ s = Some [].
Proof. destruct s as [[|c r]|]; simpl; auto; discriminate. Qed.

Lemma drain_20 (cursor : ChatCursor) (allMatches : list ChatMatch) :
  drain 20 cursor = inr allMatches -> allMatches = firstn 20 (yields cursor).
Proof.
  unfold drain. simpl Nat.max.
  destruct (Nat.leb_spec 20 (length (yields cursor))) as [H|H].
  - now intros [= <-].
  - destruct (then_throws cursor); [discriminate|].
    intros [= <-]. symmetry. apply firstn_all2. lia.
Qed.

(** A ranking without service filter does not throw. *)
Lemma suggestions_defined (chats : list ChatMatch) (query : jsstring) :
  exists allRanked,
    rankChatMatches chats query suggestion_options = inr allRanked.
Proof. unfold suggestion_options. rewrite rank_spec. cbn [filter_throws]. eauto. Qed.

(** What [send_resolve] leaves when it ends the function. *)
Lemma send_resolve_failure (result : SendMessageResult) :
  send_resolve client options = inl result ->
  smr_success result = false /\ smr_sentTo result = None /\
  exists e, smr_error result = Some e.
Proof.
  unfold send_resolve.
  destruct (truthy (smo_chatId options)); [discriminate|].
  destruct (truthy (smo_chatName options)) as [name|]; [|discriminate].
  destruct (chats_search client name 20) as [e|cursor].
  { intros [= <-]. simpl. eauto. }
  destruct (drain 20 cursor) as [e|allMatches].
  { intros [= <-]. simpl. eauto. }
  destruct (rankChatMatches allMatches name _) as [e|[|best rest]].
  - intros [= <-]. simpl. eauto.
  - destruct (rankChatMatches allMatches name _) as [e|allRanked];
      intros [= <-]; simpl; eauto.
  - discriminate.
Qed.

(** What [send_resolve] leaves when it resolved the chat by its name. *)
Lemma send_resolve_by_name (chatId chatName : option jsstring)
  (chatService : ServiceValue) :
  truthy (smo_chatId options) = None ->
  send_resolve client options = inr (chatId, chatName, chatService) ->
  truthy chatId <> None ->
  exists name cursor best rest,
    truthy (smo_chatName options) = Some name /\
    chats_search client name 20 = inr cursor /\
    rankChatMatches (firstn 20 (yields cursor)) name
      (ranking_options (smo_service options))
    = inr (best :: rest) /\
    chatId = Some (id (chat best)) /\
    chatName = Some (title (chat best)) /\
    chatService = parseService (Some (network (chat best))).
Proof.
  intros Hid. unfold send_resolve. rewrite Hid.
  destruct (truthy (smo_chatName options)) as [name|] eqn:Ename.
  - destruct (chats_search client name 20) as [e|cursor] eqn:Es;
      [discriminate|].
    destruct (drain 20 cursor) as [e|allMatches] eqn:Ed; [discriminate|].
    apply drain_20 in Ed. subst allMatches.
    fold (ranking_options (smo_service options)). fold suggestion_options.
    destruct (rankChatMatches _ name (ranking_options _))
      as [e|[|best rest]] eqn:Er; [discriminate| |].
    + destruct (rankChatMatches _ name suggestion_options); discriminate.
    + intros [= <- <- <-] _.
      now exists name, cursor, best, rest.
  - intros [= <- _ _] Hcontra.
    destruct (smo_chatId options) as [[|c r]|]; simpl in *; congruence.
Qed.

(** What it leaves when it found no match. *)
Lemma send_resolve_suggestions (result : SendMessageResult)
  (titles : list jsstring) :
  send_resolve client options = inl result ->
  smr_suggestions result = Some titles ->
  exists name cursor allRanked,
    truthy (smo_chatId options) = None /\
    truthy (smo_chatName options) = Some name /\
    chats_search client name 20 = inr cursor /\
    rankChatMatches (firstn 20 (yields cursor)) name
      (ranking_options (smo_service options)) = inr [] /\
    rankChatMatches (firstn 20 (yields cursor)) name suggestion_options
    = inr allRanked /\
    titles = map (fun m => title (chat m)) allRanked /\
    smr_error result
    = Some (getSuggestionMessage name allRanked (smo_service options)).
Proof.
  unfold send_resolve.
  destruct (truthy (smo_chatId options)); [discriminate|].
  destruct (truthy (smo_chatName options)) as [name|] eqn:Ename;
    [|discriminate].
  destruct (chats_search client name 20) as [e|cursor] eqn:Es.
  { intros [= <-]. discriminate. }
  destruct (drain 20 cursor) as [e|allMatches] eqn:Ed.
  { intros [= <-]. discriminate. }
  apply drain_20 in Ed. subst allMatches.
  fold (ranking_options (smo_service options)). fold suggestion_options.
  destruct (rankChatMatches _ name (ranking_options _))
    as [e|[|best rest]] eqn:Er.
  - intros [= <-]. discriminate.
  - destruct (rankChatMatches _ name suggestion_options)
      as [e|allRanked] eqn:Ea.
    + intros [= <-]. discriminate.
    + intros [= <-]. cbn [smr_suggestions smr_error]. intros [= <-].
      now exists name, cursor, allRanked.
  - discriminate.
Qed.

End SendMessage.

(** X20.  [sendMessage] calls [client.messages.send] once at most, with
    the text of the options and a chat identifier that is not empty.  It
    reports success exactly when it made that call and the call did not
    throw; a success carries no error and a recipient that is not empty; a
    failure carries an error and no recipient; and suggestions come only
    with a failure in which nothing was sent. *)
Theorem sendMessage_sends_once_at_most
  (client : BeeperClient) (options : SendMessageOptions) :
  let r := fst (sendMessage client options) in
  let calls := snd (sendMessage client options) in
  (calls = [] \/
   exists chatID, calls = [(chatID, smo_message options)] /\ chatID <> []) /\
  (smr_success r = true <->
   exists chatID, calls = [(chatID, smo_message options)] /\
                  messages_send client chatID (smo_message options) = None) /\
  (smr_success r = true ->
   smr_error r = None /\
   exists recipient, smr_sentTo r = Some recipient /\ recipient <> []) /\
  (smr_success r = false ->
   smr_sentTo r = None /\ exists e, smr_error r = Some e) /\
  (smr_suggestions r <> None -> smr_success r = false /\ calls = []).
Proof.
  intros r calls. subst r calls. unfold sendMessage.
  destruct (send_resolve client options) as [result|[[chatId chatName] svc]]
    eqn:Eres.
  - (* resolution ended the function *)
    destruct (send_resolve_failure _ _ Eres) as (Hs & Hto & He).
    cbn [fst snd].
    split; [now left|]. split.
    { split; [congruence | intros (c & Hc & _); discriminate]. }
    split; [congruence|]. split; [easy|]. easy.
  - destruct (truthy chatId) as [chatID|] eqn:Eid.
    + apply truthy_nonempty in Eid. destruct Eid as [-> Hne].
      destruct (messages_send client chatID (smo_message options)) as [e|] eqn:Es;
        cbn [fst snd].
      * split; [right; now exists chatID|]. split.
        { split; [discriminate|].
          intros (c & [= <-] & Hc). congruence. }
        split; [discriminate|].
        split; [intros _; simpl; eauto|].
        simpl. congruence.
      * split; [right; now exists chatID|]. split.
        { split; [intros _; now exists chatID | reflexivity]. }
        split.
        { intros _. split; [reflexivity|].
          exists (opt_or_else chatName chatID). split; [reflexivity|].
          now apply opt_or_else_nonempty. }
        split; [discriminate|]. simpl. congruence.
    + cbn [fst snd]. split; [now left|]. split.
      { split; [discriminate | intros (c & Hc & _); discriminate]. }
      split; [discriminate|].
      split; [intros _; simpl; eauto|]. simpl. congruence.
Qed.

(** X21.  When [sendMessage] succeeds without a chat identifier in the
    options, the message went to the best match: the first entry of the
    ranking of the first 20 chats the search yields for the chat name,
    under the service filter of the options, threshold 0.4.  That chat
    passes the service filter and scores 0.4 or more; no chat passing the
    filter scores higher, and those that come before it in the search
    score strictly lower.  The recipient reported is its title, or its
    identifier when the title is empty, and the service what
    [parseService] returns for its network. *)
Theorem sendMessage_by_name_sends_to_best_match
  (client : BeeperClient) (options : SendMessageOptions) :
  let r := fst (sendMessage client options) in
  let calls := snd (sendMessage client options) in
  truthy (smo_chatId options) = None ->
  smr_success r = true ->
  exists name cursor best rest before after,
    truthy (smo_chatName options) = Some name /\
    chats_search client name 20 = inr cursor /\
    rankChatMatches (firstn 20 (yields cursor)) name
      (ranking_options (smo_service options))
    = inr (best :: rest) /\
    retained (smo_service options) (firstn 20 (yields cursor))
    = before ++ chat best :: after /\
    score best = sim_score (calculateSimilarity name (title (chat best))) /\
    (Double.literal 0.4 <= score best)%Q /\
    (forall c, In c (retained (smo_service options)
                       (firstn 20 (yields cursor))) ->
               (sim_score (calculateSimilarity name (title c))
                <= score best)%Q) /\
    (forall c, In c before ->
               (sim_score (calculateSimilarity name (title c))
                < score best)%Q) /\
    calls = [(id (chat best), smo_message options)] /\
    smr_sentTo r = Some (or_else (title (chat best)) (id (chat best))) /\
    smr_service r = Some (parseService (Some (network (chat best)))).
Proof.
  intros r calls Hid Hok. subst r calls. unfold sendMessage in *.
  destruct (send_resolve client options) as [result|[[chatId chatName] svc]]
    eqn:Eres.
  - exfalso. destruct (send_resolve_failure _ _ Eres) as (Hs & _).
    cbn [fst] in Hok. congruence.
  - destruct (truthy chatId) as [chatID|] eqn:Eid; [|discriminate].
    assert (Hsome : truthy chatId <> None) by congruence.
    destruct (@send_resolve_by_name client options _ _ _ Hid Eres Hsome)
      as (name & cursor & best & rest & Hname & Hsearch & Hrank & -> & -> & ->).
    apply truthy_nonempty in Eid. destruct Eid as [[= <-] Hne].
    destruct (messages_send client (id (chat best)) (smo_message options));
      [discriminate|]. cbn [fst snd].
    destruct (rank_head_chat _ _ _ _ _ Hrank)
      as (Ebest & Hge & Hmax & before & after & Esplit & Hbefore).
    cbn [threshold_of number_ge] in Hge, Hmax, Hbefore.
    apply Qle_bool_iff in Hge.
    exists name, cursor, best, rest, before, after.
    split; [assumption|]. split; [assumption|]. split; [assumption|].
    split; [assumption|].
    split; [now rewrite Ebest at 1|].
    split; [assumption|].
    split.
    { intros c Hc.
      destruct (Qlt_le_dec (sim_score (calculateSimilarity name (title c)))
                           (Double.literal 0.4)) as [Hlow|Hhigh]; [lra|].
      apply Hmax; [assumption | now apply Qle_bool_iff]. }
    split.
    { intros c Hc.
      destruct (Qlt_le_dec (sim_score (calculateSimilarity name (title c)))
                           (Double.literal 0.4)) as [Hlow|Hhigh]; [lra|].
      apply Hbefore; [assumption | now apply Qle_bool_iff]. }
    split; [reflexivity|].
    split; [|reflexivity].
    simpl. destruct (title (chat best)); reflexivity.
Qed.

Lemma sendMessage_by_name_sends_to_best_match_witness :
  let found := [plain_chat (js "c0") (js "John") (js "whatsapp");
                plain_chat (js "c1") (js "xxxdef") (js "telegram");
                plain_chat (js "c2") (js "abcdexxxxxx") (js "Telegram")] in
  let options := mkSendMessageOptions None (Some (js "abcdef"))
                   (Some (js "telegram")) (js "hi") in
  let client := quiet_client found in
  exists name cursor best rest before after,
    truthy (smo_chatName options) = Some name /\
    chats_search client name 20 = inr cursor /\
    rankChatMatches (firstn 20 (yields cursor)) name
      (ranking_options (smo_service options))
    = inr (best :: rest) /\
    retained (smo_service options) (firstn 20 (yields cursor))
    = before ++ chat best :: after /\
    score best = sim_score (calculateSimilarity name (title (chat best))) /\
    (Double.literal 0.4 <= score best)%Q /\
    (forall c, In c (retained (smo_service options)
                       (firstn 20 (yields cursor))) ->
               (sim_score (calculateSimilarity name (title c))
                <= score best)%Q) /\
    (forall c, In c before ->
               (sim_score (calculateSimilarity name (title c))
                < score best)%Q) /\
    snd (sendMessage client options)
    = [(id (chat best), smo_message options)] /\
    smr_sentTo (fst (sendMessage client options))
    = Some (or_else (title (chat best)) (id (chat best))) /\
    smr_service (fst (sendMessage client options))
    = Some (parseService (Some (network (chat best)))).
Proof.
  intros found options client.
  apply (sendMessage_by_name_sends_to_best_match client options).
  - reflexivity.
  - vm_compute. reflexivity.
Defined.

(** The message of the witness goes to the chat [c2], which scores
    0.5000000000000001 and stands after [c1], which scores 0.5. *)
Example send_to_best_match :
  snd (sendMessage
         (quiet_client
            [plain_chat (js "c0") (js "John") (js "whatsapp");
             plain_chat (js "c1") (js "xxxdef") (js "telegram");
             plain_chat (js "c2") (js "abcdexxxxxx") (js "Telegram")])
         (mkSendMessageOptions None (Some (js "abcdef"))
            (Some (js "telegram")) (js "hi")))
  = [(js "c2", js "hi")].
Proof. vm_compute. reflexivity. Qed.

(** X22.  When [sendMessage] returns suggestions, the ranking under the
    service filter was empty and nothing was sent.  The suggestions are
    three titles at most, those of the ranking of the same 20 chats
    without service filter at threshold 0.3, which the error message is
    built from; each is the title of one of the 20 chats scoring 0.3 or
    more, and less than 0.4 when the options carry no service filter. *)
Theorem sendMessage_suggestions
  (client : BeeperClient) (options : SendMessageOptions)
  (titles : list jsstring) :
  smr_suggestions (fst (sendMessage client options)) = Some titles ->
  exists name cursor allRanked,
    truthy (smo_chatName options) = Some name /\
    chats_search client name 20 = inr cursor /\
    rankChatMatches (firstn 20 (yields cursor)) name
      (ranking_options (smo_service options)) = inr [] /\
    snd (sendMessage client options) = [] /\
    length titles <= 3 /\
    rankChatMatches (firstn 20 (yields cursor)) name suggestion_options
    = inr allRanked /\
    titles = map (fun m => title (chat m)) allRanked /\
    smr_error (fst (sendMessage client options))
    = Some (getSuggestionMessage name allRanked (smo_service options)) /\
    forall t, In t titles ->
      exists c, In c (firstn 20 (yields cursor)) /\ title c = t /\
                (Double.literal 0.3
                 <= sim_score (calculateSimilarity name (title c)))%Q /\
                (truthy (smo_service options) = None ->
                 (sim_score (calculateSimilarity name (title c))
                  < Double.literal 0.4)%Q).
Proof.
  unfold sendMessage.
  destruct (send_resolve client options) as [result|[[chatId chatName] svc]]
    eqn:Eres.
  - cbn [fst snd]. intros Hs.
    destruct (send_resolve_suggestions _ _ Eres Hs)
      as (name & cursor & allRanked & Hid & Hname & Es & Er & Ea & Et & Ee).
    exists name, cursor, allRanked.
    split; [assumption|]. split; [assumption|]. split; [assumption|].
    split; [reflexivity|].
    assert (Hcap : length allRanked <= 3).
    { unfold suggestion_options in Ea. rewrite rank_spec in Ea.
      cbn [filter_throws] in Ea. injection Ea as <-.
      rewrite (@slice_at_least_0 _ _ (Some (Finite 3)))
        by (vm_compute; discriminate).
      apply firstn_le_length. }
    split; [now rewrite Et, length_map|].
    split; [assumption|]. split; [assumption|]. split; [assumption|].
    intros t Ht. rewrite Et in Ht.
    apply in_map_iff in Ht. destruct Ht as (m & <- & Hm).
    destruct (@rank_entries _ _ _ _ _ _ _ Ea Hm) as [Hmap Hmin].
    apply in_map_iff in Hmap. destruct Hmap as (c & <- & Hc).
    cbn [retained] in Hc. cbn [threshold_of number_ge score scored_entry] in Hmin.
    exists c.
    split; [assumption|]. split; [reflexivity|].
    split; [now apply Qle_bool_iff in Hmin|].
    intros Hnofilter.
    assert (Hdef : filter_defined (smo_service options)
                                  (firstn 20 (yields cursor))).
    { apply truthy_none in Hnofilter.
      destruct Hnofilter as [-> | ->]; exact I. }
    unfold ranking_options in Er.
    apply (@rank_nil_iff _ name _ _ _ Hdef) in Er.
    destruct Er as [Hcut|Hnone].
    + cbn [cuts_to_nothing] in Hcut. change (truncate 5) with 5%Z in Hcut.
      exfalso. destruct Hcut as [Hcut|[Hcut _]]; lia.
    + assert (Hret : In c (retained (smo_service options)
                             (firstn 20 (yields cursor)))).
      { apply truthy_none in Hnofilter.
        destruct Hnofilter as [-> | ->]; exact Hc. }
      specialize (Hnone c Hret).
      cbn [threshold_of number_ge] in Hnone.
      apply Qnot_le_lt. intros Hle. apply Qle_bool_iff in Hle. congruence.
  - destruct (truthy chatId) as [chatID|]; [|discriminate].
    destruct (messages_send client chatID (smo_message options));
      discriminate.
Qed.

Lemma sendMessage_suggestions_witness :
  let found := [plain_chat (js "c1") (js "Joan") (js "whatsapp");
                plain_chat (js "c2") (js "Family") (js "telegram")] in
  let options := mkSendMessageOptions None (Some (js "john"))
                   (Some (js "signal")) (js "hi") in
  let client := quiet_client found in
  exists name cursor allRanked,
    truthy (smo_chatName options) = Some name /\
    chats_search client name 20 = inr cursor /\
    rankChatMatches (firstn 20 (yields cursor)) name
      (ranking_options (smo_service options)) = inr [] /\
    snd (sendMessage client options) = [] /\
    length [js "Joan"] <= 3 /\
    rankChatMatches (firstn 20 (yields cursor)) name suggestion_options
    = inr allRanked /\
    [js "Joan"] = map (fun m => title (chat m)) allRanked /\
    smr_error (fst (sendMessage client options))
    = Some (getSuggestionMessage name allRanked (smo_service options)) /\
    forall t, In t [js "Joan"] ->
      exists c, In c (firstn 20 (yields cursor)) /\ title c = t /\
                (Double.literal 0.3
                 <= sim_score (calculateSimilarity name (title c)))%Q /\
                (truthy (smo_service options) = None ->
                 (sim_score (calculateSimilarity name (title c))
                  < Double.literal 0.4)%Q).
Proof.
  intros found options client.
  apply (sendMessage_suggestions client options).
  vm_compute. reflexivity.
Defined.

(** ** openChat *)

Section OpenChat.

Variable client : BeeperClient.
Variable host : Host.

(** The calls of the inner [try]. *)
Lemma open_in_desktop_events (chatID : jsstring) :
  In (snd (open_in_desktop client host chatID)) (opening_calls chatID).
Proof.
  unfold open_in_desktop, open_fallback, opening_calls.
  destruct (app_open client chatID);
    destruct (open_url host (js "beeper://"));
    destruct (closeMainWindow host 0); cbn [fst snd app In]; tauto.
Qed.

(** When the inner [try] goes through. *)
Lemma open_in_desktop_ok (chatID : jsstring) :
  let ok := fst (open_in_desktop client host chatID) in
  let events := snd (open_in_desktop client host chatID) in
  ok = true <->
  (events = [AppOpen chatID; CloseMainWindow] /\
   app_open client chatID = None /\ closeMainWindow host 0 = true) \/
  (events = [AppOpen chatID; ConsoleError; (OpenUrl (js "beeper://")); CloseMainWindow] /\
   app_open client chatID <> None /\ open_url host (js "beeper://") = true /\
   closeMainWindow host 0 = true) \/
  (events = [AppOpen chatID; CloseMainWindow; ConsoleError; (OpenUrl (js "beeper://"));
             CloseMainWindow] /\
   app_open client chatID = None /\ closeMainWindow host 0 = false /\
   open_url host (js "beeper://") = true /\ closeMainWindow host 1 = true).
Proof.
  cbv zeta. unfold open_in_desktop, open_fallback.
  destruct (app_open client chatID) as [e|] eqn:Eapp;
    destruct (open_url host (js "beeper://")) eqn:Eurl;
    destruct (closeMainWindow host 0) eqn:Ec0;
    destruct (closeMainWindow host 1) eqn:Ec1;
    cbn [fst snd app];
    (split;
     [ intros H; try discriminate H;
       first [ left; repeat split; reflexivity
             | right; left; repeat split; try reflexivity; discriminate
             | right; right; repeat split; reflexivity ]
     | intros [(H1 & H2 & H3)|[(H1 & H2 & H3 & H4)|(H1 & H2 & H3 & H4 & H5)]];
       try reflexivity; try discriminate; congruence ]).
Qed.

Lemma open_resolve_failure (options : OpenChatOptions) (result : OpenChatResult) :
  open_resolve client options = inl result ->
  ocr_success result = false /\ ocr_chat result = None /\
  exists e, ocr_error result = Some e.
Proof.
  unfold open_resolve.
  destruct (truthy (oco_chatId options)); [discriminate|].
  destruct (truthy (oco_chatName options)) as [name|]; [|discriminate].
  destruct (chats_search client name 20) as [e|cursor].
  { intros [= <-]. simpl. eauto. }
  destruct (drain 20 cursor) as [e|allMatches].
  { intros [= <-]. simpl. eauto. }
  destruct (rankChatMatches allMatches name _) as [e|[|best rest]].
  - intros [= <-]. simpl. eauto.
  - destruct (rankChatMatches allMatches name _) as [e|allRanked];
      intros [= <-]; simpl; eauto.
  - discriminate.
Qed.

(** The search comes first, and is followed by 20 reads at most. *)
Lemma search_events_shape (options : OpenChatOptions) :
  let searched := search_events client options in
  searched = [] \/
  exists name n,
    truthy (oco_chatId options) = None /\
    truthy (oco_chatName options) = Some name /\
    n <= 20 /\
    searched = ChatsSearch name 20 :: repeat CursorNext n.
Proof.
  cbv zeta. unfold search_events.
  destruct (truthy (oco_chatId options)); [now left|].
  destruct (truthy (oco_chatName options)) as [name|]; [|now left].
  right. exists name.
  destruct (chats_search client name 20) as [e|cursor].
  - exists 0. repeat split. lia.
  - exists (reads 20 cursor). repeat split. unfold reads. lia.
Qed.

End OpenChat.

(** X23.  The calls [openChat] makes.  A search is made only to resolve
    the chat by its name: [client.chats.search] is then the first call,
    with the chat name and the limit 20, and is followed by the reads of
    its cursor, 20 at most.  When the chat is not resolved nothing else
    is called.  Otherwise [client.app.open] is called next, once, on a
    chat identifier that is not empty, and [open] on the application
    only after that call or the [closeMainWindow] after it threw.  The
    function reports success exactly when the last call made is a
    [closeMainWindow] that went through, be it after the chat was
    opened or after the application alone was; a failure carries an error
    and no chat, and suggestions come only with a failure in which
    nothing was opened. *)
Theorem openChat_calls
  (client : BeeperClient) (host : Host) (options : OpenChatOptions) :
  let beeper := OpenUrl (js "beeper://") in
  let r := fst (openChat client host options) in
  let events := snd (openChat client host options) in
  let searched := search_events client options in
  (searched = [] \/
   exists name n,
     truthy (oco_chatId options) = None /\
     truthy (oco_chatName options) = Some name /\
     n <= 20 /\
     searched = ChatsSearch name 20 :: repeat CursorNext n) /\
  (events = searched \/
   exists chatID, chatID <> [] /\
     (events = searched ++ [AppOpen chatID; CloseMainWindow] \/
      events = searched ++ [AppOpen chatID; ConsoleError; beeper] \/
      events = searched ++ [AppOpen chatID; ConsoleError; beeper;
                            CloseMainWindow] \/
      events = searched ++ [AppOpen chatID; CloseMainWindow; ConsoleError;
                            beeper] \/
      events = searched ++ [AppOpen chatID; CloseMainWindow; ConsoleError;
                            beeper; CloseMainWindow])) /\
  (ocr_success r = true <->
   exists chatID,
     (events = searched ++ [AppOpen chatID; CloseMainWindow] /\
      app_open client chatID = None /\ closeMainWindow host 0 = true) \/
     (events = searched ++ [AppOpen chatID; ConsoleError; beeper;
                            CloseMainWindow] /\
      app_open client chatID <> None /\
      open_url host (js "beeper://") = true /\
      closeMainWindow host 0 = true) \/
     (events = searched ++ [AppOpen chatID; CloseMainWindow; ConsoleError;
                            beeper; CloseMainWindow] /\
      app_open client chatID = None /\ closeMainWindow host 0 = false /\
      open_url host (js "beeper://") = true /\
      closeMainWindow host 1 = true)) /\
  (ocr_success r = false ->
   ocr_chat r = None /\ exists e, ocr_error r = Some e) /\
  (ocr_suggestions r <> None -> ocr_success r = false /\ events = searched).
Proof.
  intros beeper r events searched. subst beeper r events.
  split; [exact (search_events_shape client options)|].
  unfold openChat. fold searched.
  assert (Hnot : forall c tail, searched <> searched ++ AppOpen c :: tail).
  { intros c tail E. apply (f_equal (@length OpenEvent)) in E.
    rewrite length_app in E. simpl in E. lia. }
  destruct (open_resolve client options) as [result|[chatId foundChat]] eqn:Eres.
  - destruct (open_resolve_failure _ _ Eres) as (Hs & Hc & He).
    cbn [fst snd].
    split; [now left|]. split.
    { split; [congruence|].
      intros (c & [[H _]|[[H _]|[H _]]]); now apply Hnot in H. }
    split; [easy|]. easy.
  - destruct (truthy chatId) as [chatID|] eqn:Eid.
    + apply truthy_nonempty in Eid. destruct Eid as [-> Hne].
      pose proof (open_in_desktop_events client host chatID) as Hev.
      pose proof (open_in_desktop_ok client host chatID) as Hok.
      cbv zeta in Hok.
      destruct (open_in_desktop client host chatID) as [ok evs].
      cbn [fst snd] in Hev, Hok.
      unfold opening_calls in Hev. cbn [In] in Hev.
      assert (Hsame : forall c tail, evs = AppOpen c :: tail -> c = chatID).
      { intros c tail E. rewrite E in Hev.
        destruct Hev as [H|[H|[H|[H|[H|[]]]]]]; now injection H. }
      assert (Hiff : ok = true <->
        exists c,
          (searched ++ evs = searched ++ [AppOpen c; CloseMainWindow] /\
           app_open client c = None /\ closeMainWindow host 0 = true) \/
          (searched ++ evs
           = searched ++ [AppOpen c; ConsoleError; OpenUrl (js "beeper://");
                          CloseMainWindow] /\
           app_open client c <> None /\
           open_url host (js "beeper://") = true /\
           closeMainWindow host 0 = true) \/
          (searched ++ evs
           = searched ++ [AppOpen c; CloseMainWindow; ConsoleError;
                          OpenUrl (js "beeper://"); CloseMainWindow] /\
           app_open client c = None /\ closeMainWindow host 0 = false /\
           open_url host (js "beeper://") = true /\
           closeMainWindow host 1 = true)).
      { rewrite Hok. split.
        - intros H. exists chatID.
          destruct H as [(E & H)|[(E & H)|(E & H)]]; rewrite E; tauto.
        - intros (c & H).
          assert (c = chatID).
          { destruct H as [[E _]|[[E _]|[E _]]];
              apply app_inv_head in E; exact (Hsame _ _ E). }
          subst c.
          destruct H as [(E & H)|[(E & H)|(E & H)]];
            apply app_inv_head in E; tauto. }
      assert (Hshape :
        exists c, c <> [] /\
          (searched ++ evs = searched ++ [AppOpen c; CloseMainWindow] \/
           searched ++ evs
           = searched ++ [AppOpen c; ConsoleError; OpenUrl (js "beeper://")] \/
           searched ++ evs
           = searched ++ [AppOpen c; ConsoleError; OpenUrl (js "beeper://");
                          CloseMainWindow] \/
           searched ++ evs
           = searched ++ [AppOpen c; CloseMainWindow; ConsoleError;
                          OpenUrl (js "beeper://")] \/
           searched ++ evs
           = searched ++ [AppOpen c; CloseMainWindow; ConsoleError;
                          OpenUrl (js "beeper://"); CloseMainWindow])).
      { exists chatID. split; [assumption|].
        destruct Hev as [H|[H|[H|[H|[H|[]]]]]]; rewrite <- H; tauto. }
      assert (Hopened : searched ++ evs <> searched).
      { destruct Hev as [H|[H|[H|[H|[H|[]]]]]]; rewrite <- H;
          intros E; symmetry in E; now apply Hnot in E. }
      destruct ok; cbn [fst snd].
      * split; [now right|].
        split; [split; [intros _; now apply Hiff | reflexivity]|].
        split; [discriminate|]. simpl. congruence.
      * split; [now right|].
        split; [split; [discriminate | intros H; now apply Hiff in H]|].
        split; [intros _; simpl; eauto|]. simpl. congruence.
    + cbn [fst snd]. split; [now left|]. split.
      { split; [discriminate|].
        intros (c & [[H _]|[[H _]|[H _]]]); now apply Hnot in H. }
      split; [intros _; simpl; eauto|]. simpl. congruence.
Qed.

(** X24.  The chat a successful [openChat] reports.  Opened by its
    identifier, no chat is reported and no search is made.  Opened by its
    name, the chat reported is built from the best match, the first entry
    of the ranking of the first 20 chats found, under the service filter
    of the options, threshold 0.4; it has a name that is not empty, and
    the identifier passed to [client.app.open], the first call after the
    search and the reads of its cursor, is that of the best match. *)
Theorem openChat_chat_reported
  (client : BeeperClient) (host : Host) (options : OpenChatOptions) :
  let r := fst (openChat client host options) in
  let events := snd (openChat client host options) in
  ocr_success r = true ->
  (truthy (oco_chatId options) <> None ->
   ocr_chat r = None /\ search_events client options = []) /\
  (truthy (oco_chatId options) = None ->
   exists name cursor best rest tail,
     truthy (oco_chatName options) = Some name /\
     chats_search client name 20 = inr cursor /\
     rankChatMatches (firstn 20 (yields cursor)) name
       (ranking_options (oco_service options))
     = inr (best :: rest) /\
     ocr_chat r = Some (found_chat (chat best)) /\
     bc_name (found_chat (chat best)) <> [] /\
     events = ChatsSearch name 20 :: repeat CursorNext (reads 20 cursor)
              ++ AppOpen (id (chat best)) :: tail).
Proof.
  intros r events Hok. subst r events. unfold openChat in *.
  destruct (open_resolve client options) as [result|[chatId foundChat]] eqn:Eres.
  - destruct (open_resolve_failure _ _ Eres) as (Hs & _).
    cbn [fst] in Hok. congruence.
  - destruct (truthy chatId) as [chatID|] eqn:Eid; [|discriminate].
    pose proof (open_in_desktop_events client host chatID) as Hev.
    destruct (open_in_desktop client host chatID) as [ok evs].
    cbn [fst snd] in Hev.
    destruct ok; [|discriminate]. cbn [fst snd].
    unfold open_resolve in Eres. unfold search_events.
    destruct (truthy (oco_chatId options)) as [given|] eqn:Egiven.
    + split; [|congruence]. intros _.
      assert (E : foundChat = None).
      { destruct (truthy (oco_chatName options)); now injection Eres. }
      now rewrite E.
    + split; [congruence|]. intros _.
      destruct (truthy (oco_chatName options)) as [name|] eqn:Ename.
      * destruct (chats_search client name 20) as [e|cursor] eqn:Es;
          [discriminate|].
        destruct (drain 20 cursor) as [e|allMatches] eqn:Ed; [discriminate|].
        apply drain_20 in Ed. subst allMatches.
        fold (ranking_options (oco_service options)) in Eres.
        fold suggestion_options in Eres.
        destruct (rankChatMatches _ name (ranking_options _))
          as [e|[|best rest]] eqn:Er; [discriminate| |].
        { destruct (rankChatMatches _ name suggestion_options);
            discriminate. }
        injection Eres as <- <-.
        apply truthy_nonempty in Eid. destruct Eid as [[= <-] _].
        assert (Htail : exists tail, evs = AppOpen (id (chat best)) :: tail).
        { unfold opening_calls in Hev. cbn [In] in Hev.
          destruct Hev as [E|[E|[E|[E|[E|[]]]]]]; rewrite <- E; eauto. }
        destruct Htail as [tail ->].
        exists name, cursor, best, rest, tail.
        repeat split; try assumption; try reflexivity.
        simpl. now apply or_else_nonempty.
      * injection Eres as <- _.
        destruct (oco_chatId options) as [[|c0 r0]|]; simpl in *; discriminate.
Qed.

Lemma openChat_chat_reported_witness :
  let found := [plain_chat (js "c1") (js "xxxdef") (js "whatsapp");
                plain_chat (js "c2") (js "abcdexxxxxx") (js "telegram")] in
  let options := mkOpenChatOptions None (Some (js "abcdef")) None in
  let host := mkHost (fun _ => true) (fun _ => true) in
  let client := quiet_client found in
  (ocr_chat (fst (openChat client host
                    (mkOpenChatOptions (Some (js "c1")) None None))) = None /\
   search_events client (mkOpenChatOptions (Some (js "c1")) None None) = []) /\
  exists name cursor best rest tail,
    truthy (oco_chatName options) = Some name /\
    chats_search client name 20 = inr cursor /\
    rankChatMatches (firstn 20 (yields cursor)) name
      (ranking_options (oco_service options))
    = inr (best :: rest) /\
    ocr_chat (fst (openChat client host options))
    = Some (found_chat (chat best)) /\
    bc_name (found_chat (chat best)) <> [] /\
    snd (openChat client host options)
    = ChatsSearch name 20 :: repeat CursorNext (reads 20 cursor)
      ++ AppOpen (id (chat best)) :: tail.
Proof.
  intros found options host client. split.
  - apply (proj1 (openChat_chat_reported client host
                    (mkOpenChatOptions (Some (js "c1")) None None)
                    ltac:(vm_compute; reflexivity))).
    discriminate.
  - apply (proj2 (openChat_chat_reported client host options
                    ltac:(vm_compute; reflexivity))).
    reflexivity.
Defined.

(** The calls of the witness: the search, three reads of a cursor that
    holds two chats, and the chat [c2], which scores
    0.5000000000000001 against the 0.5 of [c1], opened. *)
Example open_best_match :
  snd (openChat
         (quiet_client
            [plain_chat (js "c1") (js "xxxdef") (js "whatsapp");
             plain_chat (js "c2") (js "abcdexxxxxx") (js "telegram")])
         (mkHost (fun _ => true) (fun _ => true))
         (mkOpenChatOptions None (Some (js "abcdef")) None))
  = [ChatsSearch (js "abcdef") 20; CursorNext; CursorNext; CursorNext;
     AppOpen (js "c2"); CloseMainWindow].
Proof. vm_compute. reflexivity. Qed.
